(** * Policy/value-guided tree search of [mcts_nn_cube.py]

    A shallow embedding of the search engine of [mcts_nn_cube.py]: the
    node objects ([MCTSNode]), the transposition table, the recursive
    [select_leaf_and_update] step and the agent ([MCTSAgent]) that owns the
    root.  Python objects live in a store and are named by references, so
    that two parents linking to one node really share it.  Floating-point
    values are IEEE-754 binary64 values ([spec_float] at precision 53), the
    format of Python floats and of numpy's default [float64]. *)

From Stdlib Require Import ZArith Lia SpecFloat.
From stdpp Require Import base option list gmap strings.

Local Open Scope Z_scope.

(** ** Binary64 arithmetic *)

Definition prec : Z := 53.
Definition emax : Z := 1024.

Definition float : Type := spec_float.

Definition fadd : float -> float -> float := SFadd prec emax.
Definition fmul : float -> float -> float := SFmul prec emax.
Definition fdiv : float -> float -> float := SFdiv prec emax.
Definition fsqrt : float -> float := SFsqrt prec emax.
Definition fleb : float -> float -> bool := SFleb.
Definition feqb : float -> float -> bool := SFeqb.

(** Conversion of an integer to the nearest binary64 value (what numpy does
    when an integer meets a float in an arithmetic operation). *)
Definition Z2F (z : Z) : float := binary_normalize prec emax z 0 false.

Definition is_nan (x : float) : bool :=
  match x with S754_nan => true | _ => false end.

Definition fzero : float := Z2F 0.
Definition fone : float := Z2F 1.
Definition fnan : float := S754_nan.

(** The decimal literals of the module, each the correctly rounded quotient
    of two small integers. *)
Definition f_075 : float := fdiv (Z2F 3) (Z2F 4).
Definition f_025 : float := fdiv (Z2F 1) (Z2F 4).
Definition f_05 : float := fdiv (Z2F 1) (Z2F 2).
Definition f_095 : float := fdiv (Z2F 95) (Z2F 100).

(** ** Module-level constants *)

Definition action_count : nat := 12.
Definition constant_priors : list float :=
  replicate action_count (fdiv (Z2F 1) (Z2F 3)).
Definition constant_value : float := fdiv (Z2F 1) (Z2F 100).
Definition max_depth_value : float := fzero.

(** ** Exceptions and results *)

Inductive exn : Type :=
  | NameError (name : string)
  | AttributeError (attr : string)
  | TypeError
  | IndexError
  | ValueError
  | InvalidRef.

Inductive result (A : Type) : Type :=
  | Ok (a : A)
  | Raise (e : exn).
Arguments Ok {A} a.
Arguments Raise {A} e.

(** ** The numpy operations the module uses, on one-dimensional arrays *)

(** Elementwise binary operation; shapes [(n,)] and [(n,)], or one operand
    of shape [(1,)], broadcast; any other pair of shapes is an error. *)
Definition np_binop {A B C : Type} (f : A -> B -> C)
    (xs : list A) (ys : list B) : result (list C) :=
  if bool_decide (length xs = length ys) then Ok (zip_with f xs ys)
  else match xs, ys with
       | [x], _ => Ok (map (f x) ys)
       | _, [y] => Ok (map (fun x => f x y) xs)
       | _, _ => Raise ValueError
       end.

(** [np.argmax] on a [float64] array: the scan keeps the first element that
    is not below-or-equal the running maximum, and stops at a NaN. *)
Fixpoint argmax_scan (mp : float) (max_ind i : nat) (ip : list float) : nat :=
  if is_nan mp then max_ind
  else match ip with
       | [] => max_ind
       | x :: ip' =>
           if negb (fleb x mp) then argmax_scan x i (S i) ip'
           else argmax_scan mp max_ind (S i) ip'
       end.

Definition np_argmax (xs : list float) : result nat :=
  match xs with
  | [] => Raise ValueError
  | x :: xs' => Ok (argmax_scan x 0%nat 1%nat xs')
  end.

(** [np.argmax] on an integer array. *)
Fixpoint argmax_scan_int (mp : Z) (max_ind i : nat) (ip : list Z) : nat :=
  match ip with
  | [] => max_ind
  | x :: ip' =>
      if mp <? x then argmax_scan_int x i (S i) ip'
      else argmax_scan_int mp max_ind (S i) ip'
  end.

Definition np_argmax_int (xs : list Z) : result nat :=
  match xs with
  | [] => Raise ValueError
  | x :: xs' => Ok (argmax_scan_int x 0%nat 1%nat xs')
  end.

Definition np_sum_int (xs : list Z) : Z := foldr Z.add 0 xs.

(** ** The search engine *)

Section Search.

(** The puzzle simulator ([batch_cube], wrapped by class [State]) is an
    external collaborator: the engine uses a state only through [next],
    [key], [done] and [input_array]. *)
Context {State Key Input : Type} `{Countable Key}.
Variable State_next : State -> nat -> State.
Variable State_key : State -> Key.
Variable State_done : State -> bool.
Variable State_input_array : State -> Input.

(** Everything outside the engine that a call may read and change: the
    state behind the policy/value callable (model weights, caches) and the
    state of numpy's random generator. *)
Context {Ext : Type}.

(** A policy/value callable: encoded state in, [(policy, value)] out. *)
Definition Oracle : Type := Input -> Ext -> (list float * float) * Ext.

(** [np.random.dirichlet(alpha, 1)[0]]. *)
Variable dirichlet : list float -> Ext -> list float * Ext.

(** [array ** inv_temp] and the sum of a float array, used only by the
    tempered branch of [action_probabilities]. *)
Variable np_power : list float -> float -> list float.
Variable np_sum : list float -> float.

(** *** Objects *)

(** A reference to a node object. *)
Definition ref : Type := nat.

(** The attributes [MCTSNode.__init__] binds under [if not self.terminal].
    The visit counters grow by one per simulation step; they are integers
    here, without the bound of numpy's fixed-width [int]. *)
Record NodeAttrs : Type := mkNodeAttrs {
  c_puct : float;
  is_leaf_node : bool;
  node_value : float;
  total_visit_counts : Z;
  visit_counts : list Z;
  total_action_values : list float;
  mean_action_values : list float;
  children : list (option ref)
}.

(** A node object.  [prior_probabilities] is kept apart from the other
    attributes because the agent assigns it from outside, also on a node
    whose constructor bound nothing. *)
Record MCTSNode : Type := mkNode {
  state : State;
  terminal : bool;
  prior_probabilities : option (list float);
  attrs : option NodeAttrs
}.

(** The agent object.  [initial_node] and [shortest_path] are unbound
    while the constructor is still building the root. *)
Record MCTSAgent : Type := mkAgent {
  model_policy_value : Oracle;
  max_depth : nat;
  total_steps : nat;
  transposition_table : gmap Key ref;
  agent_c_puct : float;
  gamma : float;
  initial_node : option ref;
  shortest_path : option Z
}.

(** The store: the node objects, the agent, and the outside world.  The
    last two fields are ghost state, written but never read by the
    program: the number of calls of the agent's policy/value callable, and
    the depths at which simulations met a terminal node since the last
    reset of [shortest_path], most recent first. *)
Record world : Type := mkWorld {
  heap : list MCTSNode;
  agent : MCTSAgent;
  ext : Ext;
  oracle_calls : nat;
  terminal_log : list Z
}.

Definition set_heap (h : list MCTSNode) (w : world) : world :=
  mkWorld h (agent w) (ext w) (oracle_calls w) (terminal_log w).
Definition set_agent (a : MCTSAgent) (w : world) : world :=
  mkWorld (heap w) a (ext w) (oracle_calls w) (terminal_log w).
Definition set_ext (e : Ext) (w : world) : world :=
  mkWorld (heap w) (agent w) e (oracle_calls w) (terminal_log w).
Definition set_oracle_calls (n : nat) (w : world) : world :=
  mkWorld (heap w) (agent w) (ext w) n (terminal_log w).
Definition set_terminal_log (l : list Z) (w : world) : world :=
  mkWorld (heap w) (agent w) (ext w) (oracle_calls w) l.

Definition set_transposition_table (t : gmap Key ref) (a : MCTSAgent) : MCTSAgent :=
  mkAgent (model_policy_value a) (max_depth a) (total_steps a) t
          (agent_c_puct a) (gamma a) (initial_node a) (shortest_path a).
Definition set_total_steps (n : nat) (a : MCTSAgent) : MCTSAgent :=
  mkAgent (model_policy_value a) (max_depth a) n (transposition_table a)
          (agent_c_puct a) (gamma a) (initial_node a) (shortest_path a).
Definition set_initial_node (r : ref) (a : MCTSAgent) : MCTSAgent :=
  mkAgent (model_policy_value a) (max_depth a) (total_steps a) (transposition_table a)
          (agent_c_puct a) (gamma a) (Some r) (shortest_path a).
Definition set_shortest_path (d : Z) (a : MCTSAgent) : MCTSAgent :=
  mkAgent (model_policy_value a) (max_depth a) (total_steps a) (transposition_table a)
          (agent_c_puct a) (gamma a) (initial_node a) (Some d).

Definition set_prior_probabilities (p : list float) (n : MCTSNode) : MCTSNode :=
  mkNode (state n) (terminal n) (Some p) (attrs n).
Definition set_attrs (a : NodeAttrs) (n : MCTSNode) : MCTSNode :=
  mkNode (state n) (terminal n) (prior_probabilities n) (Some a).

Definition set_is_leaf_node (b : bool) (a : NodeAttrs) : NodeAttrs :=
  mkNodeAttrs (c_puct a) b (node_value a) (total_visit_counts a) (visit_counts a)
              (total_action_values a) (mean_action_values a) (children a).
Definition set_total_visit_counts (n : Z) (a : NodeAttrs) : NodeAttrs :=
  mkNodeAttrs (c_puct a) (is_leaf_node a) (node_value a) n (visit_counts a)
              (total_action_values a) (mean_action_values a) (children a).
Definition set_visit_counts (l : list Z) (a : NodeAttrs) : NodeAttrs :=
  mkNodeAttrs (c_puct a) (is_leaf_node a) (node_value a) (total_visit_counts a) l
              (total_action_values a) (mean_action_values a) (children a).
Definition set_total_action_values (l : list float) (a : NodeAttrs) : NodeAttrs :=
  mkNodeAttrs (c_puct a) (is_leaf_node a) (node_value a) (total_visit_counts a)
              (visit_counts a) l (mean_action_values a) (children a).
Definition set_mean_action_values (l : list float) (a : NodeAttrs) : NodeAttrs :=
  mkNodeAttrs (c_puct a) (is_leaf_node a) (node_value a) (total_visit_counts a)
              (visit_counts a) (total_action_values a) l (children a).
Definition set_children (l : list (option ref)) (a : NodeAttrs) : NodeAttrs :=
  mkNodeAttrs (c_puct a) (is_leaf_node a) (node_value a) (total_visit_counts a)
              (visit_counts a) (total_action_values a) (mean_action_values a) l.

(** *** Computations that read and write the store, or raise *)

Definition M (A : Type) : Type := world -> result (A * world).

Definition ret {A : Type} (a : A) : M A := fun w => Ok (a, w).
Definition raise {A : Type} (e : exn) : M A := fun _ => Raise e.
Definition bind {A B : Type} (m : M A) (k : A -> M B) : M B :=
  fun w => match m w with
           | Ok (a, w') => k a w'
           | Raise e => Raise e
           end.
Definition lift {A : Type} (r : result A) : M A :=
  fun w => match r with Ok a => Ok (a, w) | Raise e => Raise e end.
Definition get_world : M world := fun w => Ok (w, w).
Definition modify (f : world -> world) : M unit := fun w => Ok (tt, f w).

Notation "x <- m ;; k" := (bind m (fun x => k))
  (at level 100, m at next level, right associativity).
Notation "m ;;; k" := (bind m (fun _ => k))
  (at level 100, right associativity).

Definition get_node (r : ref) : M MCTSNode :=
  fun w => match heap w !! r with
           | Some n => Ok (n, w)
           | None => Raise InvalidRef
           end.

Definition put_node (r : ref) (n : MCTSNode) : M unit :=
  modify (fun w => set_heap (<[r := n]> (heap w)) w).

(** Reading an attribute of a non-terminal node; on a terminal node the
    attribute was never bound. *)
Definition get_attrs (attr : string) (r : ref) : M NodeAttrs :=
  n <- get_node r ;;
  match attrs n with
  | Some a => ret a
  | None => raise (AttributeError attr)
  end.

Definition put_attrs (r : ref) (a : NodeAttrs) : M unit :=
  n <- get_node r ;;
  put_node r (set_attrs a n).

(** A new object; its reference is the next free index of the store. *)
Definition alloc (n : MCTSNode) : M ref :=
  fun w => Ok (length (heap w), set_heap (heap w ++ [n]) w).

(** A call of [mcts_agent.model_policy_value]. *)
Definition call_model_policy_value (x : Input) : M (list float * float) :=
  fun w =>
    let '(pv, e) := model_policy_value (agent w) x (ext w) in
    Ok (pv, set_oracle_calls (S (oracle_calls w)) (set_ext e w)).

Definition call_dirichlet (alpha : list float) : M (list float) :=
  fun w => let '(d, e) := dirichlet alpha (ext w) in Ok (d, set_ext e w).

(** Python sequence indexing with a non-negative index. *)
Definition index {A : Type} (l : list A) (i : nat) : M A :=
  match l !! i with
  | Some x => ret x
  | None => raise IndexError
  end.

(** *** class MCTSNode *)

Definition MCTSNode_init (st : State) : M ref :=
  let term := State_done st in
  if term then alloc (mkNode st term None None)
  else
    w <- get_world ;;
    let cp := agent_c_puct (agent w) in
    pv <- call_model_policy_value (State_input_array st) ;;
    alloc (mkNode st term (Some (fst pv))
             (Some (mkNodeAttrs cp true (snd pv) 0
                      (replicate action_count 0)
                      (replicate action_count fzero)
                      (replicate action_count fzero)
                      (replicate action_count None)))).

Definition get_prior_probabilities (r : ref) : M (list float) :=
  n <- get_node r ;;
  match prior_probabilities n with
  | Some p => ret p
  | None => raise (AttributeError "prior_probabilities")
  end.

Definition upper_confidence_bounds (self : ref) : M (list float) :=
  a <- get_attrs "node_value" self ;;
  p <- get_prior_probabilities self ;;
  let s := fmul (fmul (node_value a) (c_puct a))
                (fsqrt (Z2F (total_visit_counts a))) in
  lift (np_binop fdiv (map (fmul s) p)
                 (map (fun n => Z2F (1 + n)) (visit_counts a))).

Definition child (self : ref) (action : nat) : M ref :=
  a <- get_attrs "children" self ;;
  child_node <- index (children a) action ;;
  match child_node with
  | Some c => ret c
  | None =>
      n <- get_node self ;;
      let next_state := State_next (state n) action in
      let key := State_key next_state in
      w <- get_world ;;
      match transposition_table (agent w) !! key with
      | Some node =>
          put_attrs self (set_children (<[action := Some node]> (children a)) a) ;;;
          ret node
      | None =>
          new_node <- MCTSNode_init next_state ;;
          put_attrs self (set_children (<[action := Some new_node]> (children a)) a) ;;;
          modify (fun w => set_agent
                    (set_transposition_table
                       (<[key := new_node]> (transposition_table (agent w)))
                       (agent w)) w) ;;;
          ret new_node
      end
  end.

(** The terminal branch of [select_leaf_and_update] (lines 91-93); its last
    step writes the ghost log. *)
Definition record_shortest_path (budget : nat) : M unit :=
  w <- get_world ;;
  let depth := Z.of_nat (max_depth (agent w)) - Z.of_nat budget in
  match shortest_path (agent w) with
  | None => raise (AttributeError "shortest_path")
  | Some sp =>
      (if depth <? sp
       then modify (fun w => set_agent (set_shortest_path depth (agent w)) w)
       else ret tt) ;;;
      modify (fun w => set_terminal_log (depth :: terminal_log w) w)
  end.

(** Line 110: the action with the highest score. *)
Definition select_action (self : ref) : M nat :=
  a <- get_attrs "mean_action_values" self ;;
  ucb <- upper_confidence_bounds self ;;
  scores <- lift (np_binop fadd (mean_action_values a) ucb) ;;
  lift (np_argmax scores).

(** Lines 113-114: the visit is counted before the recursive call. *)
Definition count_visit (self : ref) (action : nat) : M unit :=
  a <- get_attrs "total_visit_counts" self ;;
  let a1 := set_total_visit_counts (total_visit_counts a + 1) a in
  vc <- index (visit_counts a1) action ;;
  put_attrs self (set_visit_counts (<[action := vc + 1]> (visit_counts a1)) a1).

(** Lines 123-124: the edge statistics are updated after it. *)
Definition update_edge (self : ref) (action : nat) (action_value : float) : M unit :=
  a <- get_attrs "total_action_values" self ;;
  t <- index (total_action_values a) action ;;
  let a1 := set_total_action_values
              (<[action := fadd t action_value]> (total_action_values a)) a in
  t1 <- index (total_action_values a1) action ;;
  vc <- index (visit_counts a1) action ;;
  put_attrs self
    (set_mean_action_values (<[action := fdiv t1 (Z2F vc)]> (mean_action_values a1)) a1).

Fixpoint select_leaf_and_update (budget : nat) (self : ref) : M float :=
  n <- get_node self ;;
  if terminal n then
    record_shortest_path budget ;;;
    ret fone
  else
    a <- get_attrs "is_leaf_node" self ;;
    if is_leaf_node a then
      put_attrs self (set_is_leaf_node false a) ;;;
      ret (node_value a)
    else
      match budget with
      | O => ret max_depth_value
      | S budget' =>
          action <- select_action self ;;
          count_visit self action ;;;
          w <- get_world ;;
          c <- child self action ;;
          v <- select_leaf_and_update budget' c ;;
          let action_value := fmul (gamma (agent w)) v in
          update_edge self action action_value ;;;
          ret action_value
      end.

Definition action_visit_counts (self : ref) : M (list Z) :=
  n <- get_node self ;;
  if terminal n then ret (replicate action_count 0)
  else
    a <- get_attrs "is_leaf_node" self ;;
    if is_leaf_node a then ret (replicate action_count 0)
    else ret (visit_counts a).

(** [None] of Python is [None] here; a returned array is [Some]. *)
Definition action_probabilities (self : ref) (inv_temp : float)
    : M (option (list float)) :=
  n <- get_node self ;;
  if terminal n then ret None
  else
    a <- get_attrs "is_leaf_node" self ;;
    if is_leaf_node a then ret None
    else
      let total := Z2F (np_sum_int (visit_counts a)) in
      let normalized := map (fun c => fdiv (Z2F c) total) (visit_counts a) in
      if feqb inv_temp fone then ret (Some normalized)
      else
        let exponentiated_visit_counts := np_power normalized inv_temp in
        ret (Some (map (fun x => fdiv x (np_sum exponentiated_visit_counts))
                       exponentiated_visit_counts)).

(** *** class MCTSAgent *)

Definition get_initial_node : M ref :=
  w <- get_world ;;
  match initial_node (agent w) with
  | Some r => ret r
  | None => raise (AttributeError "initial_node")
  end.

(** The right-hand side of both assignments to
    [self.initial_node.prior_probabilities]. *)
Definition noised_priors : M (list float) :=
  r <- get_initial_node ;;
  n <- get_node r ;;
  pv <- call_model_policy_value (State_input_array (state n)) ;;
  d <- call_dirichlet (replicate action_count f_05) ;;
  lift (np_binop fadd (map (fmul f_075) (fst pv)) (map (fmul f_025) d)).

Definition assign_root_priors : M unit :=
  p <- noised_priors ;;
  r <- get_initial_node ;;
  n <- get_node r ;;
  put_node r (set_prior_probabilities p n).

Definition reset_shortest_path : M unit :=
  modify (fun w =>
    set_terminal_log []
      (set_agent (set_shortest_path (Z.of_nat (max_depth (agent w)) + 1) (agent w)) w)).

(** The constructor once the name [rotationally_randomize] has produced
    the callable [wrapped_policy_value]; [h] and [e] are the objects and
    the outside world the constructor starts from. *)
Definition MCTSAgent_init_body (wrapped_policy_value : Oracle)
    (initial_state : State) (max_depth : nat)
    (transposition_table : gmap Key ref) (c_puct gamma : float)
    (h : list MCTSNode) (e : Ext) : result world :=
  let self := mkAgent wrapped_policy_value max_depth 0 transposition_table
                      c_puct gamma None None in
  match (root <- MCTSNode_init initial_state ;;
         modify (fun w => set_agent (set_initial_node root (agent w)) w) ;;;
         assign_root_priors ;;;
         reset_shortest_path) (mkWorld h self e 0 []) with
  | Ok (_, w) => Ok w
  | Raise x => Raise x
  end.

Definition search_step : M unit :=
  r <- get_initial_node ;;
  w <- get_world ;;
  select_leaf_and_update (max_depth (agent w)) r ;;;
  modify (fun w => set_agent (set_total_steps (S (total_steps (agent w))) (agent w)) w).

Fixpoint search (steps : nat) : M unit :=
  match steps with
  | O => ret tt
  | S steps' => search_step ;;; search steps'
  end.

Definition agent_action_visit_counts : M (list Z) :=
  r <- get_initial_node ;; action_visit_counts r.

Definition agent_action_probabilities (inv_temp : float) : M (option (list float)) :=
  r <- get_initial_node ;; action_probabilities r inv_temp.

Definition is_terminal : M bool :=
  r <- get_initial_node ;; n <- get_node r ;; ret (terminal n).

Definition advance_to_action (action : nat) : M unit :=
  r <- get_initial_node ;;
  c <- child r action ;;
  modify (fun w => set_agent (set_initial_node c (agent w)) w) ;;;
  assign_root_priors ;;;
  reset_shortest_path.

Definition advance_to_best_child : M unit :=
  counts <- agent_action_visit_counts ;;
  best_action <- lift (np_argmax_int counts) ;;
  advance_to_action best_action.

Inductive stat : Type :=
  | StatInt (z : Z)
  | StatFloat (x : float)
  | StatFloats (xs : list float)
  | StatInts (xs : list Z)
  | StatNone.

Definition stats (key : string) : M stat :=
  if String.eqb key "shortest_path" then
    w <- get_world ;;
    match shortest_path (agent w) with
    | None => raise (AttributeError "shortest_path")
    | Some sp =>
        ret (StatInt (if sp <=? Z.of_nat (max_depth (agent w)) then sp else -1))
    end
  else if String.eqb key "prior" then
    r <- get_initial_node ;; n <- get_node r ;;
    pv <- call_model_policy_value (State_input_array (state n)) ;;
    ret (StatFloats (fst pv))
  else if String.eqb key "prior_dirichlet" then
    r <- get_initial_node ;; p <- get_prior_probabilities r ;;
    ret (StatFloats p)
  else if String.eqb key "value" then
    r <- get_initial_node ;; n <- get_node r ;;
    pv <- call_model_policy_value (State_input_array (state n)) ;;
    ret (StatFloat (snd pv))
  else if String.eqb key "visit_counts" then
    r <- get_initial_node ;; a <- get_attrs "visit_counts" r ;;
    ret (StatInts (visit_counts a))
  else if String.eqb key "total_action_values" then
    r <- get_initial_node ;; a <- get_attrs "total_action_values" r ;;
    ret (StatFloats (total_action_values a))
  else ret StatNone.

(** *** Name resolution in the module *)

(** What a module-level name can be bound to. *)
Inductive pyobj : Type :=
  | PyModule (name : string)
  | PyImported (module name : string)
  | PyInt (z : Z)
  | PyFloat (x : float)
  | PyArray (xs : list float)
  | PyClass (name : string)
  | PyFunction (name : string)
  | PyOracleTransform (f : Oracle -> Oracle).

(** The global namespace of [mcts_nn_cube.py] after the module body has
    run: its three import statements and its top-level assignments,
    classes and functions, in source order. *)
Definition module_globals : list (string * pyobj) :=
  [ ("np", PyModule "numpy");
    ("BatchCube", PyImported "batch_cube" "BatchCube");
    ("position_permutations", PyImported "batch_cube" "position_permutations");
    ("color_permutations", PyImported "batch_cube" "color_permutations");
    ("opp_action_permutations", PyImported "batch_cube" "opp_action_permutations");
    ("warnings", PyModule "warnings");
    ("action_count", PyInt (Z.of_nat action_count));
    ("constant_priors", PyArray constant_priors);
    ("constant_value", PyFloat constant_value);
    ("max_depth_value", PyFloat max_depth_value);
    ("State", PyClass "State");
    ("MCTSNode", PyClass "MCTSNode");
    ("MCTSAgent", PyClass "MCTSAgent");
    ("prob_box", PyFunction "prob_box");
    ("main", PyFunction "main") ].

(** The names of Python's [builtins] module (functions, constants and the
    exception classes a program can name). *)
Definition builtin_names : list string :=
  [ "abs"; "aiter"; "all"; "anext"; "any"; "ascii"; "bin"; "bool";
    "breakpoint"; "bytearray"; "bytes"; "callable"; "chr"; "classmethod";
    "compile"; "complex"; "delattr"; "dict"; "dir"; "divmod"; "enumerate";
    "eval"; "exec"; "filter"; "float"; "format"; "frozenset"; "getattr";
    "globals"; "hasattr"; "hash"; "help"; "hex"; "id"; "input"; "int";
    "isinstance"; "issubclass"; "iter"; "len"; "list"; "locals"; "map";
    "max"; "memoryview"; "min"; "next"; "object"; "oct"; "open"; "ord";
    "pow"; "print"; "property"; "range"; "repr"; "reversed"; "round";
    "set"; "setattr"; "slice"; "sorted"; "staticmethod"; "str"; "sum";
    "super"; "tuple"; "type"; "vars"; "zip"; "__import__";
    "True"; "False"; "None"; "Ellipsis"; "NotImplemented"; "__debug__";
    "BaseException"; "Exception"; "ArithmeticError"; "AssertionError";
    "AttributeError"; "EOFError"; "ImportError"; "IndexError"; "KeyError";
    "KeyboardInterrupt"; "LookupError"; "MemoryError"; "NameError";
    "NotImplementedError"; "OSError"; "OverflowError"; "RecursionError";
    "RuntimeError"; "StopIteration"; "SyntaxError"; "SystemExit";
    "TypeError"; "ValueError"; "Warning"; "UserWarning";
    "DeprecationWarning"; "RuntimeWarning"; "ZeroDivisionError" ].

Fixpoint assoc (name : string) (ns : list (string * pyobj)) : option pyobj :=
  match ns with
  | [] => None
  | (k, v) :: ns' => if String.eqb name k then Some v else assoc name ns'
  end.

(** Looking a free name up from inside a method: the module's globals,
    then the builtins. *)
Definition resolve (globals : list (string * pyobj)) (name : string)
    : result pyobj :=
  match assoc name globals with
  | Some v => Ok v
  | None =>
      if existsb (String.eqb name) builtin_names
      then Ok (PyFunction name)
      else Raise (NameError name)
  end.

(** Calling the object a name resolved to on a policy/value callable. *)
Definition call_on_oracle (f : pyobj) (mpv : Oracle) : result Oracle :=
  match f with
  | PyOracleTransform t => Ok (t mpv)
  | _ => Raise TypeError
  end.

(** [MCTSAgent.__init__], run with [globals] as the module namespace. *)
Definition MCTSAgent_init (globals : list (string * pyobj))
    (model_policy_value : Oracle) (initial_state : State) (max_depth : nat)
    (transposition_table : gmap Key ref) (c_puct gamma : float)
    (h : list MCTSNode) (e : Ext) : result world :=
  match resolve globals "rotationally_randomize" with
  | Raise x => Raise x
  | Ok f =>
      match call_on_oracle f model_policy_value with
      | Raise x => Raise x
      | Ok wrapped =>
          MCTSAgent_init_body wrapped initial_state max_depth
            transposition_table c_puct gamma h e
      end
  end.

(** *** Specification vocabulary *)

(** The selection score as the specification writes it:
    [mean + value * c_puct * sqrt(total_visits) * prior / (1 + visits)]. *)
Definition spec_score (mean value cpuct : float) (total_visits : Z)
    (prior : float) (visits : Z) : float :=
  fadd mean
    (fdiv (fmul (fmul (fmul value cpuct) (fsqrt (Z2F total_visits))) prior)
          (Z2F (1 + visits))).

(** The specification's score of action [i] at a node with statistics [a]
    and priors [p]. *)
Definition score_of (a : NodeAttrs) (p : list float) (i : nat) : option float :=
  match mean_action_values a !! i, p !! i, visit_counts a !! i with
  | Some m, Some q, Some c =>
      Some (spec_score m (node_value a) (c_puct a) (total_visit_counts a) q c)
  | _, _, _ => None
  end.

(** The order in which [np.argmax] compares: the usual one, with NaN above
    everything. *)
Definition np_below (x y : float) : bool :=
  is_nan y || (negb (is_nan x) && fleb x y).

(** Every statistics array of a node has one slot per action. *)
Definition attrs_shaped (a : NodeAttrs) : Prop :=
  length (visit_counts a) = action_count /\
  length (total_action_values a) = action_count /\
  length (mean_action_values a) = action_count /\
  length (children a) = action_count.

(** [mean_action_values[i] == total_action_values[i] / visit_counts[i]] for
    a visited action [i]. *)
Definition mean_consistent (a : NodeAttrs) (i : nat) : Prop :=
  forall c, visit_counts a !! i = Some c -> 0 < c ->
    exists t, total_action_values a !! i = Some t /\
              mean_action_values a !! i = Some (fdiv t (Z2F c)).

(** The statistics invariant, for every node that carries statistics, apart
    from the edges in [pending] (those whose visit is counted and whose
    value has not come back yet). *)
Definition stats_consistent_except (pending : ref -> nat -> Prop)
    (h : list MCTSNode) : Prop :=
  forall r n a, h !! r = Some n -> attrs n = Some a ->
    attrs_shaped a /\
    total_visit_counts a = np_sum_int (visit_counts a) /\
    forall i, ~ pending r i -> mean_consistent a i.

Definition stats_consistent (h : list MCTSNode) : Prop :=
  stats_consistent_except (fun _ _ => False) h.

(** Every child link agrees with the transposition table: the child a node
    holds for an action is the table's entry for the key of the state that
    action leads to. *)
Definition links_agree (w : world) : Prop :=
  forall r n a i c, heap w !! r = Some n -> attrs n = Some a ->
    children a !! i = Some (Some c) ->
    transposition_table (agent w) !! State_key (State_next (state n) i) = Some c.

(** [shortest_path] is the least depth logged since its last reset, or the
    sentinel. *)
Definition min_depth (md : nat) (log : list Z) : Z :=
  foldr Z.min (Z.of_nat md + 1) log.

Definition log_consistent (w : world) : Prop :=
  shortest_path (agent w) = Some (min_depth (max_depth (agent w)) (terminal_log w)) /\
  Forall (fun d => d <= Z.of_nat (max_depth (agent w))) (terminal_log w).

(** Two stores whose agents differ at most in the transposition table and
    whose logs agree. *)
Definition agent_frame (w w' : world) : Prop :=
  model_policy_value (agent w') = model_policy_value (agent w) /\
  max_depth (agent w') = max_depth (agent w) /\
  total_steps (agent w') = total_steps (agent w) /\
  agent_c_puct (agent w') = agent_c_puct (agent w) /\
  gamma (agent w') = gamma (agent w) /\
  initial_node (agent w') = initial_node (agent w) /\
  shortest_path (agent w') = shortest_path (agent w) /\
  terminal_log w' = terminal_log w.

(** A node that is not terminal carries statistics. *)
Definition nodes_have_attrs (h : list MCTSNode) : Prop :=
  forall r n, h !! r = Some n -> terminal n = false -> is_Some (attrs n).

(** The invariants of a store the program can be in. *)
Definition store_invariant (w : world) : Prop :=
  stats_consistent (heap w) /\ links_agree w /\ log_consistent w /\
  nodes_have_attrs (heap w).

(** Node [m'] is node [m] with, at most, other priors and other child
    links: same state, same flags, same statistics. *)
Definition same_statistics (m m' : MCTSNode) : Prop :=
  state m' = state m /\ terminal m' = terminal m /\
  match attrs m, attrs m' with
  | Some a, Some a' =>
      is_leaf_node a' = is_leaf_node a /\
      node_value a' = node_value a /\
      total_visit_counts a' = total_visit_counts a /\
      visit_counts a' = visit_counts a /\
      total_action_values a' = total_action_values a /\
      mean_action_values a' = mean_action_values a
  | None, None => True
  | _, _ => False
  end.

(** The stores a program can be in: an agent constructed in a fresh process
    or on the objects and table an earlier agent left behind, then any
    sequence of searches and advances. *)
Inductive reachable : world -> Prop :=
  | reach_fresh wrapped s md cp g e w :
      MCTSAgent_init_body wrapped s md ∅ cp g [] e = Ok w ->
      reachable w
  | reach_again w0 wrapped s md cp g w :
      reachable w0 ->
      MCTSAgent_init_body wrapped s md (transposition_table (agent w0)) cp g
        (heap w0) (ext w0) = Ok w ->
      reachable w
  | reach_search steps w w' :
      reachable w ->
      search steps w = Ok (tt, w') ->
      reachable w'
  | reach_advance action w w' :
      reachable w ->
      advance_to_action action w = Ok (tt, w') ->
      reachable w'.

(** The two sentences of the specification that the code does not follow,
    as the specification states them.  First: constructing an agent on a
    terminal state calls the policy/value callable zero times and leaves
    the root without priors. *)
Definition terminal_root_untouched : Prop :=
  forall wrapped s md table cp g h e w,
    State_done s = true ->
    MCTSAgent_init_body wrapped s md table cp g h e = Ok w ->
    oracle_calls w = 0%nat /\
    forall r n, initial_node (agent w) = Some r -> heap w !! r = Some n ->
                prior_probabilities n = None.

(** Second: the recursive step returns the child's value as the child
    returned it, before the multiplication by [gamma]. *)
Definition returns_undiscounted_value : Prop :=
  forall budget self action w w1 c w2 v_child w3 v w',
    select_action self w = Ok (action, w) ->
    count_visit self action w = Ok (tt, w1) ->
    child self action w1 = Ok (c, w2) ->
    select_leaf_and_update budget c w2 = Ok (v_child, w3) ->
    select_leaf_and_update (S budget) self w = Ok (v, w') ->
    v = v_child.

(** *** Stores on which every call goes through *)

(** A policy/value callable whose policy has one entry per action, and a
    Dirichlet sampler whose sample has one entry per concentration. *)
Definition policy_shaped (o : Oracle) : Prop :=
  forall x e, length (fst (fst (o x e))) = action_count.

Definition dirichlet_shaped : Prop :=
  forall alpha e, length (fst (dirichlet alpha e)) = length alpha.

(** A node as [MCTSNode.__init__] and the methods leave it: a terminal node
    carries no statistics; any other carries priors and statistics with one
    slot per action, and its child links point into the store. *)
Definition node_ready (bound : nat) (n : MCTSNode) : Prop :=
  (terminal n = true -> attrs n = None) /\
  (terminal n = false ->
   exists a p, attrs n = Some a /\ prior_probabilities n = Some p /\
     length p = action_count /\ attrs_shaped a /\
     forall i c, children a !! i = Some (Some c) -> (c < bound)%nat).

Definition store_ready (w : world) : Prop :=
  policy_shaped (model_policy_value (agent w)) /\
  (forall k c, transposition_table (agent w) !! k = Some c ->
     (c < length (heap w))%nat) /\
  (forall r n, heap w !! r = Some n -> node_ready (length (heap w)) n).

(** A store whose agent is fully constructed. *)
Definition ready (w : world) : Prop :=
  store_ready w /\
  (exists r, initial_node (agent w) = Some r /\ (r < length (heap w))%nat) /\
  is_Some (shortest_path (agent w)).

(** The stores an agent passes through from [w0] on, by searches and
    advances. *)
Inductive runs_from (w0 : world) : world -> Prop :=
  | runs_here : runs_from w0 w0
  | runs_search steps w w' :
      runs_from w0 w -> search steps w = Ok (tt, w') -> runs_from w0 w'
  | runs_advance action w w' :
      runs_from w0 w -> advance_to_action action w = Ok (tt, w') ->
      runs_from w0 w'.

(** What a later store keeps of a node: its state, its flags once cleared,
    its value estimate, its child links; the visit counts only grow. *)
Definition node_grows (n n' : MCTSNode) : Prop :=
  state n' = state n /\ terminal n' = terminal n /\
  forall a, attrs n = Some a ->
    exists a', attrs n' = Some a' /\
      node_value a' = node_value a /\ c_puct a' = c_puct a /\
      total_visit_counts a <= total_visit_counts a' /\
      (forall i c, visit_counts a !! i = Some c ->
         exists c', visit_counts a' !! i = Some c' /\ c <= c') /\
      (is_leaf_node a = false -> is_leaf_node a' = false) /\
      (forall i c, children a !! i = Some (Some c) ->
         children a' !! i = Some (Some c)).

(** What a later store keeps of an earlier one: every table entry, every
    node, and the agent's configuration. *)
Definition keeps (w w' : world) : Prop :=
  transposition_table (agent w) ⊆ transposition_table (agent w') /\
  (forall r n, heap w !! r = Some n ->
     exists n', heap w' !! r = Some n' /\ node_grows n n') /\
  model_policy_value (agent w') = model_policy_value (agent w) /\
  max_depth (agent w') = max_depth (agent w) /\
  agent_c_puct (agent w') = agent_c_puct (agent w) /\
  gamma (agent w') = gamma (agent w).

(** An action that was never counted has total and mean exactly [0.0], and
    no count is negative. *)
Definition unvisited_zero (a : NodeAttrs) : Prop :=
  forall i c, visit_counts a !! i = Some c ->
    0 <= c /\
    (c = 0 -> total_action_values a !! i = Some fzero /\
              mean_action_values a !! i = Some fzero).

Definition counts_sound (h : list MCTSNode) : Prop :=
  forall r n a, h !! r = Some n -> attrs n = Some a -> unvisited_zero a.

End Search.

(** ** A small transition system to run the engine on

    States are positions on the integer line; action 0 steps right, action 1
    steps left, every other action stays in place; position 0 is solved.
    The policy/value callable is the module's constant one; the random
    source counts its draws and returns a flat sample. *)

Module Toy.

Definition next (s : Z) (action : nat) : Z :=
  match action with
  | O => s + 1
  | S O => s - 1
  | _ => s
  end.
Definition key (s : Z) : Z := s.
Definition done (s : Z) : bool := s =? 0.
Definition input_array (s : Z) : Z := s.

Definition constant_policy_value : @Oracle Z nat :=
  fun _ e => ((constant_priors, constant_value), e).

Definition dirichlet (alpha : list float) (e : nat) : list float * nat :=
  (replicate (length alpha) (fdiv (Z2F 1) (Z2F (Z.of_nat (length alpha)))), S e).

Definition np_power (xs : list float) (p : float) : list float := xs.
Definition np_sum (xs : list float) : float := foldl fadd fzero xs.

(** The identity in place of the missing [rotationally_randomize]. *)
Definition no_rotation (f : @Oracle Z nat) : @Oracle Z nat := f.

Definition new_agent (s : Z) (max_depth : nat) : result (@world Z Z Z _ _ nat) :=
  MCTSAgent_init_body done input_array dirichlet
    constant_policy_value s max_depth ∅ fone f_095 [] 0%nat.

Definition run {A : Type} (m : @M Z Z Z _ _ nat A) (r : result (@world Z Z Z _ _ nat))
    : result (A * @world Z Z Z _ _ nat) :=
  match r with
  | Ok w => m w
  | Raise e => Raise e
  end.

Definition after {A : Type} (r : result (A * @world Z Z Z _ _ nat))
    : result (@world Z Z Z _ _ nat) :=
  match r with
  | Ok (_, w) => Ok w
  | Raise e => Raise e
  end.

Definition search (steps : nat) := @search Z Z Z _ _ next key done input_array nat steps.
Definition select_leaf_and_update (budget : nat) (self : ref) :=
  @select_leaf_and_update Z Z Z _ _ next key done input_array nat budget self.
Definition child (self : ref) (action : nat) :=
  @child Z Z Z _ _ next key done input_array nat self action.
Definition action_probabilities (inv_temp : float) :=
  @agent_action_probabilities Z Z Z _ _ nat np_power np_sum inv_temp.
Definition advance_to_action (action : nat) :=
  @advance_to_action Z Z Z _ _ next key done input_array nat dirichlet action.

Definition stats (key : string) := @stats Z Z Z _ _ input_array nat key.
Definition select_action (self : ref) : @M Z Z Z _ _ nat nat := select_action self.
Definition count_visit (self : ref) (action : nat) : @M Z Z Z _ _ nat unit :=
  count_visit self action.
Definition is_terminal : @M Z Z Z _ _ nat bool := is_terminal.

(** The store after [steps] simulations of a new agent on state [s]. *)
Definition world_after (steps : nat) (s : Z) (max_depth : nat)
    : result (@world Z Z Z _ _ nat) :=
  after (run (search steps) (new_agent s max_depth)).

(** Reading a store out of a result. *)
Definition blank : @world Z Z Z _ _ nat :=
  mkWorld [] (mkAgent constant_policy_value 0 0 ∅ fzero fzero None None) 0%nat 0 [].

Definition get (r : result (@world Z Z Z _ _ nat)) : @world Z Z Z _ _ nat :=
  match r with
  | Ok w => w
  | Raise _ => blank
  end.

(** A new agent on the solved state, and the same after one simulation. *)
Definition w_solved : @world Z Z Z _ _ nat := Eval vm_compute in get (new_agent 0 5).
Definition w_solved_1 : @world Z Z Z _ _ nat := Eval vm_compute in get (world_after 1 0 5).

(** A new agent two steps from the solved state, and the same after one and
    after three simulations. *)
Definition w_new : @world Z Z Z _ _ nat := Eval vm_compute in get (new_agent 2 5).
Definition w_one : @world Z Z Z _ _ nat := Eval vm_compute in get (world_after 1 2 5).
Definition w_three : @world Z Z Z _ _ nat := Eval vm_compute in get (world_after 3 2 5).

(** The store of [w_one] once action 0 of the root has been counted, then
    once its child has been made. *)
Definition w_counted : @world Z Z Z _ _ nat :=
  Eval vm_compute in get (after (count_visit 0%nat 0%nat w_one)).
Definition w_child : @world Z Z Z _ _ nat :=
  Eval vm_compute in get (after (child 0%nat 0%nat w_counted)).

End Toy.

(** ** Properties *)

(** *** The order of binary64 values *)

Ltac compare_cases :=
  repeat match goal with
         | |- context [Z.compare ?a ?b] => destruct (Z.compare_spec a b)
         | |- context [Pos.compare_cont Eq ?a ?b] =>
             change (Pos.compare_cont Eq a b) with (Pos.compare a b);
             destruct (Pos.compare_spec a b)
         end.

Lemma fleb_trans (x y z : float) :
  fleb x y = true -> fleb y z = true -> fleb x z = true.
Proof.
  unfold fleb, SFleb, SFcompare.
  destruct x as [[]|[]| |[] mx ex], y as [[]|[]| |[] my ey], z as [[]|[]| |[] mz ez];
    simpl; try done; compare_cases; simpl; intros; subst; try done; lia.
Qed.

Lemma fleb_total (x y : float) :
  is_nan x = false -> is_nan y = false -> fleb x y = false -> fleb y x = true.
Proof.
  unfold fleb, SFleb, SFcompare.
  destruct x as [[]|[]| |[] mx ex], y as [[]|[]| |[] my ey];
    simpl; try done; compare_cases; simpl; intros; subst; try done; lia.
Qed.

Lemma fleb_nan_l (y : float) : fleb fnan y = false.
Proof. by destruct y. Qed.

Lemma fleb_nan_r (x : float) : fleb x fnan = false.
Proof. by destruct x as [[]|[]| |[] mx ex]. Qed.

Lemma is_nan_true (x : float) : is_nan x = true -> x = fnan.
Proof. by destruct x. Qed.

Lemma np_below_refl (x : float) : np_below x x = true.
Proof.
  unfold np_below. destruct (is_nan x) eqn:Hx; [done|]. simpl.
  destruct (fleb x x) eqn:E; [done|]. by rewrite (fleb_total x x) in E.
Qed.

Lemma np_below_finite (y m : float) :
  is_nan m = false -> np_below y m = true -> is_nan y = false /\ fleb y m = true.
Proof.
  unfold np_below. intros ->. simpl. by destruct (is_nan y).
Qed.

(** *** [np.argmax] returns the first maximum *)

Lemma argmax_scan_spec (ip pre : list float) (mp : float) (max_ind : nat) :
  pre !! max_ind = Some mp ->
  (forall j y, pre !! j = Some y -> np_below y mp = true) ->
  (forall j y, (j < max_ind)%nat -> pre !! j = Some y -> np_below mp y = false) ->
  exists x, (pre ++ ip) !! argmax_scan mp max_ind (length pre) ip = Some x /\
    (forall j y, (pre ++ ip) !! j = Some y -> np_below y x = true) /\
    (forall j y, (j < argmax_scan mp max_ind (length pre) ip)%nat ->
       (pre ++ ip) !! j = Some y -> np_below x y = false).
Proof.
  revert pre mp max_ind.
  induction ip as [|x ip IH]; intros pre mp max_ind Hm Hall Hstrict.
  - rewrite app_nil_r. exists mp.
    assert (argmax_scan mp max_ind (length pre) [] = max_ind) as ->
      by (simpl; by destruct (is_nan mp)).
    done.
  - simpl. destruct (is_nan mp) eqn:Hnan.
    + exists mp. split; [by apply lookup_app_l_Some|].
      apply is_nan_true in Hnan as ->. split.
      * intros j y _. unfold np_below. done.
      * intros j y Hj Hy. apply (Hstrict j y Hj).
        rewrite lookup_app_l in Hy; [done|].
        apply lookup_lt_Some in Hm. lia.
    + assert (Hpre : forall j y, pre !! j = Some y ->
                is_nan y = false /\ fleb y mp = true).
      { intros j y Hy. apply np_below_finite; eauto. }
      assert (Hlen : length (pre ++ [x]) = S (length pre))
        by (rewrite length_app; simpl; lia).
      destruct (fleb x mp) eqn:Hle; simpl.
      * specialize (IH (pre ++ [x]) mp max_ind).
        rewrite Hlen, <- app_assoc in IH. simpl in IH. apply IH.
        -- by apply lookup_app_l_Some.
        -- intros j y Hy. apply lookup_app_Some in Hy as [Hy|[_ Hy]]; [eauto|].
           apply list_lookup_singleton_Some in Hy as [_ <-].
           unfold np_below. rewrite Hnan, Hle. simpl.
           destruct (is_nan x) eqn:Hx; [|done].
           apply is_nan_true in Hx as ->. by rewrite fleb_nan_l in Hle.
        -- intros j y Hj Hy. apply (Hstrict j y Hj).
           rewrite lookup_app_l in Hy; [done|].
           apply lookup_lt_Some in Hm. lia.
      * specialize (IH (pre ++ [x]) x (length pre)).
        rewrite Hlen, <- app_assoc in IH. simpl in IH. apply IH.
        -- rewrite lookup_app_r by lia. by rewrite Nat.sub_diag.
        -- intros j y Hy. apply lookup_app_Some in Hy as [Hy|[_ Hy]].
           ++ destruct (Hpre j y Hy) as [Hy1 Hy2].
              unfold np_below. rewrite Hy1. simpl.
              destruct (is_nan x) eqn:Hx; [done|]. simpl.
              eapply fleb_trans; [exact Hy2|]. by apply fleb_total.
           ++ apply list_lookup_singleton_Some in Hy as [_ <-].
              apply np_below_refl.
        -- intros j y Hj Hy. rewrite lookup_app_l in Hy by lia.
           destruct (Hpre j y Hy) as [Hy1 Hy2].
           unfold np_below. rewrite Hy1. simpl.
           destruct (is_nan x) eqn:Hx; [done|]. simpl.
           destruct (fleb x y) eqn:Hxy; [|done].
           by rewrite (fleb_trans x y mp Hxy Hy2) in Hle.
Qed.

Lemma np_argmax_spec (xs : list float) (m : nat) :
  np_argmax xs = Ok m ->
  exists x, xs !! m = Some x /\
    (forall j y, xs !! j = Some y -> np_below y x = true) /\
    (forall j y, (j < m)%nat -> xs !! j = Some y -> np_below x y = false).
Proof.
  destruct xs as [|x xs]; [done|]. simpl. intros [= <-].
  apply (argmax_scan_spec xs [x] x 0%nat).
  - done.
  - intros [|j] y; [|done]. intros [= <-]. apply np_below_refl.
  - intros j y Hj. lia.
Qed.

Lemma np_argmax_total (xs : list float) :
  xs <> [] -> exists m, np_argmax xs = Ok m.
Proof. destruct xs; [done|]. intros _. by eexists. Qed.

Section Properties.

Context {State Key Input : Type} `{Countable Key}.
Variable State_next : State -> nat -> State.
Variable State_key : State -> Key.
Variable State_done : State -> bool.
Variable State_input_array : State -> Input.
Context {Ext : Type}.
Variable dirichlet : list float -> Ext -> list float * Ext.
Variable np_power : list float -> float -> list float.
Variable np_sum : list float -> float.

Local Abbreviation world := (@world State Key Input _ _ Ext).
Local Abbreviation MCTSNode := (@MCTSNode State).
Local Abbreviation M := (@M State Key Input _ _ Ext).
Local Abbreviation call_dirichlet := (call_dirichlet dirichlet).
Local Abbreviation MCTSNode_init := (MCTSNode_init State_done State_input_array).
Local Abbreviation child := (child State_next State_key State_done State_input_array).
Local Abbreviation select_leaf_and_update :=
  (select_leaf_and_update State_next State_key State_done State_input_array).
Local Abbreviation action_probabilities := (action_probabilities np_power np_sum).
Local Abbreviation noised_priors := (noised_priors State_input_array dirichlet).
Local Abbreviation assign_root_priors := (assign_root_priors State_input_array dirichlet).
Local Abbreviation MCTSAgent_init_body :=
  (MCTSAgent_init_body State_done State_input_array dirichlet).
Local Abbreviation search_step :=
  (search_step State_next State_key State_done State_input_array).
Local Abbreviation search := (search State_next State_key State_done State_input_array).
Local Abbreviation agent_action_probabilities := (agent_action_probabilities np_power np_sum).
Local Abbreviation advance_to_action :=
  (advance_to_action State_next State_key State_done State_input_array dirichlet).
Local Abbreviation advance_to_best_child :=
  (advance_to_best_child State_next State_key State_done State_input_array dirichlet).
Local Abbreviation stats := (stats State_input_array).
Local Abbreviation MCTSAgent_init := (MCTSAgent_init State_done State_input_array dirichlet).
Local Abbreviation links_agree := (links_agree State_next State_key).
Local Abbreviation store_invariant := (store_invariant State_next State_key).
Local Abbreviation reachable :=
  (reachable State_next State_key State_done State_input_array dirichlet).

(** *** Running a computation step by step *)

Lemma bind_Ok {A B : Type} (m : M A) (k : A -> M B) (w w' : world) (b : B) :
  bind m k w = Ok (b, w') <->
  exists a w1, m w = Ok (a, w1) /\ k a w1 = Ok (b, w').
Proof.
  unfold bind. split.
  - destruct (m w) as [[a w1]|]; [|done]. intros Hk. by exists a, w1.
  - intros (a & w1 & -> & Hk). done.
Qed.

Lemma ret_Ok {A : Type} (a b : A) (w w' : world) :
  ret a w = Ok (b, w') <-> b = a /\ w' = w.
Proof. unfold ret. split; [by intros [= -> ->]|by intros [-> ->]]. Qed.

Lemma lift_Ok {A : Type} (r : result A) (b : A) (w w' : world) :
  lift r w = Ok (b, w') <-> r = Ok b /\ w' = w.
Proof.
  unfold lift. destruct r; split; try done.
  - by intros [= -> ->].
  - by intros [[= ->] ->].
  - by intros [? _].
Qed.

Lemma get_world_Ok (w w' w1 : world) :
  get_world w = Ok (w1, w') <-> w1 = w /\ w' = w.
Proof. unfold get_world. split; [by intros [= -> ->]|by intros [-> ->]]. Qed.

Lemma modify_Ok (f : world -> world) (u : unit) (w w' : world) :
  modify f w = Ok (u, w') <-> w' = f w.
Proof. unfold modify. destruct u. split; [by intros [= ->]|by intros ->]. Qed.

Lemma get_node_Ok (r : ref) (n : MCTSNode) (w w' : world) :
  get_node r w = Ok (n, w') <-> heap w !! r = Some n /\ w' = w.
Proof.
  unfold get_node. destruct (heap w !! r); split; try done.
  - by intros [= -> ->].
  - by intros [[= ->] ->].
  - by intros [? _].
Qed.

Lemma index_Ok {A : Type} (l : list A) (i : nat) (x : A) (w w' : world) :
  index l i w = Ok (x, w') <-> l !! i = Some x /\ w' = w.
Proof.
  unfold index. destruct (l !! i); split; try done.
  - by intros [= -> ->].
  - by intros [[= ->] ->].
  - by intros [? _].
Qed.

Lemma get_attrs_Ok (s : string) (r : ref) (a : NodeAttrs) (w w' : world) :
  get_attrs s r w = Ok (a, w') <->
  (exists n, heap w !! r = Some n /\ attrs n = Some a) /\ w' = w.
Proof.
  unfold get_attrs. rewrite bind_Ok. split.
  - intros (n & w1 & Hn%get_node_Ok & Ha). destruct Hn as [Hn ->].
    destruct (attrs n) eqn:E; [|done]. apply ret_Ok in Ha as [-> ->]. eauto.
  - intros [(n & Hn & Ha) ->]. exists n, w. rewrite get_node_Ok, Ha. done.
Qed.

Lemma put_node_Ok (r : ref) (n : MCTSNode) (u : unit) (w w' : world) :
  put_node r n w = Ok (u, w') <-> w' = set_heap (<[r := n]> (heap w)) w.
Proof. unfold put_node. by rewrite modify_Ok. Qed.

Lemma put_attrs_Ok (r : ref) (a : NodeAttrs) (u : unit) (w w' : world) :
  put_attrs r a w = Ok (u, w') <->
  exists n, heap w !! r = Some n /\
            w' = set_heap (<[r := set_attrs a n]> (heap w)) w.
Proof.
  unfold put_attrs. rewrite bind_Ok. split.
  - intros (n & w1 & [Hn ->]%get_node_Ok & Hp%put_node_Ok). eauto.
  - intros (n & Hn & ->). exists n, w. by rewrite get_node_Ok, put_node_Ok.
Qed.

Lemma get_prior_probabilities_Ok (r : ref) (p : list float) (w w' : world) :
  get_prior_probabilities r w = Ok (p, w') <->
  (exists n, heap w !! r = Some n /\ prior_probabilities n = Some p) /\ w' = w.
Proof.
  unfold get_prior_probabilities. rewrite bind_Ok. split.
  - intros (n & w1 & [Hn ->]%get_node_Ok & Ha).
    destruct (prior_probabilities n) eqn:E; [|done].
    apply ret_Ok in Ha as [-> ->]. eauto.
  - intros [(n & Hn & Ha) ->]. exists n, w. rewrite get_node_Ok, Ha. done.
Qed.

Lemma get_initial_node_Ok (r : ref) (w w' : world) :
  get_initial_node w = Ok (r, w') <-> initial_node (agent w) = Some r /\ w' = w.
Proof.
  unfold get_initial_node. rewrite bind_Ok. split.
  - intros (w0 & w1 & [-> ->]%get_world_Ok & Hr).
    destruct (initial_node (agent w)); [|done].
    by apply ret_Ok in Hr as [-> ->].
  - intros [Hr ->]. exists w, w. rewrite get_world_Ok, Hr. done.
Qed.

(** *** The constructor cannot resolve [rotationally_randomize] *)

(** C1: constructing an agent always fails.  The first statement of
    [MCTSAgent.__init__] looks up the name [rotationally_randomize], which
    the module neither defines nor imports, so for every policy/value
    callable, initial state and other argument the constructor raises
    [NameError] and returns no agent on which [search], [stats] or an
    advance could be called. *)
Theorem MCTSAgent_init_raises_NameError
    (mpv : @Oracle Input Ext) (s : State) (md : nat) (table : gmap Key ref)
    (cp g : float) (h : list MCTSNode) (e : Ext) :
  MCTSAgent_init module_globals mpv s md table cp g h e
    = Raise (NameError "rotationally_randomize") /\
  forall w, MCTSAgent_init module_globals mpv s md table cp g h e <> Ok w.
Proof.
  assert (E : MCTSAgent_init module_globals mpv s md table cp g h e
              = Raise (NameError "rotationally_randomize")) by reflexivity.
  split; [exact E|]. intros w. by rewrite E.
Qed.

(** *** The depth limit *)

(** C10: with depth budget 0, a call on a non-terminal node that is no
    longer a leaf returns the constant [max_depth_value], which is [0.0],
    and leaves the whole store as it was: no statistics change, no child is
    created, nothing is backed up. *)
Theorem select_leaf_and_update_depth_zero
    (self : ref) (n : MCTSNode) (a : NodeAttrs) (w : world) :
  heap w !! self = Some n ->
  terminal n = false ->
  attrs n = Some a ->
  is_leaf_node a = false ->
  select_leaf_and_update 0 self w = Ok (max_depth_value, w) /\
  max_depth_value = S754_zero false.
Proof.
  intros Hn Ht Ha Hl. split; [|reflexivity].
  simpl. unfold bind at 1. rewrite (proj2 (get_node_Ok self n w w)) by done.
  rewrite Ht. unfold bind.
  rewrite (proj2 (get_attrs_Ok "is_leaf_node" self a w w)) by eauto.
  by rewrite Hl.
Qed.

(** *** What each method does to the store *)

Lemma call_model_policy_value_Ok (x : Input) (pv : list float * float) (w w' : world) :
  call_model_policy_value x w = Ok (pv, w') <->
  exists e, model_policy_value (agent w) x (ext w) = (pv, e) /\
            w' = set_oracle_calls (S (oracle_calls w)) (set_ext e w).
Proof.
  unfold call_model_policy_value.
  destruct (model_policy_value (agent w) x (ext w)) as [pv' e]. split.
  - intros [= -> <-]. eauto.
  - intros (e' & Heq & Hw). subst w'. by injection Heq as -> ->.
Qed.

Lemma call_dirichlet_Ok (alpha d : list float) (w w' : world) :
  call_dirichlet alpha w = Ok (d, w') <->
  exists e, dirichlet alpha (ext w) = (d, e) /\ w' = set_ext e w.
Proof.
  unfold call_dirichlet.
  destruct (dirichlet alpha (ext w)) as [d' e]. split.
  - intros [= -> <-]. eauto.
  - intros (e' & Heq & Hw). subst w'. by injection Heq as -> ->.
Qed.

Lemma alloc_Ok (n : MCTSNode) (r : ref) (w w' : world) :
  alloc n w = Ok (r, w') <-> r = length (heap w) /\ w' = set_heap (heap w ++ [n]) w.
Proof. unfold alloc. split; [by intros [= <- <-]|by intros [-> ->]]. Qed.

Ltac minv :=
  repeat match goal with
         | H : bind _ _ _ = Ok _ |- _ => apply bind_Ok in H as (? & ? & ? & H)
         | H : ret _ _ = Ok _ |- _ => apply ret_Ok in H as [? ?]; subst
         | H : lift _ _ = Ok _ |- _ => apply lift_Ok in H as [H ?]; subst
         | H : get_world _ = Ok _ |- _ => apply get_world_Ok in H as [? ?]; subst
         | H : modify _ _ = Ok _ |- _ => apply modify_Ok in H; subst
         | H : get_node _ _ = Ok _ |- _ => apply get_node_Ok in H as [H ?]; subst
         | H : index _ _ _ = Ok _ |- _ => apply index_Ok in H as [H ?]; subst
         | H : get_attrs _ _ _ = Ok _ |- _ =>
             apply get_attrs_Ok in H as [(? & H & ?) ?]; subst
         | H : put_attrs _ _ _ = Ok _ |- _ =>
             apply put_attrs_Ok in H as (? & H & ?); subst
         | H : get_prior_probabilities _ _ = Ok _ |- _ =>
             apply get_prior_probabilities_Ok in H as [(? & H & ?) ?]; subst
         | H : get_initial_node _ = Ok _ |- _ =>
             apply get_initial_node_Ok in H as [H ?]; subst
         | H : call_model_policy_value _ _ = Ok _ |- _ =>
             apply call_model_policy_value_Ok in H as (? & H & ?); subst
         | H : call_dirichlet _ _ = Ok _ |- _ =>
             apply call_dirichlet_Ok in H as (? & H & ?); subst
         | H : alloc _ _ = Ok _ |- _ => apply alloc_Ok in H as [? ?]; subst
         end.

Lemma MCTSNode_init_Ok (st : State) (r : ref) (w w' : world) :
  MCTSNode_init st w = Ok (r, w') ->
  r = length (heap w) /\ agent w' = agent w /\ terminal_log w' = terminal_log w /\
  exists node, heap w' = heap w ++ [node] /\ state node = st /\
    terminal node = State_done st /\
    ((State_done st = true /\ prior_probabilities node = None /\ attrs node = None /\
      oracle_calls w' = oracle_calls w /\ ext w' = ext w) \/
     (State_done st = false /\
      exists pv e, model_policy_value (agent w) (State_input_array st) (ext w) = (pv, e) /\
        prior_probabilities node = Some (fst pv) /\
        attrs node = Some (mkNodeAttrs (agent_c_puct (agent w)) true (snd pv) 0
                             (replicate action_count 0)
                             (replicate action_count fzero)
                             (replicate action_count fzero)
                             (replicate action_count None)) /\
        oracle_calls w' = S (oracle_calls w) /\ ext w' = e)).
Proof.
  unfold MCTSNode_init. destruct (State_done st) eqn:Hd.
  - intros [-> ->]%alloc_Ok. repeat split.
    eexists. repeat split; [done..|]. left. done.
  - intros Hm. minv. repeat split.
    eexists. repeat split; [done..|]. right. split; [done|]. eauto 10.
Qed.

Lemma child_existing (self : ref) (action : nat) (c : ref)
    (n : MCTSNode) (a : NodeAttrs) (w : world) :
  heap w !! self = Some n -> attrs n = Some a ->
  children a !! action = Some (Some c) ->
  child self action w = Ok (c, w).
Proof.
  intros Hn Ha Hc. unfold child, bind.
  rewrite (proj2 (get_attrs_Ok "children" self a w w)) by eauto.
  by rewrite (proj2 (index_Ok (children a) action (Some c) w w)).
Qed.

Lemma child_Ok (self : ref) (action : nat) (c : ref) (w w' : world) :
  child self action w = Ok (c, w') ->
  exists n a, heap w !! self = Some n /\ attrs n = Some a /\
    let key := State_key (State_next (state n) action) in
    let linked := set_attrs (set_children (<[action := Some c]> (children a)) a) n in
    ((children a !! action = Some (Some c) /\ w' = w) \/
     (children a !! action = Some None /\
      transposition_table (agent w) !! key = Some c /\
      w' = set_heap (<[self := linked]> (heap w)) w) \/
     (children a !! action = Some None /\
      transposition_table (agent w) !! key = None /\
      exists w1, MCTSNode_init (State_next (state n) action) w = Ok (c, w1) /\
        w' = set_agent
               (set_transposition_table
                  (<[key := c]> (transposition_table (agent w1))) (agent w1))
               (set_heap (<[self := linked]> (heap w1)) w1))).
Proof.
  unfold child. intros Hc.
  apply bind_Ok in Hc as (a & w0 & Ha & Hc).
  apply get_attrs_Ok in Ha as [(n & Hn & Ha) ->].
  apply bind_Ok in Hc as (cn & w0 & Hi & Hc).
  apply index_Ok in Hi as [Hi ->].
  exists n, a. split; [done|]. split; [done|].
  destruct cn as [c0|].
  - apply ret_Ok in Hc as [-> ->]. left. done.
  - apply bind_Ok in Hc as (n' & w0 & Hn' & Hc).
    apply get_node_Ok in Hn' as [Hn' ->].
    rewrite Hn in Hn'. injection Hn' as <-.
    apply bind_Ok in Hc as (w1 & w0 & Hw & Hc).
    apply get_world_Ok in Hw as [-> ->].
    destruct (transposition_table (agent w) !! _) as [node|] eqn:Ht.
    + apply bind_Ok in Hc as (u & w0 & Hp & Hc).
      apply ret_Ok in Hc as [-> ->].
      apply put_attrs_Ok in Hp as (n' & Hn' & ->).
      rewrite Hn in Hn'. injection Hn' as <-. right. left. done.
    + apply bind_Ok in Hc as (c' & w1 & Hinit & Hc).
      apply bind_Ok in Hc as (u & w2 & Hp & Hc).
      apply bind_Ok in Hc as (u' & w3 & Hm & Hc).
      apply ret_Ok in Hc as [-> ->].
      apply modify_Ok in Hm as ->.
      apply put_attrs_Ok in Hp as (n' & Hn' & ->).
      right. right. split; [done|]. split; [done|].
      exists w1. split; [done|].
      apply MCTSNode_init_Ok in Hinit as (-> & _ & _ & node & Hh & _).
      assert (n' = n) as ->; [|done].
      rewrite Hh, lookup_app_l in Hn' by (by eapply lookup_lt_Some).
      pose proof (eq_trans (eq_sym Hn') Hn) as E. by injection E.
Qed.

Lemma select_action_Ok (self : ref) (action : nat) (w w' : world) :
  select_action self w = Ok (action, w') ->
  w' = w /\
  exists n a p ucb scores,
    heap w !! self = Some n /\ attrs n = Some a /\
    prior_probabilities n = Some p /\
    np_binop fdiv
      (map (fmul (fmul (fmul (node_value a) (c_puct a))
                       (fsqrt (Z2F (total_visit_counts a))))) p)
      (map (fun c => Z2F (1 + c)) (visit_counts a)) = Ok ucb /\
    np_binop fadd (mean_action_values a) ucb = Ok scores /\
    np_argmax scores = Ok action.
Proof.
  unfold select_action, upper_confidence_bounds. intros Hs.
  apply bind_Ok in Hs as (a & w0 & Ha & Hs).
  apply get_attrs_Ok in Ha as [(n & Hn & Ha) ->].
  apply bind_Ok in Hs as (ucb & w0 & Hu & Hs).
  apply bind_Ok in Hu as (a' & w1 & Ha' & Hu).
  apply get_attrs_Ok in Ha' as [(n' & Hn' & Ha') ->].
  pose proof (eq_trans (eq_sym Hn') Hn) as E. injection E as ->.
  pose proof (eq_trans (eq_sym Ha') Ha) as E. injection E as ->.
  apply bind_Ok in Hu as (p & w1 & Hp & Hu).
  apply get_prior_probabilities_Ok in Hp as [(n' & Hn'' & Hp) ->].
  pose proof (eq_trans (eq_sym Hn'') Hn) as E. injection E as ->.
  apply lift_Ok in Hu as [Hu ->].
  apply bind_Ok in Hs as (scores & w0 & Hsc & Hs).
  apply lift_Ok in Hsc as [Hsc ->].
  apply lift_Ok in Hs as [Hs ->].
  split; [done|]. exists n, a, p, ucb, scores. done.
Qed.

Lemma count_visit_Ok (self : ref) (action : nat) (u : unit) (w w' : world) :
  count_visit self action w = Ok (u, w') <->
  exists n a vc, heap w !! self = Some n /\ attrs n = Some a /\
    visit_counts a !! action = Some vc /\
    w' = set_heap
           (<[self := set_attrs
                (set_visit_counts (<[action := vc + 1]> (visit_counts a))
                   (set_total_visit_counts (total_visit_counts a + 1) a)) n]>
              (heap w)) w.
Proof.
  unfold count_visit. split.
  - intros Hc.
    apply bind_Ok in Hc as (a & w0 & Ha & Hc).
    apply get_attrs_Ok in Ha as [(n & Hn & Ha) ->].
    apply bind_Ok in Hc as (vc & w0 & Hv & Hc).
    apply index_Ok in Hv as [Hv ->].
    apply put_attrs_Ok in Hc as (n' & Hn' & ->).
    pose proof (eq_trans (eq_sym Hn') Hn) as E. injection E as ->.
    exists n, a, vc. done.
  - intros (n & a & vc & Hn & Ha & Hv & ->). unfold bind.
    rewrite (proj2 (get_attrs_Ok "total_visit_counts" self a w w)) by eauto.
    rewrite (proj2 (index_Ok _ action vc w w)) by done.
    destruct u. apply put_attrs_Ok. eauto.
Qed.

Lemma update_edge_Ok (self : ref) (action : nat) (v : float) (u : unit) (w w' : world) :
  update_edge self action v w = Ok (u, w') <->
  exists n a t vc, heap w !! self = Some n /\ attrs n = Some a /\
    total_action_values a !! action = Some t /\
    visit_counts a !! action = Some vc /\
    w' = set_heap
           (<[self := set_attrs
                (set_mean_action_values
                   (<[action := fdiv (fadd t v) (Z2F vc)]> (mean_action_values a))
                   (set_total_action_values
                      (<[action := fadd t v]> (total_action_values a)) a)) n]>
              (heap w)) w.
Proof.
  unfold update_edge. split.
  - intros Hc.
    apply bind_Ok in Hc as (a & w0 & Ha & Hc).
    apply get_attrs_Ok in Ha as [(n & Hn & Ha) ->].
    apply bind_Ok in Hc as (t & w0 & Ht & Hc).
    apply index_Ok in Ht as [Ht ->].
    apply bind_Ok in Hc as (t1 & w0 & Ht1 & Hc).
    apply index_Ok in Ht1 as [Ht1 ->].
    apply bind_Ok in Hc as (vc & w0 & Hv & Hc).
    apply index_Ok in Hv as [Hv ->].
    apply put_attrs_Ok in Hc as (n' & Hn' & ->).
    pose proof (eq_trans (eq_sym Hn') Hn) as E. injection E as ->.
    simpl in Ht1, Hv.
    rewrite list_lookup_insert_eq in Ht1 by (by eapply lookup_lt_Some).
    injection Ht1 as <-.
    exists n, a, t, vc. done.
  - intros (n & a & t & vc & Hn & Ha & Ht & Hv & ->). unfold bind.
    rewrite (proj2 (get_attrs_Ok "total_action_values" self a w w)) by eauto.
    rewrite (proj2 (index_Ok _ action t w w)) by done.
    rewrite (proj2 (index_Ok _ action (fadd t v) w w)).
    2:{ split; [|done]. simpl.
        apply list_lookup_insert_eq. by eapply lookup_lt_Some. }
    rewrite (proj2 (index_Ok _ action vc w w)) by done.
    destruct u. apply put_attrs_Ok. eauto.
Qed.

Lemma record_shortest_path_Ok (budget : nat) (u : unit) (w w' : world) :
  record_shortest_path budget w = Ok (u, w') <->
  exists sp, shortest_path (agent w) = Some sp /\
    let depth := Z.of_nat (max_depth (agent w)) - Z.of_nat budget in
    w' = set_terminal_log (depth :: terminal_log w)
           (if depth <? sp
            then set_agent (set_shortest_path depth (agent w)) w
            else w).
Proof.
  unfold record_shortest_path, bind, get_world, modify, ret. destruct u.
  destruct (shortest_path (agent w)) as [sp|]; [|split; [done|by intros (? & ? & _)]].
  split.
  - intros Hr. exists sp. split; [done|]. simpl.
    destruct (_ <? sp); by injection Hr as <-.
  - intros (sp' & [= <-] & ->). simpl. by destruct (_ <? sp).
Qed.

(** One call of [select_leaf_and_update], case by case. *)
Lemma select_leaf_and_update_Ok (budget : nat) (self : ref) (v : float) (w w' : world) :
  select_leaf_and_update budget self w = Ok (v, w') ->
  exists n, heap w !! self = Some n /\
    ((terminal n = true /\ v = fone /\ record_shortest_path budget w = Ok (tt, w')) \/
     (terminal n = false /\ exists a, attrs n = Some a /\
        ((is_leaf_node a = true /\ v = node_value a /\
          w' = set_heap (<[self := set_attrs (set_is_leaf_node false a) n]> (heap w)) w) \/
         (is_leaf_node a = false /\ budget = 0%nat /\ v = max_depth_value /\ w' = w) \/
         (is_leaf_node a = false /\
          exists budget' action w1 c w2 vc w3,
            budget = S budget' /\
            select_action self w = Ok (action, w) /\
            count_visit self action w = Ok (tt, w1) /\
            child self action w1 = Ok (c, w2) /\
            select_leaf_and_update budget' c w2 = Ok (vc, w3) /\
            v = fmul (gamma (agent w1)) vc /\
            update_edge self action v w3 = Ok (tt, w'))))).
Proof.
  intros Hs.
  assert (Hs' : bind (get_node self) (fun n =>
            if terminal n then bind (record_shortest_path budget) (fun _ => ret fone)
            else bind (get_attrs "is_leaf_node" self) (fun a =>
              if is_leaf_node a
              then bind (put_attrs self (set_is_leaf_node false a))
                        (fun _ => ret (node_value a))
              else match budget with
                   | O => ret max_depth_value
                   | S budget' =>
                       bind (select_action self) (fun action =>
                       bind (count_visit self action) (fun _ =>
                       bind get_world (fun w =>
                       bind (child self action) (fun c =>
                       bind (select_leaf_and_update budget' c) (fun v =>
                       bind (update_edge self action (fmul (gamma (agent w)) v))
                            (fun _ => ret (fmul (gamma (agent w)) v)))))))
                   end)) w = Ok (v, w'))
    by (destruct budget; exact Hs).
  clear Hs. rename Hs' into Hs.
  apply bind_Ok in Hs as (n & w0 & Hn & Hs).
  apply get_node_Ok in Hn as [Hn ->]. exists n. split; [done|].
  destruct (terminal n) eqn:Ht.
  - left. apply bind_Ok in Hs as ([] & w0 & Hr & Hs).
    apply ret_Ok in Hs as [-> ->]. done.
  - right. split; [done|].
    apply bind_Ok in Hs as (a & w0 & Ha & Hs).
    apply get_attrs_Ok in Ha as [(n' & Hn' & Ha) ->].
    pose proof (eq_trans (eq_sym Hn') Hn) as E. injection E as ->.
    exists a. split; [done|].
    destruct (is_leaf_node a) eqn:Hl.
    + left. apply bind_Ok in Hs as (u & w0 & Hp & Hs).
      apply ret_Ok in Hs as [-> ->].
      apply put_attrs_Ok in Hp as (n' & Hn'' & ->).
      pose proof (eq_trans (eq_sym Hn'') Hn) as E. injection E as ->. done.
    + right. destruct budget as [|budget'].
      * left. apply ret_Ok in Hs as [-> ->]. done.
      * right. split; [done|].
        apply bind_Ok in Hs as (action & w0 & Hsel & Hs).
        pose proof (select_action_Ok _ _ _ _ Hsel) as [-> _].
        apply bind_Ok in Hs as ([] & w1 & Hcv & Hs).
        apply bind_Ok in Hs as (w1' & w0 & Hw & Hs).
        apply get_world_Ok in Hw as [-> ->].
        apply bind_Ok in Hs as (c & w2 & Hc & Hs).
        apply bind_Ok in Hs as (vc & w3 & Hrec & Hs).
        apply bind_Ok in Hs as ([] & w4 & Hup & Hs).
        apply ret_Ok in Hs as [-> ->].
        exists budget', action, w1, c, w2, vc, w3. done.
Qed.

(** *** What a simulation leaves alone *)

Lemma agent_frame_refl (w : world) : agent_frame w w.
Proof. by repeat split. Qed.

Lemma agent_frame_trans (w1 w2 w3 : world) :
  agent_frame w1 w2 -> agent_frame w2 w3 -> agent_frame w1 w3.
Proof.
  unfold agent_frame. intros (?&?&?&?&?&?&?&?) (?&?&?&?&?&?&?&?).
  repeat split; congruence.
Qed.

Lemma agent_frame_set_heap (h : list MCTSNode) (w : world) :
  agent_frame w (set_heap h w).
Proof. by repeat split. Qed.

Lemma count_visit_frame (self : ref) (action : nat) (u : unit) (w w' : world) :
  count_visit self action w = Ok (u, w') -> agent_frame w w'.
Proof.
  intros (n & a & vc & _ & _ & _ & ->)%count_visit_Ok. apply agent_frame_set_heap.
Qed.

Lemma update_edge_frame (self : ref) (action : nat) (v : float) (u : unit) (w w' : world) :
  update_edge self action v w = Ok (u, w') -> agent_frame w w'.
Proof.
  intros (n & a & t & vc & _ & _ & _ & _ & ->)%update_edge_Ok.
  apply agent_frame_set_heap.
Qed.

Lemma child_frame (self : ref) (action : nat) (c : ref) (w w' : world) :
  child self action w = Ok (c, w') -> agent_frame w w'.
Proof.
  intros (n & a & _ & _ & Hcases)%child_Ok. simpl in Hcases.
  destruct Hcases as [[_ ->]|[(_ & _ & ->)|(_ & _ & w1 & Hinit & ->)]].
  - apply agent_frame_refl.
  - apply agent_frame_set_heap.
  - apply MCTSNode_init_Ok in Hinit as (_ & Hag & Hlog & _).
    unfold agent_frame. simpl. rewrite Hag, Hlog. by repeat split.
Qed.

Lemma select_leaf_and_update_config (budget : nat) (self : ref) (v : float) (w w' : world) :
  select_leaf_and_update budget self w = Ok (v, w') ->
  model_policy_value (agent w') = model_policy_value (agent w) /\
  max_depth (agent w') = max_depth (agent w) /\
  total_steps (agent w') = total_steps (agent w) /\
  agent_c_puct (agent w') = agent_c_puct (agent w) /\
  gamma (agent w') = gamma (agent w) /\
  initial_node (agent w') = initial_node (agent w).
Proof.
  revert self v w w'. induction budget as [|budget IH]; intros self v w w' Hs;
    apply select_leaf_and_update_Ok in Hs as (n & Hn & Hcases);
    destruct Hcases as [(_ & _ & Hr)|(_ & a & _ & [(_ & _ & ->)|[(_ & _ & _ & ->)|
      (_ & b' & action & w1 & c & w2 & vc & w3 & Hb & _ & Hcv & Hc & Hrec & _ & Hup)]])];
    try done;
    try (apply record_shortest_path_Ok in Hr as (sp & _ & ->); simpl;
         by destruct (_ <? sp)).
  injection Hb as <-.
  apply count_visit_frame in Hcv as (?&?&?&?&?&?&_).
  apply child_frame in Hc as (?&?&?&?&?&?&_).
  apply IH in Hrec as (?&?&?&?&?&?).
  apply update_edge_frame in Hup as (?&?&?&?&?&?&_).
  repeat split; congruence.
Qed.

Lemma select_leaf_and_update_log (budget : nat) (self : ref) (v : float) (w w' : world) :
  select_leaf_and_update budget self w = Ok (v, w') ->
  log_consistent w -> log_consistent w'.
Proof.
  revert self v w w'. induction budget as [|budget IH]; intros self v w w' Hs Hlog;
    apply select_leaf_and_update_Ok in Hs as (n & Hn & Hcases);
    destruct Hcases as [(_ & _ & Hr)|(_ & a & _ & [(_ & _ & ->)|[(_ & _ & _ & ->)|
      (_ & b' & action & w1 & c & w2 & vc & w3 & Hb & _ & Hcv & Hc & Hrec & _ & Hup)]])];
    try done.
  1,2: apply record_shortest_path_Ok in Hr as (sp & Hsp & ->);
       destruct Hlog as [Hmin Hall]; rewrite Hsp in Hmin; injection Hmin as ->;
       unfold log_consistent, min_depth in *; simpl;
       match goal with |- context [?x <? ?y] => destruct (Z.ltb_spec x y) end; simpl;
       rewrite ?Hsp; (split; [f_equal; lia | constructor; [lia|done]]).
  injection Hb as <-.
  assert (Hkeep : forall w1 w2 : world, agent_frame w1 w2 ->
            log_consistent w1 -> log_consistent w2).
  { unfold agent_frame, log_consistent.
    intros ? ? (_&Hmd&_&_&_&_&Hsp&Hl). by rewrite Hmd, Hsp, Hl. }
  apply count_visit_frame in Hcv. apply child_frame in Hc.
  apply update_edge_frame in Hup.
  eapply Hkeep; [exact Hup|]. eapply IH; [exact Hrec|].
  eapply Hkeep; [exact Hc|]. eapply Hkeep; [exact Hcv|]. done.
Qed.

Lemma search_step_Ok (u : unit) (w w' : world) :
  search_step w = Ok (u, w') ->
  exists r v w1, initial_node (agent w) = Some r /\
    select_leaf_and_update (max_depth (agent w)) r w = Ok (v, w1) /\
    w' = set_agent (set_total_steps (S (total_steps (agent w1))) (agent w1)) w1.
Proof.
  unfold search_step. intros Hs.
  apply bind_Ok in Hs as (r & w0 & Hr & Hs).
  apply get_initial_node_Ok in Hr as [Hr ->].
  apply bind_Ok in Hs as (w1 & w0 & Hw & Hs).
  apply get_world_Ok in Hw as [-> ->].
  apply bind_Ok in Hs as (v & w1 & Hsim & Hs).
  apply modify_Ok in Hs as ->. by exists r, v, w1.
Qed.

(** A property of stores that every simulation keeps and that does not
    look at [total_steps] is kept by [search]. *)
Lemma search_preserves (P : world -> Prop) :
  (forall budget self v w w',
     select_leaf_and_update budget self w = Ok (v, w') -> P w -> P w') ->
  (forall w k, P w -> P (set_agent (set_total_steps k (agent w)) w)) ->
  forall steps w w', search steps w = Ok (tt, w') -> P w -> P w'.
Proof.
  intros Hsim Hsteps. induction steps as [|steps IH]; intros w w' Hs HP.
  - apply ret_Ok in Hs as [_ ->]. done.
  - simpl in Hs. apply bind_Ok in Hs as (u & w1 & Hstep & Hs).
    apply search_step_Ok in Hstep as (r & v & w2 & _ & Hsim' & ->).
    eapply IH; [exact Hs|]. apply Hsteps. eapply Hsim; eauto.
Qed.

Lemma search_log (steps : nat) (w w' : world) :
  search steps w = Ok (tt, w') -> log_consistent w -> log_consistent w'.
Proof.
  apply (search_preserves log_consistent).
  - intros. by eapply select_leaf_and_update_log.
  - intros ? ? Hl. exact Hl.
Qed.

Lemma min_depth_logged (md : nat) (log : list Z) :
  Forall (fun d => d <= Z.of_nat md) log ->
  (if min_depth md log <=? Z.of_nat md then min_depth md log else -1) =
  match log with
  | [] => -1
  | d :: log' => foldr Z.min d log'
  end.
Proof.
  unfold min_depth. destruct log as [|d log].
  - intros _. simpl. destruct (Z.leb_spec (Z.of_nat md + 1) (Z.of_nat md)); [lia|done].
  - intros Hall. apply Forall_cons in Hall as [Hd Hall].
    assert (E : foldr Z.min (Z.of_nat md + 1) (d :: log) = foldr Z.min d log).
    { clear Hall. simpl. revert d Hd. induction log as [|x log IH]; intros d Hd.
      - simpl. lia.
      - simpl. specialize (IH d Hd). lia. }
    rewrite E.
    assert (foldr Z.min d log <= d).
    { clear. induction log as [|x log IH]; simpl; lia. }
    destruct (Z.leb_spec (foldr Z.min d log) (Z.of_nat md)); [done|lia].
Qed.

(** *** The shortest-path statistic *)

(** C7: a call of [select_leaf_and_update] on a terminal node returns 1.0
    and records [max_depth - budget] into [shortest_path], keeping the
    minimum; since the last reset, [shortest_path] is the least depth at
    which a simulation met a terminal node, and [stats('shortest_path')]
    returns that least depth, or -1 when no simulation met one. *)
Theorem shortest_path_statistic
    (budget : nat) (self : ref) (n : MCTSNode) (sp : Z) (w : world)
    (steps : nat) (w0 w0' : world) :
  (heap w !! self = Some n -> terminal n = true ->
   shortest_path (agent w) = Some sp ->
   let depth := Z.of_nat (max_depth (agent w)) - Z.of_nat budget in
   select_leaf_and_update budget self w
     = Ok (fone,
           set_terminal_log (depth :: terminal_log w)
             (set_agent (set_shortest_path (Z.min sp depth) (agent w)) w)) /\
   fone = S754_finite false 4503599627370496 (-52)) /\
  (log_consistent w0 -> search steps w0 = Ok (tt, w0') ->
   log_consistent w0' /\
   stats "shortest_path" w0'
     = Ok (StatInt match terminal_log w0' with
                   | [] => -1
                   | d :: log => foldr Z.min d log
                   end, w0')).
Proof.
  split.
  - intros Hn Ht Hsp depth. split; [|reflexivity].
    assert (E : select_leaf_and_update budget self w =
                bind (record_shortest_path budget) (fun _ => ret fone) w).
    { destruct budget; simpl; unfold bind at 1;
        rewrite (proj2 (get_node_Ok self n w w)) by done; by rewrite Ht. }
    rewrite E. unfold bind.
    rewrite (proj2 (record_shortest_path_Ok budget tt w
               (set_terminal_log (depth :: terminal_log w)
                  (if depth <? sp
                   then set_agent (set_shortest_path depth (agent w)) w
                   else w)))) by (by exists sp).
    unfold ret. f_equal. f_equal. f_equal.
    destruct (Z.ltb_spec depth sp).
    + by rewrite Z.min_r by lia.
    + rewrite Z.min_l by lia. destruct w as [h ag e oc tl]. simpl in *.
      destruct ag. simpl in *. by subst.
  - intros Hlog Hsearch.
    pose proof (search_log _ _ _ Hsearch Hlog) as Hlog'. split; [done|].
    destruct Hlog' as [Hsp Hall]. unfold stats. simpl.
    unfold bind, get_world. rewrite Hsp. unfold ret.
    by rewrite min_depth_logged.
Qed.

(** *** The statistics invariant *)

Lemma np_sum_int_insert (l : list Z) (i : nat) (x y : Z) :
  l !! i = Some x -> np_sum_int (<[i := y]> l) = np_sum_int l - x + y.
Proof.
  revert i. induction l as [|z l IH]; intros [|i] Hi; try done; simpl in *.
  - injection Hi as ->. lia.
  - rewrite (IH i Hi). lia.
Qed.

Lemma np_sum_int_zeros (k : nat) : np_sum_int (replicate k 0) = 0.
Proof. induction k as [|k IH]; [done|]. simpl. by rewrite IH. Qed.

Lemma stats_insert (P P' : ref -> nat -> Prop) (h : list MCTSNode) (r : ref) (n' : MCTSNode) :
  stats_consistent_except P h ->
  (forall a', attrs n' = Some a' ->
     attrs_shaped a' /\ total_visit_counts a' = np_sum_int (visit_counts a') /\
     forall i, ~ P' r i -> mean_consistent a' i) ->
  (forall r' i, r' <> r -> ~ P' r' i -> ~ P r' i) ->
  stats_consistent_except P' (<[r := n']> h).
Proof.
  intros Hinv Hnew Hsub r' n a Hn Ha.
  destruct (decide (r' = r)) as [->|Hne].
  - apply list_lookup_insert_Some in Hn as [(_ & <- & _)|[? _]]; [|done].
    by apply Hnew.
  - rewrite list_lookup_insert_ne in Hn by done.
    destruct (Hinv r' n a Hn Ha) as (Hsh & Hsum & Hmean).
    split; [done|]. split; [done|]. intros i Hi. apply Hmean. by apply Hsub.
Qed.

Lemma stats_app (P : ref -> nat -> Prop) (h : list MCTSNode) (node : MCTSNode) :
  stats_consistent_except P h ->
  (forall a, attrs node = Some a ->
     attrs_shaped a /\ total_visit_counts a = np_sum_int (visit_counts a) /\
     forall i, mean_consistent a i) ->
  stats_consistent_except P (h ++ [node]).
Proof.
  intros Hinv Hnew r n a Hn Ha.
  apply lookup_app_Some in Hn as [Hn|[_ Hn]]; [by eapply Hinv|].
  apply list_lookup_singleton_Some in Hn as [_ <-].
  destruct (Hnew a Ha) as (? & ? & ?). auto.
Qed.

Lemma MCTSNode_init_stats (P : ref -> nat -> Prop) (st : State) (r : ref) (w w' : world) :
  MCTSNode_init st w = Ok (r, w') ->
  stats_consistent_except P (heap w) -> stats_consistent_except P (heap w').
Proof.
  intros (_ & _ & _ & node & -> & _ & _ & Hnode)%MCTSNode_init_Ok Hinv.
  apply stats_app; [done|]. intros a Ha.
  destruct Hnode as [(_ & _ & Hno & _)|(_ & pv & e & _ & _ & Hat & _)].
  - by rewrite Hno in Ha.
  - rewrite Hat in Ha. injection Ha as <-. split; [|split].
    + by repeat split.
    + reflexivity.
    + intros i c Hc Hpos.
      change (replicate action_count 0 !! i = Some c) in Hc.
      apply lookup_replicate in Hc as [-> _]. lia.
Qed.

(** Rebinding an attribute that is not a statistic keeps the invariant. *)
Lemma stats_relink (P : ref -> nat -> Prop) (h : list MCTSNode) (r : ref)
    (n : MCTSNode) (a a' : NodeAttrs) :
  h !! r = Some n -> attrs n = Some a ->
  total_visit_counts a' = total_visit_counts a ->
  visit_counts a' = visit_counts a ->
  total_action_values a' = total_action_values a ->
  mean_action_values a' = mean_action_values a ->
  length (children a') = length (children a) ->
  stats_consistent_except P h ->
  stats_consistent_except P (<[r := set_attrs a' n]> h).
Proof.
  intros Hn Ha E1 E2 E3 E4 E5 Hinv.
  apply (stats_insert P P); [done| |done].
  intros a'' [= <-]. destruct (Hinv r n a Hn Ha) as ((?&?&?&?) & Hsum & Hmean).
  split; [|split].
  - unfold attrs_shaped. by rewrite E2, E3, E4, E5.
  - by rewrite E1, E2.
  - intros i Hi. unfold mean_consistent. rewrite E2, E3, E4. by apply Hmean.
Qed.

Lemma child_stats (P : ref -> nat -> Prop) (self : ref) (action : nat) (c : ref)
    (w w' : world) :
  child self action w = Ok (c, w') ->
  stats_consistent_except P (heap w) -> stats_consistent_except P (heap w').
Proof.
  intros (n & a & Hn & Ha & Hcases)%child_Ok Hinv. simpl in Hcases.
  destruct Hcases as [[_ ->]|[(_ & _ & ->)|(_ & _ & w1 & Hinit & ->)]]; [done| |].
  - simpl. eapply stats_relink; try done. simpl. by rewrite length_insert.
  - simpl. pose proof (MCTSNode_init_stats P _ _ _ _ Hinit Hinv) as Hinv1.
    apply MCTSNode_init_Ok in Hinit as (_ & _ & _ & node & Hh & _).
    assert (Hn1 : heap w1 !! self = Some n).
    { rewrite Hh. apply lookup_app_l_Some. done. }
    eapply stats_relink; try done. simpl. by rewrite length_insert.
Qed.

Lemma count_visit_stats (P : ref -> nat -> Prop) (self : ref) (action : nat)
    (u : unit) (w w' : world) :
  count_visit self action w = Ok (u, w') ->
  stats_consistent_except P (heap w) ->
  stats_consistent_except (fun r i => P r i \/ (r = self /\ i = action)) (heap w').
Proof.
  intros (n & a & vc & Hn & Ha & Hvc & ->)%count_visit_Ok Hinv. simpl.
  destruct (Hinv self n a Hn Ha) as ((?&?&?&?) & Hsum & Hmean).
  eapply stats_insert; [exact Hinv| |].
  - intros a' [= <-]. split; [|split]; simpl.
    + unfold attrs_shaped. simpl. by rewrite length_insert.
    + rewrite (np_sum_int_insert _ _ vc) by done. lia.
    + intros i Hi. assert (i <> action) by (intros ->; apply Hi; by right).
      assert (~ P self i) by (intros ?; apply Hi; by left).
      unfold mean_consistent. simpl.
      rewrite list_lookup_insert_ne by done. by apply Hmean.
  - intros r' i _ Hi HP. apply Hi. by left.
Qed.

Lemma update_edge_stats (P : ref -> nat -> Prop) (self : ref) (action : nat)
    (v : float) (u : unit) (w w' : world) :
  update_edge self action v w = Ok (u, w') ->
  stats_consistent_except (fun r i => P r i \/ (r = self /\ i = action)) (heap w) ->
  stats_consistent_except P (heap w').
Proof.
  intros (n & a & t & vc & Hn & Ha & Ht & Hvc & ->)%update_edge_Ok Hinv. simpl.
  destruct (Hinv self n a Hn Ha) as ((?&?&?&?) & Hsum & Hmean).
  eapply stats_insert; [exact Hinv| |].
  - intros a' [= <-]. split; [|split]; simpl.
    + unfold attrs_shaped. simpl. by rewrite !length_insert.
    + done.
    + intros i Hi. unfold mean_consistent. simpl.
      destruct (decide (i = action)) as [->|Hne].
      * intros c Hc Hpos. exists (fadd t v).
        rewrite Hvc in Hc. injection Hc as <-.
        assert (action < action_count)%nat
          by (rewrite <- H0; by eapply lookup_lt_Some).
        rewrite !list_lookup_insert_eq by lia. done.
      * rewrite !list_lookup_insert_ne by done. apply Hmean.
        intros [?|[_ ?]]; done.
  - intros r' i Hne Hi [HP|[? _]]; done.
Qed.

Lemma select_leaf_and_update_stats (budget : nat) (self : ref) (v : float)
    (w w' : world) (P : ref -> nat -> Prop) :
  select_leaf_and_update budget self w = Ok (v, w') ->
  stats_consistent_except P (heap w) -> stats_consistent_except P (heap w').
Proof.
  revert self v w w' P.
  induction budget as [|budget IH]; intros self v w w' P Hs Hinv;
    apply select_leaf_and_update_Ok in Hs as (n & Hn & Hcases);
    destruct Hcases as [(_ & _ & Hr)|(_ & a & Ha & [(_ & _ & ->)|[(_ & _ & _ & ->)|
      (_ & b' & action & w1 & c & w2 & vc & w3 & Hb & _ & Hcv & Hc & Hrec & _ & Hup)]])];
    try done;
    try (apply record_shortest_path_Ok in Hr as (sp & _ & ->); simpl;
         by destruct (_ <? sp));
    try (simpl; by eapply stats_relink).
  injection Hb as <-.
  eapply update_edge_stats; [exact Hup|].
  eapply IH; [exact Hrec|].
  eapply child_stats; [exact Hc|].
  eapply count_visit_stats; [exact Hcv|]. done.
Qed.

(** *** Child links and the transposition table *)

Lemma links_put (w : world) (r : ref) (n : MCTSNode) (a' : NodeAttrs) :
  links_agree w -> heap w !! r = Some n ->
  (forall i c, children a' !! i = Some (Some c) ->
     transposition_table (agent w) !! State_key (State_next (state n) i) = Some c) ->
  links_agree (set_heap (<[r := set_attrs a' n]> (heap w)) w).
Proof.
  intros Hinv Hn Hnew r' n' a i c Hn' Ha Hc. simpl in *.
  destruct (decide (r' = r)) as [->|Hne].
  - apply list_lookup_insert_Some in Hn' as [(_ & <- & _)|[? _]]; [|done].
    simpl in *. injection Ha as <-. by apply Hnew.
  - rewrite list_lookup_insert_ne in Hn' by done. by eapply Hinv.
Qed.

Lemma links_same_children (w : world) (r : ref) (n : MCTSNode) (a a' : NodeAttrs) :
  links_agree w -> heap w !! r = Some n -> attrs n = Some a ->
  children a' = children a ->
  links_agree (set_heap (<[r := set_attrs a' n]> (heap w)) w).
Proof.
  intros Hinv Hn Ha E. apply links_put; [done..|].
  intros i c Hc. rewrite E in Hc. by eapply Hinv.
Qed.

Lemma links_frame (w w' : world) :
  heap w' = heap w ->
  transposition_table (agent w') = transposition_table (agent w) ->
  links_agree w -> links_agree w'.
Proof. unfold links_agree. intros -> ->. done. Qed.

Lemma child_links (self : ref) (action : nat) (c : ref) (w w' : world) :
  child self action w = Ok (c, w') -> links_agree w -> links_agree w'.
Proof.
  intros (n & a & Hn & Ha & Hcases)%child_Ok Hinv. simpl in Hcases.
  destruct Hcases as [[_ ->]|[(Hi & Ht & ->)|(Hi & Ht & w1 & Hinit & ->)]]; [done| |].
  - apply links_put; [done..|]. intros i c' Hc. simpl in Hc.
    destruct (decide (i = action)) as [->|Hne].
    + rewrite list_lookup_insert_eq in Hc by (by eapply lookup_lt_Some).
      by injection Hc as <-.
    + rewrite list_lookup_insert_ne in Hc by done. by eapply Hinv.
  - apply MCTSNode_init_Ok in Hinit as (-> & Hag & _ & node & Hh & Hst & _ & Hnode).
    assert (Hkeep : forall k c',
              transposition_table (agent w) !! k = Some c' ->
              <[State_key (State_next (state n) action) := length (heap w)]>
                (transposition_table (agent w)) !! k = Some c').
    { intros k c' Hk. rewrite lookup_insert_ne; [done|]. intros <-.
      by rewrite Ht in Hk. }
    intros r' n' a' i c' Hn' Ha' Hc'. simpl in *. rewrite Hag.
    destruct (decide (r' = self)) as [->|Hne].
    + apply list_lookup_insert_Some in Hn' as [(_ & <- & _)|[? _]]; [|done].
      simpl in *. injection Ha' as <-. simpl in Hc'.
      destruct (decide (i = action)) as [->|Hne].
      * rewrite list_lookup_insert_eq in Hc' by (by eapply lookup_lt_Some).
        injection Hc' as <-. by rewrite lookup_insert_eq.
      * rewrite list_lookup_insert_ne in Hc' by done.
        apply Hkeep. by eapply Hinv.
    + rewrite list_lookup_insert_ne in Hn' by done. rewrite Hh in Hn'.
      apply lookup_app_Some in Hn' as [Hn'|[_ Hn']].
      * apply Hkeep. by eapply Hinv.
      * apply list_lookup_singleton_Some in Hn' as [_ <-].
        destruct Hnode as [(_ & _ & Hno & _)|(_ & pv & e & _ & _ & Hat & _)].
        -- by rewrite Hno in Ha'.
        -- rewrite Hat in Ha'. injection Ha' as <-.
           change (replicate action_count None !! i = Some (Some c')) in Hc'.
           by apply lookup_replicate in Hc' as [? _].
Qed.

Lemma select_leaf_and_update_links (budget : nat) (self : ref) (v : float) (w w' : world) :
  select_leaf_and_update budget self w = Ok (v, w') ->
  links_agree w -> links_agree w'.
Proof.
  revert self v w w'.
  induction budget as [|budget IH]; intros self v w w' Hs Hinv;
    apply select_leaf_and_update_Ok in Hs as (n & Hn & Hcases);
    destruct Hcases as [(_ & _ & Hr)|(_ & a & Ha & [(_ & _ & ->)|[(_ & _ & _ & ->)|
      (_ & b' & action & w1 & c & w2 & vc & w3 & Hb & _ & Hcv & Hc & Hrec & _ & Hup)]])];
    try done;
    try (apply record_shortest_path_Ok in Hr as (sp & _ & ->); simpl;
         eapply links_frame; [| |exact Hinv]; by destruct (_ <? sp));
    try (by eapply links_same_children).
  injection Hb as <-.
  apply count_visit_Ok in Hcv as (n1 & a1 & vc1 & Hn1 & Ha1 & _ & ->).
  apply update_edge_Ok in Hup as (n3 & a3 & t3 & vc3 & Hn3 & Ha3 & _ & _ & ->).
  eapply links_same_children; [|done..].
  eapply IH; [exact Hrec|].
  eapply child_links; [exact Hc|].
  by eapply links_same_children.
Qed.

(** *** The root: construction, noise and advance *)

Lemma assign_root_priors_Ok (u : unit) (w w' : world) :
  assign_root_priors w = Ok (u, w') <->
  exists r n pv e1 d e2 q,
    initial_node (agent w) = Some r /\ heap w !! r = Some n /\
    model_policy_value (agent w) (State_input_array (state n)) (ext w) = (pv, e1) /\
    dirichlet (replicate action_count f_05) e1 = (d, e2) /\
    np_binop fadd (map (fmul f_075) (fst pv)) (map (fmul f_025) d) = Ok q /\
    w' = mkWorld (<[r := set_prior_probabilities q n]> (heap w)) (agent w) e2
                 (S (oracle_calls w)) (terminal_log w).
Proof.
  unfold assign_root_priors, noised_priors. split.
  - intros Hs.
    apply bind_Ok in Hs as (q & w1 & Hq & Hs).
    apply bind_Ok in Hq as (r & w0 & Hr & Hq).
    apply get_initial_node_Ok in Hr as [Hr ->].
    apply bind_Ok in Hq as (n & w0 & Hn & Hq).
    apply get_node_Ok in Hn as [Hn ->].
    apply bind_Ok in Hq as (pv & w2 & Hpv & Hq).
    apply call_model_policy_value_Ok in Hpv as (e1 & Hpv & ->).
    apply bind_Ok in Hq as (d & w3 & Hd & Hq).
    apply call_dirichlet_Ok in Hd as (e2 & Hd & ->).
    apply lift_Ok in Hq as [Hq ->].
    apply bind_Ok in Hs as (r' & w0 & Hr' & Hs).
    apply get_initial_node_Ok in Hr' as [Hr' ->]. simpl in Hr'.
    pose proof (eq_trans (eq_sym Hr') Hr) as E. injection E as ->.
    apply bind_Ok in Hs as (n' & w0 & Hn' & Hs).
    apply get_node_Ok in Hn' as [Hn' ->]. simpl in Hn'.
    pose proof (eq_trans (eq_sym Hn') Hn) as E. injection E as ->.
    apply put_node_Ok in Hs as ->.
    exists r, n, pv, e1, d, e2, q. done.
  - intros (r & n & pv & e1 & d & e2 & q & Hr & Hn & Hpv & Hd & Hq & ->).
    apply bind_Ok. exists q, (set_ext e2 (set_oracle_calls (S (oracle_calls w)) (set_ext e1 w))).
    split.
    + apply bind_Ok. exists r, w. split; [by apply get_initial_node_Ok|].
      apply bind_Ok. exists n, w. split; [by apply get_node_Ok|].
      apply bind_Ok. exists pv, (set_oracle_calls (S (oracle_calls w)) (set_ext e1 w)).
      split; [apply call_model_policy_value_Ok; by exists e1|].
      apply bind_Ok. eexists d, _.
      split; [apply call_dirichlet_Ok; by exists e2|].
      by apply lift_Ok.
    + apply bind_Ok. eexists r, _. split; [by apply get_initial_node_Ok|].
      apply bind_Ok. eexists n, _. split; [by apply get_node_Ok|].
      by apply put_node_Ok.
Qed.

Lemma assign_root_priors_stats (u : unit) (w w' : world) :
  assign_root_priors w = Ok (u, w') ->
  stats_consistent (heap w) -> stats_consistent (heap w').
Proof.
  intros (r & n & pv & e1 & d & e2 & q & _ & Hn & _ & _ & _ & ->)%assign_root_priors_Ok Hinv.
  simpl. eapply (stats_insert _ _ _ _ _ Hinv); [|done].
  intros a Ha. simpl in Ha. destruct (Hinv r n a Hn Ha) as (? & ? & ?). done.
Qed.

Lemma assign_root_priors_links (u : unit) (w w' : world) :
  assign_root_priors w = Ok (u, w') -> links_agree w -> links_agree w'.
Proof.
  intros (r & n & pv & e1 & d & e2 & q & _ & Hn & _ & _ & _ & ->)%assign_root_priors_Ok Hinv.
  intros r' n' a i c Hn' Ha Hc. simpl in *.
  destruct (decide (r' = r)) as [->|Hne].
  - apply list_lookup_insert_Some in Hn' as [(_ & <- & _)|[? _]]; [|done].
    simpl in *. by eapply Hinv.
  - rewrite list_lookup_insert_ne in Hn' by done. by eapply Hinv.
Qed.

Lemma reset_shortest_path_log (w : world) :
  log_consistent
    (set_terminal_log []
       (set_agent (set_shortest_path (Z.of_nat (max_depth (agent w)) + 1) (agent w)) w)).
Proof. split; [reflexivity|constructor]. Qed.

Lemma MCTSAgent_init_body_Ok (wrapped : @Oracle Input Ext) (s : State) (md : nat)
    (table : gmap Key ref) (cp g : float) (h : list MCTSNode) (e : Ext) (w : world) :
  MCTSAgent_init_body wrapped s md table cp g h e = Ok w <->
  exists root w1 w2,
    MCTSNode_init s (mkWorld h (mkAgent wrapped md 0 table cp g None None) e 0 []) = Ok (root, w1) /\
    assign_root_priors (set_agent (set_initial_node root (agent w1)) w1) = Ok (tt, w2) /\
    w = set_terminal_log []
          (set_agent (set_shortest_path (Z.of_nat (max_depth (agent w2)) + 1) (agent w2)) w2).
Proof.
  unfold MCTSAgent_init_body.
  set (w0 := mkWorld h (mkAgent wrapped md 0 table cp g None None) e 0 []).
  unfold reset_shortest_path. split.
  - destruct (bind _ _ w0) as [[u w']|] eqn:Hb; [|done]. intros [= <-].
    apply bind_Ok in Hb as (root & w1 & Hroot & Hb).
    apply bind_Ok in Hb as ([] & w1' & Hm & Hb).
    apply modify_Ok in Hm as ->.
    apply bind_Ok in Hb as ([] & w2 & Ha & Hb).
    apply modify_Ok in Hb as ->.
    exists root, w1, w2. done.
  - intros (root & w1 & w2 & Hroot & Ha & ->).
    unfold bind at 1. rewrite Hroot. unfold bind at 1. unfold modify at 1.
    unfold bind at 1. rewrite Ha. done.
Qed.

Lemma advance_to_action_Ok (action : nat) (u : unit) (w w' : world) :
  advance_to_action action w = Ok (u, w') <->
  exists r c w1 w2,
    initial_node (agent w) = Some r /\
    child r action w = Ok (c, w1) /\
    assign_root_priors (set_agent (set_initial_node c (agent w1)) w1) = Ok (tt, w2) /\
    w' = set_terminal_log []
           (set_agent (set_shortest_path (Z.of_nat (max_depth (agent w2)) + 1) (agent w2)) w2).
Proof.
  unfold advance_to_action, reset_shortest_path. split.
  - intros Hs.
    apply bind_Ok in Hs as (r & w0 & Hr & Hs).
    apply get_initial_node_Ok in Hr as [Hr ->].
    apply bind_Ok in Hs as (c & w1 & Hc & Hs).
    apply bind_Ok in Hs as ([] & w1' & Hm & Hs).
    apply modify_Ok in Hm as ->.
    apply bind_Ok in Hs as ([] & w2 & Ha & Hs).
    apply modify_Ok in Hs as ->.
    exists r, c, w1, w2. done.
  - intros (r & c & w1 & w2 & Hr & Hc & Ha & ->).
    unfold bind at 1. rewrite (proj2 (get_initial_node_Ok r w w)) by done.
    unfold bind at 1. rewrite Hc. unfold bind at 1. unfold modify at 1.
    unfold bind at 1. rewrite Ha. destruct u. done.
Qed.

Lemma MCTSNode_init_links (st : State) (r : ref) (w w' : world) :
  MCTSNode_init st w = Ok (r, w') -> links_agree w -> links_agree w'.
Proof.
  intros (_ & Hag & _ & node & Hh & _ & _ & Hnode)%MCTSNode_init_Ok Hinv.
  intros r' n' a' i c' Hn' Ha' Hc'. rewrite Hag. rewrite Hh in Hn'.
  apply lookup_app_Some in Hn' as [Hn'|[_ Hn']]; [by eapply Hinv|].
  apply list_lookup_singleton_Some in Hn' as [_ <-].
  destruct Hnode as [(_ & _ & Hno & _)|(_ & pv & e & _ & _ & Hat & _)].
  - by rewrite Hno in Ha'.
  - rewrite Hat in Ha'. injection Ha' as <-.
    change (replicate action_count None !! i = Some (Some c')) in Hc'.
    by apply lookup_replicate in Hc' as [? _].
Qed.

Lemma nodes_have_attrs_insert (h : list MCTSNode) (r : ref) (n n' : MCTSNode) :
  h !! r = Some n -> terminal n' = terminal n ->
  (is_Some (attrs n) -> is_Some (attrs n')) ->
  nodes_have_attrs h -> nodes_have_attrs (<[r := n']> h).
Proof.
  intros Hn Ht Ha Hinv r' m Hm Hterm.
  destruct (decide (r' = r)) as [->|Hne].
  - apply list_lookup_insert_Some in Hm as [(_ & <- & _)|[? _]]; [|done].
    apply Ha. eapply Hinv; [done|]. by rewrite <- Ht.
  - rewrite list_lookup_insert_ne in Hm by done. by eapply Hinv.
Qed.

Lemma MCTSNode_init_attrs (st : State) (r : ref) (w w' : world) :
  MCTSNode_init st w = Ok (r, w') ->
  nodes_have_attrs (heap w) -> nodes_have_attrs (heap w').
Proof.
  intros (_ & _ & _ & node & -> & _ & Ht & Hnode)%MCTSNode_init_Ok Hinv r' m Hm Hterm.
  apply lookup_app_Some in Hm as [Hm|[_ Hm]]; [by eapply Hinv|].
  apply list_lookup_singleton_Some in Hm as [_ <-].
  destruct Hnode as [(Hd & _)|(_ & pv & e & _ & _ & Hat & _)].
  - rewrite Ht, Hd in Hterm. done.
  - by rewrite Hat.
Qed.

Lemma child_attrs (self : ref) (action : nat) (c : ref) (w w' : world) :
  child self action w = Ok (c, w') ->
  nodes_have_attrs (heap w) -> nodes_have_attrs (heap w').
Proof.
  intros (n & a & Hn & Ha & Hcases)%child_Ok Hinv. simpl in Hcases.
  destruct Hcases as [[_ ->]|[(_ & _ & ->)|(_ & _ & w1 & Hinit & ->)]]; [done| |].
  - simpl. by eapply nodes_have_attrs_insert.
  - simpl. pose proof (MCTSNode_init_attrs _ _ _ _ Hinit Hinv) as Hinv1.
    apply MCTSNode_init_Ok in Hinit as (_ & _ & _ & node & Hh & _).
    assert (Hn1 : heap w1 !! self = Some n).
    { rewrite Hh. apply lookup_app_l_Some. done. }
    by eapply nodes_have_attrs_insert.
Qed.

Lemma select_leaf_and_update_attrs (budget : nat) (self : ref) (v : float) (w w' : world) :
  select_leaf_and_update budget self w = Ok (v, w') ->
  nodes_have_attrs (heap w) -> nodes_have_attrs (heap w').
Proof.
  revert self v w w'.
  induction budget as [|budget IH]; intros self v w w' Hs Hinv;
    apply select_leaf_and_update_Ok in Hs as (n & Hn & Hcases);
    destruct Hcases as [(_ & _ & Hr)|(_ & a & Ha & [(_ & _ & ->)|[(_ & _ & _ & ->)|
      (_ & b' & action & w1 & c & w2 & vc & w3 & Hb & _ & Hcv & Hc & Hrec & _ & Hup)]])];
    try done;
    try (apply record_shortest_path_Ok in Hr as (sp & _ & ->); simpl;
         by destruct (_ <? sp));
    try (simpl; by eapply nodes_have_attrs_insert).
  injection Hb as <-.
  apply count_visit_Ok in Hcv as (n1 & a1 & vc1 & Hn1 & Ha1 & _ & ->).
  apply update_edge_Ok in Hup as (n3 & a3 & t3 & vc3 & Hn3 & Ha3 & _ & _ & ->).
  simpl. eapply nodes_have_attrs_insert; [done..|].
  eapply IH; [exact Hrec|].
  eapply child_attrs; [exact Hc|].
  simpl. by eapply nodes_have_attrs_insert.
Qed.

Lemma assign_root_priors_attrs (u : unit) (w w' : world) :
  assign_root_priors w = Ok (u, w') ->
  nodes_have_attrs (heap w) -> nodes_have_attrs (heap w').
Proof.
  intros (r & n & pv & e1 & d & e2 & q & _ & Hn & _ & _ & _ & ->)%assign_root_priors_Ok Hinv.
  simpl. by eapply nodes_have_attrs_insert.
Qed.

Lemma MCTSAgent_init_body_invariant (wrapped : @Oracle Input Ext) (s : State) (md : nat)
    (table : gmap Key ref) (cp g : float) (h : list MCTSNode) (e : Ext) (w : world) :
  stats_consistent h ->
  (forall r n a i c, h !! r = Some n -> attrs n = Some a ->
     children a !! i = Some (Some c) ->
     table !! State_key (State_next (state n) i) = Some c) ->
  nodes_have_attrs h ->
  MCTSAgent_init_body wrapped s md table cp g h e = Ok w ->
  store_invariant w.
Proof.
  intros Hstats Hlinks Hattrs (root & w1 & w2 & Hroot & Ha & ->)%MCTSAgent_init_body_Ok.
  split; [|split; [|split]].
  4:{ simpl. eapply assign_root_priors_attrs; [exact Ha|]. simpl.
      by eapply MCTSNode_init_attrs. }
  - simpl. eapply assign_root_priors_stats; [exact Ha|]. simpl.
    eapply (MCTSNode_init_stats _ _ _ _ _ Hroot). done.
  - eapply links_frame; [| |eapply assign_root_priors_links; [exact Ha|]]; [done..|].
    eapply links_frame; [| |eapply MCTSNode_init_links; [exact Hroot|]]; [done..|].
    exact Hlinks.
  - apply reset_shortest_path_log.
Qed.

Lemma search_invariant (steps : nat) (w w' : world) :
  search steps w = Ok (tt, w') -> store_invariant w -> store_invariant w'.
Proof.
  apply (search_preserves store_invariant).
  - intros budget self v w1 w2 Hs (? & ? & ? & ?). split; [|split; [|split]].
    + by eapply select_leaf_and_update_stats.
    + by eapply select_leaf_and_update_links.
    + by eapply select_leaf_and_update_log.
    + by eapply select_leaf_and_update_attrs.
  - intros w1 k Hinv. exact Hinv.
Qed.

Lemma advance_to_action_invariant (action : nat) (w w' : world) :
  advance_to_action action w = Ok (tt, w') -> store_invariant w -> store_invariant w'.
Proof.
  intros (r & c & w1 & w2 & _ & Hc & Ha & ->)%advance_to_action_Ok
    (Hstats & Hlinks & _ & Hattrs).
  split; [|split; [|split]].
  4:{ simpl. eapply assign_root_priors_attrs; [exact Ha|]. simpl.
      by eapply child_attrs. }
  - simpl. eapply assign_root_priors_stats; [exact Ha|]. simpl.
    by eapply child_stats.
  - eapply links_frame; [| |eapply assign_root_priors_links; [exact Ha|]]; [done..|].
    eapply links_frame; [| |eapply child_links; [exact Hc|]]; done.
  - apply reset_shortest_path_log.
Qed.

Lemma reachable_invariant (w : world) : reachable w -> store_invariant w.
Proof.
  induction 1 as [wrapped s md cp g e w Hinit
                 |w0 wrapped s md cp g w _ IH Hinit
                 |steps w w' _ IH Hsearch
                 |action w w' _ IH Hadv].
  - eapply MCTSAgent_init_body_invariant; [| | |exact Hinit].
    + intros r n a Hn. done.
    + intros r n a i c Hn. done.
    + intros r n Hn. done.
  - destruct IH as (Hstats & Hlinks & _ & Hattrs).
    eapply MCTSAgent_init_body_invariant; [| | |exact Hinit]; done.
  - by eapply search_invariant.
  - by eapply advance_to_action_invariant.
Qed.

(** *** Statistics of every node *)

(** C6: in every store the program can reach by constructing agents,
    searching and advancing, every non-terminal node has
    [total_visit_counts] equal to the sum of its [visit_counts], and for
    every action with a positive visit count [mean_action_values] holds the
    quotient of [total_action_values] by [visit_counts], the very float the
    division gives.  Nodes shared through the transposition table and
    entered again inside one simulation are covered: every simulation keeps
    the invariant for the edges that are not in flight. *)
Theorem statistics_invariant (w : world) (r : ref) (n : MCTSNode) :
  reachable w -> heap w !! r = Some n -> terminal n = false ->
  exists a, attrs n = Some a /\
    length (visit_counts a) = action_count /\
    total_visit_counts a = np_sum_int (visit_counts a) /\
    forall i c, visit_counts a !! i = Some c -> 0 < c ->
      exists t, total_action_values a !! i = Some t /\
                mean_action_values a !! i = Some (fdiv t (Z2F c)).
Proof.
  intros (Hstats & _ & _ & Hattrs)%reachable_invariant Hn Ht.
  destruct (Hattrs r n Hn Ht) as [a Ha]. exists a. split; [done|].
  destruct (Hstats r n a Hn Ha) as ((Hlen & _) & Hsum & Hmean).
  split; [done|]. split; [done|]. intros i c Hc Hpos.
  by apply (Hmean i (fun F => F) c).
Qed.

(** *** Children *)

Lemma child_linked (self : ref) (action : nat) (c : ref) (w w' : world) :
  child self action w = Ok (c, w') ->
  exists n a, heap w' !! self = Some n /\ attrs n = Some a /\
              children a !! action = Some (Some c).
Proof.
  intros (n & a & Hn & Ha & Hcases)%child_Ok. simpl in Hcases.
  destruct Hcases as [[Hc ->]|[(Hc & _ & ->)|(Hc & _ & w1 & Hinit & ->)]].
  - by exists n, a.
  - exists (set_attrs (set_children (<[action := Some c]> (children a)) a) n),
           (set_children (<[action := Some c]> (children a)) a).
    simpl. split; [|split; [reflexivity|]].
    + apply list_lookup_insert_eq. by eapply lookup_lt_Some.
    + apply list_lookup_insert_eq. by eapply lookup_lt_Some.
  - apply MCTSNode_init_Ok in Hinit as (_ & _ & _ & node & Hh & _).
    exists (set_attrs (set_children (<[action := Some c]> (children a)) a) n),
           (set_children (<[action := Some c]> (children a)) a).
    simpl. split; [|split; [reflexivity|]].
    + apply list_lookup_insert_eq. rewrite Hh, length_app.
      apply lookup_lt_Some in Hn. lia.
    + apply list_lookup_insert_eq. by eapply lookup_lt_Some.
Qed.

(** C9: [child] is idempotent and shares nodes.  A second call for the same
    node and action returns the same reference and changes nothing (no node
    is created, the policy/value callable is not called).  When the action
    outcomes of two nodes have the same key, the second [child] call
    resolves to the reference the first one returned, creates no node and
    makes no oracle call, so both parents read and write one set of
    statistics. *)
Theorem child_idempotent_and_shared
    (w : world) (r1 r2 : ref) (a1 a2 : nat) (c1 c2 : ref) (w1 w2 : world)
    (n1 n2 : MCTSNode) :
  reachable w ->
  child r1 a1 w = Ok (c1, w1) ->
  child r1 a1 w1 = Ok (c1, w1) /\
  (heap w1 !! r1 = Some n1 -> heap w1 !! r2 = Some n2 ->
   State_key (State_next (state n1) a1) = State_key (State_next (state n2) a2) ->
   child r2 a2 w1 = Ok (c2, w2) ->
   c2 = c1 /\ oracle_calls w2 = oracle_calls w1 /\
   length (heap w2) = length (heap w1) /\
   heap w2 !! c2 = heap w2 !! c1).
Proof.
  intros (_ & Hlinks & _)%reachable_invariant Hc1.
  pose proof (child_links _ _ _ _ _ Hc1 Hlinks) as Hlinks1.
  destruct (child_linked _ _ _ _ _ Hc1) as (m1 & b1 & Hm1 & Hb1 & Hl1).
  split; [by eapply child_existing|].
  intros Hn1 Hn2 Hkey Hc2.
  pose proof (eq_trans (eq_sym Hn1) Hm1) as E. injection E as ->.
  pose proof (Hlinks1 r1 m1 b1 a1 c1 Hm1 Hb1 Hl1) as Ht1.
  apply child_Ok in Hc2 as (m2 & b2 & Hm2 & Hb2 & Hcases). simpl in Hcases.
  pose proof (eq_trans (eq_sym Hn2) Hm2) as E. injection E as ->.
  rewrite Hkey in Ht1.
  destruct Hcases as [[Hl2 ->]|[(_ & Ht2 & ->)|(_ & Ht2 & _)]].
  - pose proof (Hlinks1 r2 m2 b2 a2 c2 Hm2 Hb2 Hl2) as Ht2.
    rewrite Ht1 in Ht2. injection Ht2 as <-. done.
  - rewrite Ht1 in Ht2. injection Ht2 as <-. simpl.
    by rewrite length_insert.
  - by rewrite Ht1 in Ht2.
Qed.

(** *** Root noise *)

Lemma same_statistics_refl (m : MCTSNode) : same_statistics m m.
Proof. unfold same_statistics. by destruct (attrs m). Qed.

Lemma child_same_statistics (self : ref) (action : nat) (c : ref) (w w' : world)
    (r : ref) (m : MCTSNode) :
  child self action w = Ok (c, w') -> heap w !! r = Some m ->
  exists m', heap w' !! r = Some m' /\ same_statistics m m'.
Proof.
  intros (n & a & Hn & Ha & Hcases)%child_Ok Hm. simpl in Hcases.
  assert (Hlinked : same_statistics n
            (set_attrs (set_children (<[action := Some c]> (children a)) a) n)).
  { unfold same_statistics. simpl. by rewrite Ha. }
  destruct Hcases as [[_ ->]|[(_ & _ & ->)|(_ & _ & w1 & Hinit & ->)]].
  - exists m. split; [done|apply same_statistics_refl].
  - simpl. destruct (decide (r = self)) as [->|Hne].
    + pose proof (eq_trans (eq_sym Hm) Hn) as E. injection E as ->.
      eexists. split; [|exact Hlinked].
      apply list_lookup_insert_eq. by eapply lookup_lt_Some.
    + exists m. rewrite list_lookup_insert_ne by done.
      split; [done|apply same_statistics_refl].
  - apply MCTSNode_init_Ok in Hinit as (_ & _ & _ & node & Hh & _).
    simpl. rewrite Hh. destruct (decide (r = self)) as [->|Hne].
    + pose proof (eq_trans (eq_sym Hm) Hn) as E. injection E as ->.
      eexists. split; [|exact Hlinked].
      apply list_lookup_insert_eq. rewrite length_app.
      apply lookup_lt_Some in Hn. lia.
    + exists m. rewrite list_lookup_insert_ne by done.
      split; [by apply lookup_app_l_Some|apply same_statistics_refl].
Qed.

Lemma same_statistics_set_prior (m m' : MCTSNode) (q : list float) :
  same_statistics m m' -> same_statistics m (set_prior_probabilities q m').
Proof. unfold same_statistics. simpl. done. Qed.


(** C8: the constructor and [advance_to_action] both overwrite the root's
    [prior_probabilities] with [0.75 * raw + 0.25 * noise], where [raw] is
    what the policy/value callable returns for the root's state at that
    moment and [noise] is a Dirichlet(0.5) sample over the actions, and both
    set [shortest_path] to [max_depth + 1].  [advance_to_action] makes
    [root.child(action)] the root and changes no other attribute of any
    node: every node that existed before the advance is still there with
    its state, flags and statistics, so the statistics gathered below that
    child are kept. *)
Theorem root_noise_and_advance
    (wrapped : @Oracle Input Ext) (s : State) (md : nat) (table : gmap Key ref)
    (cp g : float) (h : list MCTSNode) (e : Ext) (w : world)
    (action : nat) (w0 w0' : world) :
  (MCTSAgent_init_body wrapped s md table cp g h e = Ok w <->
   exists root w1 n raw value e1 noise e2 q,
     MCTSNode_init s (mkWorld h (mkAgent wrapped md 0 table cp g None None) e 0 [])
       = Ok (root, w1) /\
     heap w1 !! root = Some n /\
     wrapped (State_input_array (state n)) (ext w1) = ((raw, value), e1) /\
     dirichlet (replicate action_count f_05) e1 = (noise, e2) /\
     np_binop fadd (map (fmul f_075) raw) (map (fmul f_025) noise) = Ok q /\
     w = mkWorld (<[root := set_prior_probabilities q n]> (heap w1))
                 (mkAgent wrapped md 0 (transposition_table (agent w1)) cp g
                          (Some root) (Some (Z.of_nat md + 1)))
                 e2 (S (oracle_calls w1)) []) /\
  (advance_to_action action w0 = Ok (tt, w0') <->
   exists r c w1 n raw value e1 noise e2 q,
     initial_node (agent w0) = Some r /\
     child r action w0 = Ok (c, w1) /\
     heap w1 !! c = Some n /\
     model_policy_value (agent w1) (State_input_array (state n)) (ext w1)
       = ((raw, value), e1) /\
     dirichlet (replicate action_count f_05) e1 = (noise, e2) /\
     np_binop fadd (map (fmul f_075) raw) (map (fmul f_025) noise) = Ok q /\
     w0' = mkWorld (<[c := set_prior_probabilities q n]> (heap w1))
                   (set_shortest_path (Z.of_nat (max_depth (agent w1)) + 1)
                      (set_initial_node c (agent w1)))
                   e2 (S (oracle_calls w1)) []) /\
  (advance_to_action action w0 = Ok (tt, w0') ->
   forall r m, heap w0 !! r = Some m ->
     exists m', heap w0' !! r = Some m' /\ same_statistics m m').
Proof.
  split; [|split].
  3:{ intros (r0 & c & w1 & w2 & _ & Hc & Ha & ->)%advance_to_action_Ok r m Hm.
      destruct (child_same_statistics _ _ _ _ _ r m Hc Hm) as (m1 & Hm1 & Hsame).
      apply assign_root_priors_Ok in Ha
        as (r' & n & pv & e1 & d & e2 & q & Hr' & Hn & _ & _ & _ & ->).
      simpl in *. injection Hr' as <-.
      destruct (decide (r = c)) as [->|Hne].
      - pose proof (eq_trans (eq_sym Hm1) Hn) as E. injection E as ->.
        eexists. split; [apply list_lookup_insert_eq; by eapply lookup_lt_Some|].
        by apply same_statistics_set_prior.
      - exists m1. by rewrite list_lookup_insert_ne. }
  - rewrite MCTSAgent_init_body_Ok. split.
    + intros (root & w1 & w2 & Hroot & Ha & ->).
      apply assign_root_priors_Ok in Ha
        as (r & n & [raw value] & e1 & d & e2 & q & Hr & Hn & Hpv & Hd & Hq & ->).
      simpl in Hr. injection Hr as <-. simpl in *.
      pose proof (MCTSNode_init_Ok _ _ _ _ Hroot) as (_ & Hag & _).
      rewrite Hag in Hpv. simpl in Hpv.
      exists root, w1, n, raw, value, e1, d, e2, q.
      repeat (split; [done|]). unfold set_terminal_log, set_agent. simpl.
      rewrite Hag. done.
    + intros (root & w1 & n & raw & value & e1 & d & e2 & q
              & Hroot & Hn & Hpv & Hd & Hq & ->).
      pose proof (MCTSNode_init_Ok _ _ _ _ Hroot) as (_ & Hag & Hlog & _).
      exists root, w1, (mkWorld (<[root := set_prior_probabilities q n]> (heap w1))
                          (set_initial_node root (agent w1)) e2
                          (S (oracle_calls w1)) (terminal_log w1)).
      split; [done|]. split.
      * apply assign_root_priors_Ok.
        exists root, n, (raw, value), e1, d, e2, q. simpl.
        rewrite Hag. done.
      * unfold set_terminal_log, set_agent. simpl. rewrite Hag. done.
  - rewrite advance_to_action_Ok. split.
    + intros (r & c & w1 & w2 & Hr & Hc & Ha & ->).
      apply assign_root_priors_Ok in Ha
        as (r' & n & [raw value] & e1 & d & e2 & q & Hr' & Hn & Hpv & Hd & Hq & ->).
      simpl in Hr'. injection Hr' as <-. simpl in *.
      exists r, c, w1, n, raw, value, e1, d, e2, q. done.
    + intros (r & c & w1 & n & raw & value & e1 & d & e2 & q
              & Hr & Hc & Hn & Hpv & Hd & Hq & ->).
      exists r, c, w1, (mkWorld (<[c := set_prior_probabilities q n]> (heap w1))
                          (set_initial_node c (agent w1)) e2
                          (S (oracle_calls w1)) (terminal_log w1)).
      split; [done|]. split; [done|]. split; [|done].
      apply assign_root_priors_Ok.
      exists c, n, (raw, value), e1, d, e2, q. done.
Qed.

(** *** An agent on a terminal state *)

(** C2, as the code has it: on an already-terminal initial state the
    construction of the root node calls the policy/value callable zero
    times, but the constructor's root-noise assignment is unconditional: it
    calls the callable once and binds [prior_probabilities] on the terminal
    root.  The root is terminal and [action_probabilities] returns [None]. *)
Theorem MCTSAgent_init_body_terminal
    (wrapped : @Oracle Input Ext) (s : State) (md : nat) (table : gmap Key ref)
    (cp g : float) (h : list MCTSNode) (e : Ext)
    (raw : list float) (value : float) (e1 : Ext) (noise : list float) (e2 : Ext)
    (q : list float) (inv_temp : float) :
  State_done s = true ->
  wrapped (State_input_array s) e = ((raw, value), e1) ->
  dirichlet (replicate action_count f_05) e1 = (noise, e2) ->
  np_binop fadd (map (fmul f_075) raw) (map (fmul f_025) noise) = Ok q ->
  let w0 := mkWorld h (mkAgent wrapped md 0 table cp g None None) e 0 [] in
  let w := mkWorld (h ++ [mkNode s true (Some q) None])
                   (mkAgent wrapped md 0 table cp g (Some (length h))
                            (Some (Z.of_nat md + 1)))
                   e2 1 [] in
  MCTSNode_init s w0 = Ok (length h, set_heap (h ++ [mkNode s true None None]) w0) /\
  MCTSAgent_init_body wrapped s md table cp g h e = Ok w /\
  oracle_calls w = 1%nat /\
  is_terminal w = Ok (true, w) /\
  agent_action_probabilities inv_temp w = Ok (None, w).
Proof.
  intros Hdone Hpv Hd Hq w0 w.
  assert (Hnode : MCTSNode_init s w0
                  = Ok (length h, set_heap (h ++ [mkNode s true None None]) w0)).
  { unfold MCTSNode_init. by rewrite Hdone. }
  assert (Hroot : heap w !! length h = Some (mkNode s true (Some q) None)).
  { simpl. rewrite lookup_app_r by lia. by rewrite Nat.sub_diag. }
  split; [done|]. split; [|split; [done|split]].
  - apply MCTSAgent_init_body_Ok.
    exists (length h), (set_heap (h ++ [mkNode s true None None]) w0),
      (mkWorld (h ++ [mkNode s true (Some q) None])
               (mkAgent wrapped md 0 table cp g (Some (length h)) None) e2 1 []).
    split; [done|]. split; [|done].
    apply assign_root_priors_Ok.
    exists (length h), (mkNode s true None None), (raw, value), e1, noise, e2, q.
    simpl. split; [done|]. split.
    { rewrite lookup_app_r by lia. by rewrite Nat.sub_diag. }
    repeat (split; [done|]). f_equal.
    rewrite insert_app_r_alt by lia. by rewrite Nat.sub_diag.
  - unfold is_terminal. apply bind_Ok. exists (length h), w.
    split; [by apply get_initial_node_Ok|].
    apply bind_Ok. eexists _, w. split; [by apply get_node_Ok|]. done.
  - unfold agent_action_probabilities. apply bind_Ok. exists (length h), w.
    split; [by apply get_initial_node_Ok|].
    unfold action_probabilities. apply bind_Ok. eexists _, w.
    split; [by apply get_node_Ok|]. done.
Qed.

(** *** Selection *)

Lemma map_lookup {A B : Type} (f : A -> B) (l : list A) (i : nat) :
  map f l !! i = f <$> (l !! i).
Proof. revert i. induction l as [|x l IH]; intros [|i]; simpl; auto. Qed.

Lemma np_binop_same_length {A B C : Type} (f : A -> B -> C) (xs : list A) (ys : list B) :
  length xs = length ys -> np_binop f xs ys = Ok (zip_with f xs ys).
Proof. intros E. unfold np_binop. by rewrite bool_decide_eq_true_2. Qed.

Lemma select_action_run (self : ref) (n : MCTSNode) (a : NodeAttrs) (p ucb scores : list float)
    (action : nat) (w : world) :
  heap w !! self = Some n -> attrs n = Some a -> prior_probabilities n = Some p ->
  np_binop fdiv
    (map (fmul (fmul (fmul (node_value a) (c_puct a))
                     (fsqrt (Z2F (total_visit_counts a))))) p)
    (map (fun c => Z2F (1 + c)) (visit_counts a)) = Ok ucb ->
  np_binop fadd (mean_action_values a) ucb = Ok scores ->
  np_argmax scores = Ok action ->
  select_action self w = Ok (action, w).
Proof.
  intros Hn Ha Hp Hucb Hsc Harg. unfold select_action.
  apply bind_Ok. exists a, w. split; [apply get_attrs_Ok; eauto|].
  apply bind_Ok. exists ucb, w. split.
  { unfold upper_confidence_bounds.
    apply bind_Ok. exists a, w. split; [apply get_attrs_Ok; eauto|].
    apply bind_Ok. exists p, w. split; [apply get_prior_probabilities_Ok; eauto|].
    by apply lift_Ok. }
  apply bind_Ok. exists scores, w. split; [by apply lift_Ok|].
  by apply lift_Ok.
Qed.

Lemma scores_lookup (a : NodeAttrs) (p : list float) (i : nat) :
  zip_with fadd (mean_action_values a)
    (zip_with fdiv
       (map (fmul (fmul (fmul (node_value a) (c_puct a))
                        (fsqrt (Z2F (total_visit_counts a))))) p)
       (map (fun c => Z2F (1 + c)) (visit_counts a))) !! i
  = score_of a p i.
Proof.
  unfold score_of, spec_score.
  rewrite !lookup_zip_with, !map_lookup.
  destruct (mean_action_values a !! i), (p !! i), (visit_counts a !! i); done.
Qed.

(** C5: at a non-terminal node that is no longer a leaf, the score the code
    computes for action [i] is
    [mean_action_values[i] + node_value * c_puct * sqrt(total_visit_counts)
     * prior_probabilities[i] / (1 + visit_counts[i])], and the action that
    [select_leaf_and_update] follows is the first action whose score is
    highest: no score is above it, and every earlier action scores strictly
    below it (in numpy's order, where NaN counts as highest). *)
Theorem select_action_first_best_score
    (self : ref) (n : MCTSNode) (a : NodeAttrs) (p : list float) (w : world) :
  heap w !! self = Some n -> terminal n = false ->
  attrs n = Some a -> is_leaf_node a = false ->
  prior_probabilities n = Some p ->
  attrs_shaped a -> length p = action_count ->
  exists action best ucb scores,
    np_binop fdiv
      (map (fmul (fmul (fmul (node_value a) (c_puct a))
                       (fsqrt (Z2F (total_visit_counts a))))) p)
      (map (fun c => Z2F (1 + c)) (visit_counts a)) = Ok ucb /\
    np_binop fadd (mean_action_values a) ucb = Ok scores /\
    (forall i, scores !! i = score_of a p i) /\
    select_action self w = Ok (action, w) /\
    (action < action_count)%nat /\
    score_of a p action = Some best /\
    (forall j y, score_of a p j = Some y -> np_below y best = true) /\
    (forall j y, (j < action)%nat -> score_of a p j = Some y ->
       np_below best y = false) /\
    (forall budget v w',
       select_leaf_and_update (S budget) self w = Ok (v, w') ->
       exists w1 c w2 vc w3,
         count_visit self action w = Ok (tt, w1) /\
         child self action w1 = Ok (c, w2) /\
         select_leaf_and_update budget c w2 = Ok (vc, w3)).
Proof.
  intros Hn Ht Ha Hl Hp (Hvc & Htav & Hmav & Hch) Hlen.
  set (s := fmul (fmul (node_value a) (c_puct a)) (fsqrt (Z2F (total_visit_counts a)))).
  set (ucb := zip_with fdiv (map (fmul s) p)
                (map (fun c => Z2F (1 + c)) (visit_counts a))).
  set (scores := zip_with fadd (mean_action_values a) ucb).
  assert (Hucb : np_binop fdiv (map (fmul s) p)
                   (map (fun c => Z2F (1 + c)) (visit_counts a)) = Ok ucb).
  { apply np_binop_same_length. rewrite !length_map. congruence. }
  assert (Hlu : length ucb = action_count).
  { unfold ucb. rewrite length_zip_with, !length_map. lia. }
  assert (Hsc : np_binop fadd (mean_action_values a) ucb = Ok scores).
  { apply np_binop_same_length. congruence. }
  assert (Hls : length scores = action_count).
  { unfold scores. rewrite length_zip_with. lia. }
  assert (Hlook : forall i, scores !! i = score_of a p i)
    by (intros i; apply scores_lookup).
  destruct (np_argmax_total scores) as [action Harg].
  { intros E. by rewrite E in Hls. }
  destruct (np_argmax_spec scores action Harg) as (best & Hbest & Hall & Hstrict).
  pose proof (select_action_run self n a p ucb scores action w Hn Ha Hp Hucb Hsc Harg)
    as Hsel.
  exists action, best, ucb, scores.
  repeat (split; [done|]).
  split; [rewrite <- Hls; by eapply lookup_lt_Some|].
  split; [by rewrite <- Hlook|].
  split; [intros j y; rewrite <- Hlook; apply Hall|].
  split; [intros j y Hj; rewrite <- Hlook; by apply Hstrict|].
  intros budget v w' Hs.
  apply select_leaf_and_update_Ok in Hs as (n' & Hn' & Hcases).
  pose proof (eq_trans (eq_sym Hn') Hn) as E. injection E as ->.
  destruct Hcases as [(Ht' & _)|(_ & a' & Ha' & Hcases)]; [by rewrite Ht in Ht'|].
  pose proof (eq_trans (eq_sym Ha') Ha) as E. injection E as ->.
  destruct Hcases as [(Hl' & _)|[(_ & Hb & _)|
    (_ & b' & action' & w1 & c & w2 & vc & w3 & Hb & Hsel' & Hcv & Hc & Hrec & _)]];
    [by rewrite Hl in Hl'|done|].
  injection Hb as <-.
  pose proof (eq_trans (eq_sym Hsel') Hsel) as E. injection E as ->.
  by exists w1, c, w2, vc, w3.
Qed.

(** *** The recursive step *)

Lemma select_leaf_and_update_recursive (budget : nat) (self : ref) (n : MCTSNode)
    (a : NodeAttrs) (w : world) :
  heap w !! self = Some n -> terminal n = false ->
  attrs n = Some a -> is_leaf_node a = false ->
  select_leaf_and_update (S budget) self w =
  bind (select_action self) (fun action =>
    bind (count_visit self action) (fun _ =>
      bind get_world (fun w1 =>
        bind (child self action) (fun c =>
          bind (select_leaf_and_update budget c) (fun v =>
            bind (update_edge self action (fmul (gamma (agent w1)) v))
                 (fun _ => ret (fmul (gamma (agent w1)) v))))))) w.
Proof.
  intros Hn Ht Ha Hl.
  change (select_leaf_and_update (S budget) self w) with
    (bind (get_node self) (fun n =>
       if terminal n then bind (record_shortest_path (S budget)) (fun _ => ret fone)
       else bind (get_attrs "is_leaf_node" self) (fun a =>
         if is_leaf_node a
         then bind (put_attrs self (set_is_leaf_node false a))
                   (fun _ => ret (node_value a))
         else
           bind (select_action self) (fun action =>
           bind (count_visit self action) (fun _ =>
           bind get_world (fun w1 =>
           bind (child self action) (fun c =>
           bind (select_leaf_and_update budget c) (fun v =>
           bind (update_edge self action (fmul (gamma (agent w1)) v))
                (fun _ => ret (fmul (gamma (agent w1)) v))))))))) w).
  unfold bind at 1. rewrite (proj2 (get_node_Ok self n w w)) by done.
  rewrite Ht. unfold bind at 1.
  rewrite (proj2 (get_attrs_Ok "is_leaf_node" self a w w)) by eauto.
  by rewrite Hl.
Qed.

(** C4, as the code has it: in the recursive step of a non-terminal node
    that is no longer a leaf, the value the child's call returns is
    multiplied by [gamma]; that product is added into
    [total_action_values[action]], [mean_action_values[action]] is
    recomputed as the new total over [visit_counts[action]], and the same
    product, the discounted value, is what the call returns. *)
Theorem recursive_step_returns_discounted_value
    (budget : nat) (self : ref) (n : MCTSNode) (a : NodeAttrs) (v : float)
    (w w' : world) :
  heap w !! self = Some n -> terminal n = false ->
  attrs n = Some a -> is_leaf_node a = false ->
  (select_leaf_and_update (S budget) self w = Ok (v, w') <->
   exists action w1 c w2 v_child w3 n3 a3 t k,
     select_action self w = Ok (action, w) /\
     count_visit self action w = Ok (tt, w1) /\
     child self action w1 = Ok (c, w2) /\
     select_leaf_and_update budget c w2 = Ok (v_child, w3) /\
     heap w3 !! self = Some n3 /\ attrs n3 = Some a3 /\
     total_action_values a3 !! action = Some t /\
     visit_counts a3 !! action = Some k /\
     v = fmul (gamma (agent w)) v_child /\
     w' = set_heap
            (<[self := set_attrs
                 (set_mean_action_values
                    (<[action := fdiv (fadd t v) (Z2F k)]> (mean_action_values a3))
                    (set_total_action_values
                       (<[action := fadd t v]> (total_action_values a3)) a3)) n3]>
               (heap w3)) w3).
Proof.
  intros Hn Ht Ha Hl.
  rewrite (select_leaf_and_update_recursive budget self n a w Hn Ht Ha Hl). split.
  - intros Hs.
    apply bind_Ok in Hs as (action & w0 & Hsel & Hs).
    pose proof (select_action_Ok _ _ _ _ Hsel) as [-> _].
    apply bind_Ok in Hs as ([] & w1 & Hcv & Hs).
    apply bind_Ok in Hs as (w1' & w0 & Hw & Hs).
    apply get_world_Ok in Hw as [-> ->].
    apply bind_Ok in Hs as (c & w2 & Hc & Hs).
    apply bind_Ok in Hs as (vc & w3 & Hrec & Hs).
    apply bind_Ok in Hs as ([] & w4 & Hup & Hs).
    apply ret_Ok in Hs as [-> ->].
    pose proof (count_visit_frame _ _ _ _ _ Hcv) as (_ & _ & _ & _ & Hg & _).
    rewrite Hg in *.
    apply update_edge_Ok in Hup as (n3 & a3 & t & k & Hn3 & Ha3 & Htav & Hk & ->).
    by exists action, w1, c, w2, vc, w3, n3, a3, t, k.
  - intros (action & w1 & c & w2 & vc & w3 & n3 & a3 & t & k
            & Hsel & Hcv & Hc & Hrec & Hn3 & Ha3 & Htav & Hk & -> & ->).
    pose proof (count_visit_frame _ _ _ _ _ Hcv) as (_ & _ & _ & _ & Hg & _).
    apply bind_Ok. exists action, w. split; [done|].
    apply bind_Ok. exists tt, w1. split; [done|].
    apply bind_Ok. exists w1, w1. split; [by apply get_world_Ok|].
    apply bind_Ok. exists c, w2. split; [done|].
    apply bind_Ok. exists vc, w3. split; [done|].
    rewrite Hg.
    apply bind_Ok. eexists tt, _. split; [|by apply ret_Ok].
    apply update_edge_Ok. by exists n3, a3, t, k.
Qed.

(** *** The action distribution after the first simulation *)

(** On a terminal root and on a root that is still a leaf,
    [action_probabilities] returns [None]. *)
Lemma action_probabilities_undefined (self : ref) (n : MCTSNode) (inv_temp : float)
    (w : world) :
  heap w !! self = Some n ->
  (terminal n = true \/
   exists a, terminal n = false /\ attrs n = Some a /\ is_leaf_node a = true) ->
  action_probabilities self inv_temp w = Ok (None, w).
Proof.
  intros Hn Hcase. unfold action_probabilities.
  apply bind_Ok. exists n, w. split; [by apply get_node_Ok|].
  destruct Hcase as [->|(a & -> & Ha & Hl)]; [done|].
  apply bind_Ok. exists a, w. split; [apply get_attrs_Ok; eauto|].
  by rewrite Hl.
Qed.

(** C3 at the root left by one simulation.  The first simulation only clears
    the root's leaf flag, so every visit count is still zero;
    [action_probabilities(1)] then passes its guard and divides zero counts
    by their zero sum: the result is an array of twelve NaN, not [None]. *)
Theorem action_probabilities_after_one_simulation
    (wrapped : @Oracle Input Ext) (s : State) (md : nat) (table : gmap Key ref)
    (cp g : float) (h : list MCTSNode) (e : Ext) (w w' : world) :
  State_done s = false ->
  MCTSAgent_init_body wrapped s md table cp g h e = Ok w ->
  search 1 w = Ok (tt, w') ->
  (exists n a, initial_node (agent w') = Some (length h) /\
     heap w' !! length h = Some n /\ terminal n = false /\ attrs n = Some a /\
     is_leaf_node a = false /\ visit_counts a = replicate action_count 0) /\
  agent_action_probabilities fone w' = Ok (Some (replicate action_count fnan), w').
Proof.
  intros Hdone (root & w1 & w2 & Hroot & Ha & ->)%MCTSAgent_init_body_Ok Hsearch.
  apply MCTSNode_init_Ok in Hroot as (-> & Hag & _ & node & Hh & _ & Hterm & Hnode).
  simpl in Hh. rewrite Hdone in Hterm.
  destruct Hnode as [(Hd & _)|(_ & pv & e0 & _ & _ & Hat & _)];
    [by rewrite Hdone in Hd|].
  apply assign_root_priors_Ok in Ha
    as (r & n & pv' & e1 & d & e2 & q & Hr & Hn & _ & _ & _ & ->).
  simpl in Hr, Hn. injection Hr as <-.
  rewrite Hh, lookup_app_r, Nat.sub_diag in Hn by lia. injection Hn as <-.
  simpl in Hsearch. apply bind_Ok in Hsearch as ([] & w3 & Hstep & Hret).
  apply ret_Ok in Hret as [_ ->].
  apply search_step_Ok in Hstep as (r & v & w4 & Hr & Hsim & ->).
  simpl in Hr. injection Hr as <-.
  assert (Hlt : (length h < length (heap w1))%nat)
    by (rewrite Hh, length_app; simpl; lia).
  apply select_leaf_and_update_Ok in Hsim as (n & Hn & Hcases).
  simpl in Hn. rewrite list_lookup_insert_eq in Hn by done. injection Hn as <-.
  destruct Hcases as [(Ht' & _)|(_ & a & Ha & Hcases)];
    [simpl in Ht'; by rewrite Hterm in Ht'|].
  simpl in Ha. rewrite Hat in Ha. injection Ha as <-.
  destruct Hcases as [(_ & _ & ->)|[(Hl & _)|(Hl & _)]]; [|done..].
  simpl. rewrite list_insert_insert_eq.
  match goal with
  | |- context [<[length h := ?x]> (heap w1)] => set (root_node := x)
  end.
  match goal with
  | |- context [agent_action_probabilities fone ?x] => set (wf := x)
  end.
  assert (Hroot : heap wf !! length h = Some root_node)
    by (simpl; by apply list_lookup_insert_eq).
  split.
  - eexists root_node, _. split; [done|]. split; [done|].
    split; [exact Hterm|]. split; [reflexivity|]. done.
  - unfold agent_action_probabilities. apply bind_Ok. exists (length h), wf.
    split; [by apply get_initial_node_Ok|].
    unfold action_probabilities. apply bind_Ok. exists root_node, wf.
    split; [by apply get_node_Ok|].
    change (terminal root_node) with (terminal node). rewrite Hterm.
    apply bind_Ok. eexists _, wf.
    split; [apply get_attrs_Ok; split; [|done]; exists root_node; split;
            [done|reflexivity]|].
    reflexivity.
Qed.

End Properties.

(** ** The properties at work on the small transition system *)

(** The depth limit at the visited root of [w_one]. *)
Lemma select_leaf_and_update_depth_zero_witness :
  Toy.select_leaf_and_update 0 0%nat Toy.w_one = Ok (max_depth_value, Toy.w_one).
Proof.
  refine (proj1 (select_leaf_and_update_depth_zero
                   Toy.next Toy.key Toy.done Toy.input_array
                   0%nat _ _ Toy.w_one _ _ _ _)); reflexivity.
Defined.

(** A terminal root met with budget 3 of 5 logs depth 2; after one
    simulation from the root the statistic is 0. *)
Lemma shortest_path_statistic_witness :
  Toy.select_leaf_and_update 3 0%nat Toy.w_solved
    = Ok (fone,
          set_terminal_log [2]
            (set_agent (set_shortest_path 2 (agent Toy.w_solved)) Toy.w_solved)) /\
  Toy.stats "shortest_path" Toy.w_solved_1 = Ok (StatInt 0, Toy.w_solved_1).
Proof.
  epose proof (shortest_path_statistic Toy.next Toy.key Toy.done Toy.input_array
                 3 0%nat _ 6 Toy.w_solved 1 Toy.w_solved Toy.w_solved_1) as [H1 H2].
  split.
  - refine (proj1 (H1 _ _ _)); reflexivity.
  - refine (proj2 (H2 _ _)); [split; [reflexivity|constructor]|].
    vm_compute. reflexivity.
Defined.

(** The toy stores are stores the program reaches. *)
Lemma reachable_w_new :
  reachable Toy.next Toy.key Toy.done Toy.input_array Toy.dirichlet Toy.w_new.
Proof.
  apply (reach_fresh Toy.next Toy.key Toy.done Toy.input_array Toy.dirichlet
           Toy.constant_policy_value 2 5 fone f_095 0%nat).
  reflexivity.
Defined.

Lemma reachable_w_three :
  reachable Toy.next Toy.key Toy.done Toy.input_array Toy.dirichlet Toy.w_three.
Proof.
  apply (reach_search Toy.next Toy.key Toy.done Toy.input_array Toy.dirichlet
           3 Toy.w_new); [exact reachable_w_new|].
  vm_compute. reflexivity.
Defined.

(** The statistics of the root after three simulations. *)
Lemma statistics_invariant_witness :
  exists n a, heap Toy.w_three !! 0%nat = Some n /\ attrs n = Some a /\
    visit_counts a = [2; 0; 0; 0; 0; 0; 0; 0; 0; 0; 0; 0] /\
    total_visit_counts a = np_sum_int (visit_counts a) /\
    forall i c, visit_counts a !! i = Some c -> 0 < c ->
      exists t, total_action_values a !! i = Some t /\
                mean_action_values a !! i = Some (fdiv t (Z2F c)).
Proof.
  eexists. 
  destruct (statistics_invariant Toy.next Toy.key Toy.done Toy.input_array Toy.dirichlet
              Toy.w_three 0%nat _ reachable_w_three eq_refl eq_refl)
    as (a & Ha & _ & Hsum & Hmean).
  exists a. split; [reflexivity|]. split; [exact Ha|].
  split; [by injection Ha as <-|]. split; [exact Hsum|exact Hmean].
Defined.

(** Actions 2 and 3 both stay in place: their outcomes have one key and
    resolve to one node. *)
Lemma child_idempotent_and_shared_witness :
  exists c w1 w2,
    Toy.child 0%nat 2%nat Toy.w_new = Ok (c, w1) /\
    Toy.child 0%nat 2%nat w1 = Ok (c, w1) /\
    Toy.child 0%nat 3%nat w1 = Ok (c, w2) /\
    oracle_calls w2 = oracle_calls w1 /\
    length (heap w2) = length (heap w1).
Proof.
  eexists _, _, _. split; [vm_compute; reflexivity|].
  epose proof (child_idempotent_and_shared
                 Toy.next Toy.key Toy.done Toy.input_array Toy.dirichlet
                 Toy.w_new 0%nat 0%nat 2%nat 3%nat _ _ _ _ _ _
                 reachable_w_new eq_refl) as [H1 H2].
  split; [exact H1|]. split; [vm_compute; reflexivity|].
  destruct (H2 eq_refl eq_refl eq_refl eq_refl) as (_ & Hcalls & Hlen & _).
  split; [exact Hcalls|exact Hlen].
Defined.

(** Selection at the visited root of [w_one]. *)
Lemma select_action_first_best_score_witness :
  exists action best,
    Toy.select_action 0%nat Toy.w_one = Ok (action, Toy.w_one) /\
    (action < action_count)%nat /\
    (forall n a p, heap Toy.w_one !! 0%nat = Some n -> attrs n = Some a ->
       prior_probabilities n = Some p ->
       score_of a p action = Some best /\
       forall j y, score_of a p j = Some y -> np_below y best = true).
Proof.
  epose proof (select_action_first_best_score
                 Toy.next Toy.key Toy.done Toy.input_array
                 0%nat _ _ _ Toy.w_one eq_refl eq_refl eq_refl eq_refl eq_refl _ eq_refl)
    as (action & best & ucb & scores & _ & _ & _ & Hsel & Hlt & Hbest & Hall & _).
  exists action, best. split; [exact Hsel|]. split; [exact Hlt|].
  intros n a p [= <-] [= <-] [= <-]. split; [exact Hbest|exact Hall].
  Unshelve. by repeat split.
Defined.

(** The second simulation from the root returns [0.95 * 0.01]. *)
Lemma recursive_step_returns_discounted_value_witness :
  exists w',
    Toy.select_leaf_and_update 5 0%nat Toy.w_one
      = Ok (fmul f_095 constant_value, w') /\
    exists action w1 c w2 v_child w3,
      Toy.select_action 0%nat Toy.w_one = Ok (action, Toy.w_one) /\
      Toy.count_visit 0%nat action Toy.w_one = Ok (tt, w1) /\
      Toy.child 0%nat action w1 = Ok (c, w2) /\
      Toy.select_leaf_and_update 4 c w2 = Ok (v_child, w3) /\
      fmul f_095 constant_value = fmul (gamma (agent Toy.w_one)) v_child.
Proof.
  eexists. split; [vm_compute; reflexivity|].
  epose proof (proj1 (recursive_step_returns_discounted_value
                        Toy.next Toy.key Toy.done Toy.input_array
                        4 0%nat _ _ (fmul f_095 constant_value) Toy.w_one _
                        eq_refl eq_refl eq_refl eq_refl)) as H.
  destruct (H ltac:(vm_compute; reflexivity))
    as (action & w1 & c & w2 & v_child & w3 & n3 & a3 & t & k
        & Hsel & Hcv & Hc & Hrec & _ & _ & _ & _ & Hv & _).
  by exists action, w1, c, w2, v_child, w3.
Defined.

(** The child returns 0.01 and the root returns [0.95 * 0.01], a different
    float. *)
Lemma returns_undiscounted_value_counterexample :
  ~ returns_undiscounted_value Toy.next Toy.key Toy.done Toy.input_array (Ext := nat).
Proof.
  intros Hspec.
  assert (E : fmul f_095 constant_value = constant_value); [|by vm_compute in E].
  eapply (Hspec 4%nat 0%nat 0%nat Toy.w_one Toy.w_counted 1%nat Toy.w_child);
    vm_compute; reflexivity.
Qed.

(** An agent on the solved state. *)
Lemma MCTSAgent_init_body_terminal_witness :
  Toy.new_agent 0 5 = Ok Toy.w_solved /\
  oracle_calls Toy.w_solved = 1%nat /\
  Toy.is_terminal Toy.w_solved = Ok (true, Toy.w_solved) /\
  Toy.action_probabilities fone Toy.w_solved = Ok (None, Toy.w_solved).
Proof.
  epose proof (MCTSAgent_init_body_terminal
                 Toy.done Toy.input_array Toy.dirichlet Toy.np_power Toy.np_sum
                 Toy.constant_policy_value 0 5 ∅ fone f_095 [] 0%nat
                 _ _ _ _ _ _ fone eq_refl eq_refl eq_refl eq_refl)
    as (_ & Hinit & Hcalls & Hterm & Hprob).
  split; [exact Hinit|]. split; [exact Hcalls|]. split; [exact Hterm|exact Hprob].
Defined.

(** On the solved state the constructor has called the policy/value callable
    once. *)
Lemma terminal_root_untouched_counterexample :
  ~ terminal_root_untouched Toy.done Toy.input_array Toy.dirichlet (Key := Z).
Proof.
  intros Hspec.
  destruct (Hspec Toy.constant_policy_value 0 5%nat ∅ fone f_095 [] 0%nat
              Toy.w_solved eq_refl eq_refl) as [Hcalls _].
  discriminate Hcalls.
Qed.

(** Twelve NaN after one simulation. *)
Lemma action_probabilities_after_one_simulation_witness :
  Toy.action_probabilities fone Toy.w_one
    = Ok (Some (replicate action_count fnan), Toy.w_one).
Proof.
  refine (proj2 (action_probabilities_after_one_simulation
                   Toy.next Toy.key Toy.done Toy.input_array Toy.dirichlet
                   Toy.np_power Toy.np_sum
                   Toy.constant_policy_value 2 5 ∅ fone f_095 [] 0%nat
                   Toy.w_new Toy.w_one eq_refl eq_refl _)).
  vm_compute. reflexivity.
Defined.

(** Advancing along action 0 after three simulations keeps every node's
    statistics. *)
Lemma root_noise_and_advance_witness :
  exists w',
    Toy.advance_to_action 0%nat Toy.w_three = Ok (tt, w') /\
    initial_node (agent w') = Some 1%nat /\
    shortest_path (agent w') = Some 6 /\
    forall r m, heap Toy.w_three !! r = Some m ->
      exists m', heap w' !! r = Some m' /\ same_statistics m m'.
Proof.
  eexists. split; [vm_compute; reflexivity|].
  split; [reflexivity|]. split; [reflexivity|].
  apply (proj2 (proj2 (root_noise_and_advance
                  Toy.next Toy.key Toy.done Toy.input_array Toy.dirichlet
                  Toy.constant_policy_value 2 5 ∅ fone f_095 [] 0%nat Toy.w_new
                  0%nat Toy.w_three _))).
  vm_compute. reflexivity.
Defined.

(** ** Further properties of the search engine *)

Section Coverage.

Context {State Key Input : Type} `{Countable Key}.
Variable State_next : State -> nat -> State.
Variable State_key : State -> Key.
Variable State_done : State -> bool.
Variable State_input_array : State -> Input.
Context {Ext : Type}.
Variable dirichlet : list float -> Ext -> list float * Ext.
Variable np_power : list float -> float -> list float.
Variable np_sum : list float -> float.

Local Abbreviation world := (@world State Key Input _ _ Ext).
Local Abbreviation MCTSNode := (@MCTSNode State).
Local Abbreviation M := (@M State Key Input _ _ Ext).
Local Abbreviation call_dirichlet := (call_dirichlet dirichlet).
Local Abbreviation MCTSNode_init := (MCTSNode_init State_done State_input_array).
Local Abbreviation child := (child State_next State_key State_done State_input_array).
Local Abbreviation select_leaf_and_update :=
  (select_leaf_and_update State_next State_key State_done State_input_array).
Local Abbreviation action_probabilities := (action_probabilities np_power np_sum).
Local Abbreviation noised_priors := (noised_priors State_input_array dirichlet).
Local Abbreviation assign_root_priors := (assign_root_priors State_input_array dirichlet).
Local Abbreviation MCTSAgent_init_body :=
  (MCTSAgent_init_body State_done State_input_array dirichlet).
Local Abbreviation search_step :=
  (search_step State_next State_key State_done State_input_array).
Local Abbreviation search := (search State_next State_key State_done State_input_array).
Local Abbreviation agent_action_probabilities := (agent_action_probabilities np_power np_sum).
Local Abbreviation advance_to_action :=
  (advance_to_action State_next State_key State_done State_input_array dirichlet).
Local Abbreviation advance_to_best_child :=
  (advance_to_best_child State_next State_key State_done State_input_array dirichlet).
Local Abbreviation stats := (stats State_input_array).
Local Abbreviation reachable :=
  (reachable State_next State_key State_done State_input_array dirichlet).
Local Abbreviation dirichlet_shaped := (dirichlet_shaped dirichlet).
Local Abbreviation runs_from :=
  (runs_from State_next State_key State_done State_input_array dirichlet).

(** *** What later stores keep *)

Ltac same_counts :=
  let i := fresh "i" in let c := fresh "c" in let Hi := fresh "Hi" in
  intros i c Hi; exists c; split; [exact Hi|lia].

Lemma node_grows_refl (n : MCTSNode) : node_grows n n.
Proof.
  split; [done|]. split; [done|]. intros a Ha. exists a.
  split; [done|]. split; [done|]. split; [done|]. split; [lia|].
  split; [same_counts|done].
Qed.

Lemma node_grows_trans (n1 n2 n3 : MCTSNode) :
  node_grows n1 n2 -> node_grows n2 n3 -> node_grows n1 n3.
Proof.
  intros (Hs1 & Ht1 & Ha1) (Hs2 & Ht2 & Ha2).
  split; [congruence|]. split; [congruence|].
  intros a Ha. destruct (Ha1 a Ha) as (a2 & Ha2' & Hv & Hc & Ht & Hvc & Hl & Hch).
  destruct (Ha2 a2 Ha2') as (a3 & Ha3 & Hv' & Hc' & Ht' & Hvc' & Hl' & Hch').
  exists a3. split; [done|]. split; [congruence|]. split; [congruence|].
  split; [lia|]. split; [|split; auto].
  intros i c Hi. destruct (Hvc i c Hi) as (c2 & Hi2 & Hle).
  destruct (Hvc' i c2 Hi2) as (c3 & Hi3 & Hle'). exists c3. split; [done|lia].
Qed.

Lemma node_grows_set_attrs (n : MCTSNode) (a a' : NodeAttrs) :
  attrs n = Some a ->
  node_value a' = node_value a -> c_puct a' = c_puct a ->
  total_visit_counts a <= total_visit_counts a' ->
  (forall i c, visit_counts a !! i = Some c ->
     exists c', visit_counts a' !! i = Some c' /\ c <= c') ->
  (is_leaf_node a = false -> is_leaf_node a' = false) ->
  (forall i c, children a !! i = Some (Some c) -> children a' !! i = Some (Some c)) ->
  node_grows n (set_attrs a' n).
Proof.
  intros Ha Hv Hc Ht Hvc Hl Hch. split; [done|]. split; [done|].
  intros a0 Ha0.
  pose proof (eq_trans (eq_sym Ha0) Ha) as E. injection E as ->.
  exists a'. done.
Qed.

Lemma keeps_refl (w : world) : keeps w w.
Proof.
  split; [done|]. split; [|done].
  intros r n Hn. exists n. split; [done|apply node_grows_refl].
Qed.

Lemma keeps_trans (w1 w2 w3 : world) : keeps w1 w2 -> keeps w2 w3 -> keeps w1 w3.
Proof.
  intros (Ht1 & Hh1 & ? & ? & ? & ?) (Ht2 & Hh2 & ? & ? & ? & ?).
  split; [by etrans|]. split; [|repeat split; congruence].
  intros r n Hn. destruct (Hh1 r n Hn) as (n2 & Hn2 & Hg).
  destruct (Hh2 r n2 Hn2) as (n3 & Hn3 & Hg'). exists n3.
  split; [done|by eapply node_grows_trans].
Qed.

Lemma keeps_insert (w : world) (r : ref) (n n' : MCTSNode) :
  heap w !! r = Some n -> node_grows n n' ->
  keeps w (set_heap (<[r := n']> (heap w)) w).
Proof.
  intros Hn Hg. split; [done|]. split; [|done].
  intros r' m Hm. simpl. destruct (decide (r' = r)) as [->|Hne].
  - exists n'. rewrite list_lookup_insert_eq by (by eapply lookup_lt_Some).
    split; [done|].
    pose proof (eq_trans (eq_sym Hm) Hn) as E. by injection E as ->.
  - exists m. rewrite list_lookup_insert_ne by done.
    split; [done|apply node_grows_refl].
Qed.

Lemma keeps_frame (w w' : world) :
  heap w' = heap w ->
  transposition_table (agent w') = transposition_table (agent w) ->
  model_policy_value (agent w') = model_policy_value (agent w) ->
  max_depth (agent w') = max_depth (agent w) ->
  agent_c_puct (agent w') = agent_c_puct (agent w) ->
  gamma (agent w') = gamma (agent w) ->
  keeps w w'.
Proof.
  intros Hh Ht ? ? ? ?. split; [by rewrite Ht|]. split; [|done].
  intros r n Hn. exists n. rewrite Hh. split; [done|apply node_grows_refl].
Qed.

Lemma count_visit_keeps (self : ref) (action : nat) (u : unit) (w w' : world) :
  count_visit self action w = Ok (u, w') -> keeps w w'.
Proof.
  intros (n & a & vc & Hn & Ha & Hvc & ->)%count_visit_Ok.
  eapply keeps_insert; [done|].
  eapply node_grows_set_attrs; [done|done|done|simpl; lia| |done|done].
  simpl. intros i c Hi. destruct (decide (i = action)) as [->|Hne].
  - exists (vc + 1). rewrite list_lookup_insert_eq by (by eapply lookup_lt_Some).
    split; [done|]. pose proof (eq_trans (eq_sym Hi) Hvc) as E. injection E as ->. lia.
  - exists c. rewrite list_lookup_insert_ne by done. split; [done|lia].
Qed.

Lemma update_edge_keeps (self : ref) (action : nat) (v : float) (u : unit) (w w' : world) :
  update_edge self action v w = Ok (u, w') -> keeps w w'.
Proof.
  intros (n & a & t & vc & Hn & Ha & _ & _ & ->)%update_edge_Ok.
  eapply keeps_insert; [done|].
  eapply node_grows_set_attrs; [done|done|done|simpl; lia|same_counts|done|done].
Qed.

Lemma MCTSNode_init_keeps (st : State) (r : ref) (w w' : world) :
  MCTSNode_init st w = Ok (r, w') -> keeps w w'.
Proof.
  intros (_ & Hag & _ & node & Hh & _)%MCTSNode_init_Ok.
  split; [by rewrite Hag|]. split; [|by rewrite Hag].
  intros r' n Hn. exists n. rewrite Hh.
  split; [by apply lookup_app_l_Some|apply node_grows_refl].
Qed.

Lemma node_grows_link (n : MCTSNode) (a : NodeAttrs) (action : nat) (c : ref) :
  attrs n = Some a -> children a !! action = Some None ->
  node_grows n (set_attrs (set_children (<[action := Some c]> (children a)) a) n).
Proof.
  intros Ha Hc.
  eapply node_grows_set_attrs; [done|done|done|simpl; lia|same_counts|done|].
  intros i c0 Hi. simpl. destruct (decide (i = action)) as [->|Hne].
  - rewrite Hc in Hi. done.
  - by rewrite list_lookup_insert_ne.
Qed.

Lemma child_keeps (self : ref) (action : nat) (c : ref) (w w' : world) :
  child self action w = Ok (c, w') -> keeps w w'.
Proof.
  intros (n & a & Hn & Ha & Hcases)%child_Ok. simpl in Hcases.
  destruct Hcases as [[_ ->]|[(Hc & _ & ->)|(Hc & Hnone & w1 & Hinit & ->)]].
  - apply keeps_refl.
  - eapply keeps_insert; [done|]. by apply node_grows_link.
  - pose proof (MCTSNode_init_keeps _ _ _ _ Hinit) as Hk1.
    apply MCTSNode_init_Ok in Hinit as (_ & Hag & _ & node & Hh & _).
    eapply keeps_trans; [exact Hk1|].
    assert (Hn1 : heap w1 !! self = Some n).
    { rewrite Hh. by apply lookup_app_l_Some. }
    eapply keeps_trans; [eapply keeps_insert; [exact Hn1|by apply node_grows_link]|].
    split; [|split; [|done]].
    + simpl. apply insert_subseteq. by rewrite Hag.
    + intros r' m Hm. exists m. split; [exact Hm|apply node_grows_refl].
Qed.

Lemma record_shortest_path_keeps (budget : nat) (u : unit) (w w' : world) :
  record_shortest_path budget w = Ok (u, w') -> keeps w w'.
Proof.
  intros (sp & _ & ->)%record_shortest_path_Ok. simpl.
  destruct (_ <? sp); by apply keeps_frame.
Qed.

Lemma select_leaf_and_update_keeps (budget : nat) (self : ref) (v : float) (w w' : world) :
  select_leaf_and_update budget self w = Ok (v, w') -> keeps w w'.
Proof.
  revert self v w w'.
  induction budget as [|budget IH]; intros self v w w' Hs;
    apply select_leaf_and_update_Ok in Hs as (n & Hn & Hcases);
    destruct Hcases as [(_ & _ & Hr)|(_ & a & Ha & [(_ & _ & ->)|[(_ & _ & _ & ->)|
      (_ & b' & action & w1 & c & w2 & vc & w3 & Hb & _ & Hcv & Hc & Hrec & _ & Hup)]])];
    try done;
    try (by eapply record_shortest_path_keeps);
    try (eapply keeps_insert; [done|];
         by eapply node_grows_set_attrs;
           [done|done|done|simpl; lia|same_counts|done|done]);
    try apply keeps_refl.
  injection Hb as <-.
  eapply keeps_trans; [by eapply count_visit_keeps|].
  eapply keeps_trans; [by eapply child_keeps|].
  eapply keeps_trans; [by eapply IH|].
  by eapply update_edge_keeps.
Qed.

Lemma search_keeps (steps : nat) (w w' : world) :
  search steps w = Ok (tt, w') -> keeps w w'.
Proof.
  intros Hs.
  eapply (search_preserves _ _ _ _ (keeps w)); [| |exact Hs|apply keeps_refl].
  - intros budget self v w1 w2 Hsim Hk.
    eapply keeps_trans; [exact Hk|by eapply select_leaf_and_update_keeps].
  - intros w1 k Hk. eapply keeps_trans; [exact Hk|]. by apply keeps_frame.
Qed.

Lemma assign_root_priors_keeps (u : unit) (w w' : world) :
  assign_root_priors w = Ok (u, w') -> keeps w w'.
Proof.
  intros (r & n & pv & e1 & d & e2 & q & _ & Hn & _ & _ & _ & ->)%assign_root_priors_Ok.
  split; [done|]. split; [|done].
  intros r' m Hm. simpl. destruct (decide (r' = r)) as [->|Hne].
  - exists (set_prior_probabilities q n).
    rewrite list_lookup_insert_eq by (by eapply lookup_lt_Some).
    split; [done|].
    pose proof (eq_trans (eq_sym Hm) Hn) as E. injection E as ->.
    split; [done|]. split; [done|]. intros a Ha. exists a.
    split; [done|]. split; [done|]. split; [done|]. split; [lia|].
    split; [same_counts|done].
  - exists m. rewrite list_lookup_insert_ne by done.
    split; [done|apply node_grows_refl].
Qed.

Lemma advance_to_action_keeps (action : nat) (u : unit) (w w' : world) :
  advance_to_action action w = Ok (u, w') -> keeps w w'.
Proof.
  intros (r & c & w1 & w2 & _ & Hc & Ha & ->)%advance_to_action_Ok.
  eapply keeps_trans; [by eapply child_keeps|].
  eapply keeps_trans; [|eapply keeps_trans; [by eapply assign_root_priors_keeps|]].
  - by apply keeps_frame.
  - by apply keeps_frame.
Qed.

Lemma runs_from_keeps (w0 w : world) : runs_from w0 w -> keeps w0 w.
Proof.
  induction 1 as [|steps w w' _ IH Hs|action w w' _ IH Ha].
  - apply keeps_refl.
  - eapply keeps_trans; [exact IH|by eapply search_keeps].
  - eapply keeps_trans; [exact IH|by eapply advance_to_action_keeps].
Qed.

(** *** What a simulation costs *)

(** A call on a terminal node or on a leaf touches neither the
    policy/value callable nor the number of nodes. *)
Lemma select_leaf_and_update_at_leaf (budget : nat) (c : ref) (n : MCTSNode)
    (v : float) (w w' : world) :
  heap w !! c = Some n ->
  (terminal n = true \/ exists a, attrs n = Some a /\ is_leaf_node a = true) ->
  select_leaf_and_update budget c w = Ok (v, w') ->
  oracle_calls w' = oracle_calls w /\ length (heap w') = length (heap w).
Proof.
  intros Hn Hfresh Hs.
  apply select_leaf_and_update_Ok in Hs as (n' & Hn' & Hcases).
  pose proof (eq_trans (eq_sym Hn') Hn) as E. injection E as ->.
  destruct Hcases as [(_ & _ & Hr)|(Ht & a & Ha & [(_ & _ & ->)|[(Hl & _)|(Hl & _)]])].
  - apply record_shortest_path_Ok in Hr as (sp & _ & ->). simpl.
    by destruct (_ <? sp).
  - simpl. by rewrite length_insert.
  - destruct Hfresh as [Ht'|(a' & Ha' & Hl')]; [congruence|].
    pose proof (eq_trans (eq_sym Ha') Ha) as E. injection E as ->. congruence.
  - destruct Hfresh as [Ht'|(a' & Ha' & Hl')]; [congruence|].
    pose proof (eq_trans (eq_sym Ha') Ha) as E. injection E as ->. congruence.
Qed.

(** [child] either finds its node, or makes one: one more object, at most
    one evaluation, and the new node is terminal or a leaf. *)
Lemma child_cost (self : ref) (action : nat) (c : ref) (w w' : world) :
  child self action w = Ok (c, w') ->
  (oracle_calls w' = oracle_calls w /\ length (heap w') = length (heap w)) \/
  ((oracle_calls w <= oracle_calls w' <= S (oracle_calls w))%nat /\
   length (heap w') = S (length (heap w)) /\
   exists node, heap w' !! c = Some node /\
     (terminal node = true \/ exists a, attrs node = Some a /\ is_leaf_node a = true)).
Proof.
  intros (n & a & Hn & Ha & Hcases)%child_Ok. simpl in Hcases.
  destruct Hcases as [[_ ->]|[(Hc & _ & ->)|(Hc & Hnone & w1 & Hinit & ->)]].
  - by left.
  - left. simpl. by rewrite length_insert.
  - right. apply MCTSNode_init_Ok in Hinit as (-> & _ & _ & node & Hh & _ & Hterm & Hnode).
    simpl. rewrite length_insert, Hh, length_app. simpl.
    assert (Hself : (self < length (heap w))%nat) by (by eapply lookup_lt_Some).
    split; [|split; [lia|]].
    + destruct Hnode as [(_ & _ & _ & -> & _)|(_ & pv & e & _ & _ & _ & -> & _)]; lia.
    + exists node. split.
      * rewrite list_lookup_insert_ne by lia.
        rewrite lookup_app_r by lia. by rewrite Nat.sub_diag.
      * destruct Hnode as [(Hd & _)|(_ & pv & e & _ & _ & Hat & _)].
        -- left. by rewrite Hterm.
        -- right. eexists. split; [exact Hat|done].
Qed.

Lemma select_leaf_and_update_cost (budget : nat) (self : ref) (v : float) (w w' : world) :
  select_leaf_and_update budget self w = Ok (v, w') ->
  (oracle_calls w <= oracle_calls w' <= S (oracle_calls w))%nat /\
  (length (heap w) <= length (heap w') <= S (length (heap w)))%nat.
Proof.
  revert self v w w'.
  induction budget as [|budget IH]; intros self v w w' Hs;
    apply select_leaf_and_update_Ok in Hs as (n & Hn & Hcases);
    destruct Hcases as [(_ & _ & Hr)|(_ & a & Ha & [(_ & _ & ->)|[(_ & _ & _ & ->)|
      (_ & b' & action & w1 & c & w2 & vc & w3 & Hb & _ & Hcv & Hc & Hrec & _ & Hup)]])];
    try done;
    try (apply record_shortest_path_Ok in Hr as (sp & _ & ->); simpl;
         destruct (_ <? sp); simpl; lia);
    try (simpl; rewrite length_insert; lia);
    try lia.
  injection Hb as <-.
  apply count_visit_Ok in Hcv as (n1 & a1 & vc1 & _ & _ & _ & ->).
  apply update_edge_Ok in Hup as (n3 & a3 & t3 & vc3 & _ & _ & _ & _ & ->).
  simpl. rewrite length_insert.
  apply child_cost in Hc as [[Hc1 Hc2]|(Hc1 & Hc2 & node & Hnode & Hfresh)];
    simpl in Hc1, Hc2; rewrite length_insert in Hc2.
  - apply IH in Hrec. lia.
  - eapply select_leaf_and_update_at_leaf in Hrec as [Hr1 Hr2]; [|exact Hnode|exact Hfresh].
    lia.
Qed.

(** X1: [search(steps)] counts its simulations in [total_steps], leaves the
    root where it is, and pays at most one evaluation of the policy/value
    callable and one new node per simulation. *)
Theorem search_costs_one_evaluation_per_step (steps : nat) (w w' : world) :
  search steps w = Ok (tt, w') ->
  total_steps (agent w') = (total_steps (agent w) + steps)%nat /\
  initial_node (agent w') = initial_node (agent w) /\
  (oracle_calls w <= oracle_calls w' <= oracle_calls w + steps)%nat /\
  (length (heap w) <= length (heap w') <= length (heap w) + steps)%nat.
Proof.
  revert w w'. induction steps as [|steps IH]; intros w w' Hs.
  - apply ret_Ok in Hs as [_ ->]. repeat split; lia.
  - simpl in Hs. apply bind_Ok in Hs as (u & w1 & Hstep & Hs).
    apply search_step_Ok in Hstep as (r & v & w2 & _ & Hsim & ->).
    apply IH in Hs as (Hts & Hroot & Hcalls & Hlen). simpl in *.
    pose proof (select_leaf_and_update_config _ _ _ _ _ _ _ _ _ Hsim)
      as (_ & _ & Hts' & _ & _ & Hroot').
    apply select_leaf_and_update_cost in Hsim as [Hc Hl].
    repeat split; try lia; congruence.
Qed.

(** *** Stores on which nothing raises *)

Lemma node_ready_mono (b b' : nat) (n : MCTSNode) :
  (b <= b')%nat -> node_ready b n -> node_ready b' n.
Proof.
  intros Hb [Hterm Hnode]. split; [done|]. intros Ht.
  destruct (Hnode Ht) as (a & p & Ha & Hp & Hlen & Hshape & Hch).
  exists a, p. repeat split; try done.
  - by destruct Hshape as (? & ? & ? & ?).
  - by destruct Hshape as (? & ? & ? & ?).
  - by destruct Hshape as (? & ? & ? & ?).
  - by destruct Hshape as (? & ? & ? & ?).
  - intros i c Hi. specialize (Hch i c Hi). lia.
Qed.

(** What [node_ready] says of a node that carries statistics. *)
Lemma node_ready_attrs (b : nat) (n : MCTSNode) (a : NodeAttrs) :
  node_ready b n -> attrs n = Some a ->
  terminal n = false /\ attrs_shaped a /\
  (exists p, prior_probabilities n = Some p /\ length p = action_count) /\
  (forall i c, children a !! i = Some (Some c) -> (c < b)%nat).
Proof.
  intros [Hterm Hnode] Ha. destruct (terminal n) eqn:Ht.
  - rewrite Hterm in Ha by done. done.
  - destruct (Hnode eq_refl) as (a' & p & Ha' & Hp & Hlen & Hshape & Hch).
    pose proof (eq_trans (eq_sym Ha') Ha) as E. injection E as ->.
    repeat split; try done; [by destruct Hshape as (? & ? & ? & ?)..|].
    by exists p.
Qed.

Lemma node_ready_set_attrs (b : nat) (n : MCTSNode) (a a' : NodeAttrs) :
  node_ready b n -> attrs n = Some a -> attrs_shaped a' ->
  (forall i c, children a' !! i = Some (Some c) -> (c < b)%nat) ->
  node_ready b (set_attrs a' n).
Proof.
  intros Hr Ha Hshape Hch.
  destruct (node_ready_attrs _ _ _ Hr Ha) as (Ht & _ & (p & Hp & Hlen) & _).
  split; [simpl; congruence|]. intros _. by exists a', p.
Qed.

Lemma store_ready_insert (w : world) (r : ref) (n' : MCTSNode) :
  store_ready w -> node_ready (length (heap w)) n' ->
  store_ready (set_heap (<[r := n']> (heap w)) w).
Proof.
  intros (Hpol & Htab & Hnodes) Hn'. split; [done|]. simpl.
  rewrite length_insert. split; [done|].
  intros r' m Hm. destruct (decide (r' = r)) as [->|Hne].
  - apply list_lookup_insert_Some in Hm as [(_ & <- & _)|[? _]]; done.
  - rewrite list_lookup_insert_ne in Hm by done. by eapply Hnodes.
Qed.

Lemma store_ready_frame (w w' : world) :
  heap w' = heap w ->
  transposition_table (agent w') = transposition_table (agent w) ->
  model_policy_value (agent w') = model_policy_value (agent w) ->
  store_ready w -> store_ready w'.
Proof.
  intros Hh Ht Hm (Hpol & Htab & Hnodes). unfold store_ready.
  rewrite Hh, Ht, Hm. done.
Qed.

Lemma attrs_shaped_counted (a : NodeAttrs) (action : nat) (x y : Z) :
  attrs_shaped a ->
  attrs_shaped (set_visit_counts (<[action := x]> (visit_counts a))
                  (set_total_visit_counts y a)).
Proof.
  intros (? & ? & ? & ?). unfold attrs_shaped. simpl. by rewrite length_insert.
Qed.

Lemma attrs_shaped_updated (a : NodeAttrs) (action : nat) (x y : float) :
  attrs_shaped a ->
  attrs_shaped (set_mean_action_values (<[action := x]> (mean_action_values a))
                  (set_total_action_values
                     (<[action := y]> (total_action_values a)) a)).
Proof.
  intros (? & ? & ? & ?). unfold attrs_shaped. simpl. by rewrite !length_insert.
Qed.

Lemma count_visit_ready (self : ref) (action : nat) (u : unit) (w w' : world) :
  count_visit self action w = Ok (u, w') -> store_ready w -> store_ready w'.
Proof.
  intros (n & a & vc & Hn & Ha & _ & ->)%count_visit_Ok Hr.
  apply store_ready_insert; [done|].
  destruct Hr as (_ & _ & Hnodes). specialize (Hnodes _ _ Hn).
  destruct (node_ready_attrs _ _ _ Hnodes Ha) as (_ & Hshape & _ & Hch).
  eapply node_ready_set_attrs; [done|done|by apply attrs_shaped_counted|done].
Qed.

Lemma update_edge_ready (self : ref) (action : nat) (v : float) (u : unit) (w w' : world) :
  update_edge self action v w = Ok (u, w') -> store_ready w -> store_ready w'.
Proof.
  intros (n & a & t & vc & Hn & Ha & _ & _ & ->)%update_edge_Ok Hr.
  apply store_ready_insert; [done|].
  destruct Hr as (_ & _ & Hnodes). specialize (Hnodes _ _ Hn).
  destruct (node_ready_attrs _ _ _ Hnodes Ha) as (_ & Hshape & _ & Hch).
  eapply node_ready_set_attrs; [done|done|by apply attrs_shaped_updated|done].
Qed.

Lemma MCTSNode_init_ready (st : State) (r : ref) (w w' : world) :
  MCTSNode_init st w = Ok (r, w') -> store_ready w ->
  store_ready w' /\ (r < length (heap w'))%nat.
Proof.
  intros (-> & Hag & _ & node & Hh & _ & Hterm & Hnode)%MCTSNode_init_Ok
    (Hpol & Htab & Hnodes).
  rewrite Hh, length_app. simpl. split; [|lia].
  unfold store_ready. rewrite Hag, Hh, length_app. simpl.
  split; [done|]. split.
  { intros k c Hk. specialize (Htab k c Hk). lia. }
  intros r' m Hm. apply lookup_app_Some in Hm as [Hm|[_ Hm]].
  { eapply node_ready_mono; [|by eapply Hnodes]. lia. }
  apply list_lookup_singleton_Some in Hm as [_ <-].
  destruct Hnode as [(Hd & _ & Hat & _)|(Hd & pv & e & Hpv & Hp & Hat & _)].
  - split; [done|]. rewrite Hterm, Hd. done.
  - split; [rewrite Hterm, Hd; done|]. intros _.
    eexists _, _. split; [exact Hat|]. split; [exact Hp|].
    split; [|split].
    + specialize (Hpol (State_input_array st) (ext w)). by rewrite Hpv in Hpol.
    + by repeat split.
    + intros i c Hi.
      change (replicate action_count None !! i = Some (Some c)) in Hi.
      apply lookup_replicate in Hi as [? _]. done.
Qed.

Lemma attrs_shaped_linked (a : NodeAttrs) (action : nat) (c : option ref) :
  attrs_shaped a -> attrs_shaped (set_children (<[action := c]> (children a)) a).
Proof.
  intros (? & ? & ? & ?). unfold attrs_shaped. simpl. by rewrite length_insert.
Qed.

Lemma node_ready_linked (b : nat) (n : MCTSNode) (a : NodeAttrs) (action : nat) (c : ref) :
  node_ready b n -> attrs n = Some a -> (c < b)%nat ->
  node_ready b (set_attrs (set_children (<[action := Some c]> (children a)) a) n).
Proof.
  intros Hr Ha Hc.
  destruct (node_ready_attrs _ _ _ Hr Ha) as (_ & Hshape & _ & Hch).
  eapply node_ready_set_attrs; [done|done|by apply attrs_shaped_linked|].
  simpl. intros i c0 Hi.
  apply list_lookup_insert_Some in Hi as [(_ & [= <-] & _)|[_ Hi]]; [done|].
  by eapply Hch.
Qed.

Lemma child_ready (self : ref) (action : nat) (c : ref) (w w' : world) :
  child self action w = Ok (c, w') -> store_ready w ->
  store_ready w' /\ (c < length (heap w'))%nat.
Proof.
  intros (n & a & Hn & Ha & Hcases)%child_Ok Hr. simpl in Hcases.
  destruct Hcases as [[Hc ->]|[(Hc & Htc & ->)|(Hc & Hnone & w1 & Hinit & ->)]].
  - split; [done|]. destruct Hr as (_ & _ & Hnodes). specialize (Hnodes _ _ Hn).
    destruct (node_ready_attrs _ _ _ Hnodes Ha) as (_ & _ & _ & Hch).
    by eapply Hch.
  - assert (Hlt : (c < length (heap w))%nat).
    { destruct Hr as (_ & Htab & _). by eapply Htab. }
    simpl. rewrite length_insert. split; [|done].
    apply store_ready_insert; [done|].
    destruct Hr as (_ & _ & Hnodes). specialize (Hnodes _ _ Hn).
    by apply node_ready_linked.
  - destruct (MCTSNode_init_ready _ _ _ _ Hinit Hr) as [Hr1 Hlt].
    apply MCTSNode_init_Ok in Hinit as (_ & Hag & _ & node & Hh & _).
    assert (Hn1 : heap w1 !! self = Some n).
    { rewrite Hh. by apply lookup_app_l_Some. }
    simpl. rewrite length_insert. split; [|done].
    assert (Hr2 : store_ready (set_heap
              (<[self := set_attrs
                   (set_children (<[action := Some c]> (children a)) a) n]>
                 (heap w1)) w1)).
    { apply store_ready_insert; [done|].
      destruct Hr1 as (_ & _ & Hnodes). specialize (Hnodes _ _ Hn1).
      by apply node_ready_linked. }
    destruct Hr2 as (Hpol & Htab & Hnodes). split; [done|]. split; [|done].
    simpl in *. intros k c' Hk.
    apply lookup_insert_Some in Hk as [[_ <-]|[_ Hk]].
    + by rewrite length_insert.
    + by eapply Htab.
Qed.

(** A store in the middle of a simulation: the nodes are in order and
    [shortest_path] is bound. *)
Lemma select_leaf_and_update_ready (budget : nat) (self : ref) (v : float) (w w' : world) :
  select_leaf_and_update budget self w = Ok (v, w') ->
  store_ready w -> is_Some (shortest_path (agent w)) ->
  store_ready w' /\ is_Some (shortest_path (agent w')).
Proof.
  revert self v w w'.
  induction budget as [|budget IH]; intros self v w w' Hs Hr Hsp;
    apply select_leaf_and_update_Ok in Hs as (n & Hn & Hcases);
    destruct Hcases as [(_ & _ & Hrec)|(_ & a & Ha & [(_ & _ & ->)|[(_ & _ & _ & ->)|
      (_ & b' & action & w1 & c & w2 & vc & w3 & Hb & _ & Hcv & Hc & Hrec & _ & Hup)]])];
    try done;
    try (apply record_shortest_path_Ok in Hrec as (sp & _ & ->); simpl;
         destruct (_ <? sp); simpl; (split; [by eapply store_ready_frame|by eauto]));
    try (split; [|done]; apply store_ready_insert; [done|];
         destruct Hr as (_ & _ & Hnodes); specialize (Hnodes _ _ Hn);
         destruct (node_ready_attrs _ _ _ Hnodes Ha) as (_ & Hshape & _ & Hch);
         by eapply node_ready_set_attrs).
  injection Hb as <-.
  pose proof (count_visit_ready _ _ _ _ _ Hcv Hr) as Hr1.
  apply count_visit_frame in Hcv as (_&_&_&_&_&_&Hsp1&_).
  destruct (child_ready _ _ _ _ _ Hc Hr1) as [Hr2 _].
  apply child_frame in Hc as (_&_&_&_&_&_&Hsp2&_).
  destruct (IH _ _ _ _ Hrec Hr2) as [Hr3 Hsp3]; [by rewrite Hsp2, Hsp1|].
  split; [by eapply update_edge_ready|].
  apply update_edge_frame in Hup as (_&_&_&_&_&_&Hsp4&_). by rewrite Hsp4.
Qed.

(** *** Every step goes through *)

Lemma MCTSNode_init_progress (st : State) (w : world) :
  exists r w', MCTSNode_init st w = Ok (r, w').
Proof.
  unfold MCTSNode_init. destruct (State_done st); [by eexists _, _|].
  unfold bind, get_world, call_model_policy_value.
  destruct (model_policy_value (agent w) (State_input_array st) (ext w)) as [pv e].
  by eexists _, _.
Qed.

Lemma select_action_progress (b : nat) (self : ref) (n : MCTSNode) (w : world) :
  heap w !! self = Some n -> terminal n = false -> node_ready b n ->
  exists action, select_action self w = Ok (action, w) /\ (action < action_count)%nat.
Proof.
  intros Hn Ht [_ Hnode].
  destruct (Hnode Ht) as (a & p & Ha & Hp & Hlen & (Hv & Htv & Hmv & Hch) & _).
  set (ucb := zip_with fdiv
                (map (fmul (fmul (fmul (node_value a) (c_puct a))
                                 (fsqrt (Z2F (total_visit_counts a))))) p)
                (map (fun c => Z2F (1 + c)) (visit_counts a))).
  set (scores := zip_with fadd (mean_action_values a) ucb).
  assert (Hlu : length ucb = action_count).
  { unfold ucb. rewrite length_zip_with, !length_map. lia. }
  assert (Hls : length scores = action_count).
  { unfold scores. rewrite length_zip_with. lia. }
  destruct (np_argmax_total scores) as [m Hm].
  { intros E. rewrite E in Hls. done. }
  exists m. split.
  - eapply select_action_run; [done|done|done| | |exact Hm].
    + apply np_binop_same_length. rewrite !length_map. lia.
    + apply np_binop_same_length. fold ucb. lia.
  - apply np_argmax_spec in Hm as (x & Hx & _). apply lookup_lt_Some in Hx. lia.
Qed.

Lemma child_progress (self : ref) (action : nat) (n : MCTSNode) (w : world) :
  store_ready w -> heap w !! self = Some n -> terminal n = false ->
  (action < action_count)%nat ->
  exists c w', child self action w = Ok (c, w').
Proof.
  intros (_ & _ & Hnodes) Hn Ht Hact.
  destruct (Hnodes _ _ Hn) as [_ Hnode].
  destruct (Hnode Ht) as (a & p & Ha & _ & _ & (_ & _ & _ & Hch) & _).
  destruct (lookup_lt_is_Some_2 (children a) action) as [cn Hcn]; [lia|].
  destruct cn as [c|].
  { exists c, w. by eapply child_existing. }
  destruct (transposition_table (agent w) !! State_key (State_next (state n) action))
    as [node|] eqn:Htab.
  - eexists node, _. unfold child.
    apply bind_Ok. exists a, w. split; [apply get_attrs_Ok; eauto|].
    apply bind_Ok. exists None, w. split; [by apply index_Ok|].
    apply bind_Ok. exists n, w. split; [by apply get_node_Ok|].
    apply bind_Ok. exists w, w. split; [by apply get_world_Ok|].
    rewrite Htab.
    apply bind_Ok. eexists tt, _. split; [apply put_attrs_Ok; eauto|].
    by apply ret_Ok.
  - destruct (MCTSNode_init_progress (State_next (state n) action) w) as (c & w1 & Hinit).
    pose proof (MCTSNode_init_Ok _ _ _ _ _ _ Hinit) as (_ & _ & _ & node & Hh & _).
    eexists c, _. unfold child.
    apply bind_Ok. exists a, w. split; [apply get_attrs_Ok; eauto|].
    apply bind_Ok. exists None, w. split; [by apply index_Ok|].
    apply bind_Ok. exists n, w. split; [by apply get_node_Ok|].
    apply bind_Ok. exists w, w. split; [by apply get_world_Ok|].
    rewrite Htab.
    apply bind_Ok. exists c, w1. split; [exact Hinit|].
    apply bind_Ok. eexists tt, _. split.
    { apply put_attrs_Ok. exists n. split; [|reflexivity].
      rewrite Hh. by apply lookup_app_l_Some. }
    apply bind_Ok. eexists tt, _. split; [by apply modify_Ok|].
    by apply ret_Ok.
Qed.

Lemma select_leaf_and_update_unfold (budget : nat) (self : ref) (w : world) :
  select_leaf_and_update budget self w =
  bind (get_node self) (fun n =>
    if terminal n then bind (record_shortest_path budget) (fun _ => ret fone)
    else bind (get_attrs "is_leaf_node" self) (fun a =>
      if is_leaf_node a
      then bind (put_attrs self (set_is_leaf_node false a))
                (fun _ => ret (node_value a))
      else match budget with
           | O => ret max_depth_value
           | S budget' =>
               bind (select_action self) (fun action =>
               bind (count_visit self action) (fun _ =>
               bind get_world (fun w1 =>
               bind (child self action) (fun c =>
               bind (select_leaf_and_update budget' c) (fun v =>
               bind (update_edge self action (fmul (gamma (agent w1)) v))
                    (fun _ => ret (fmul (gamma (agent w1)) v)))))))
           end)) w.
Proof. by destruct budget. Qed.

Lemma select_leaf_and_update_progress (budget : nat) (self : ref) (w : world) :
  store_ready w -> is_Some (shortest_path (agent w)) ->
  (self < length (heap w))%nat ->
  exists v w', select_leaf_and_update budget self w = Ok (v, w').
Proof.
  revert self w. induction budget as [|budget IH]; intros self w Hr [sp Hsp] Hself;
    destruct (lookup_lt_is_Some_2 _ _ Hself) as [n Hn];
    pose proof Hr as (_ & _ & Hnodes); specialize (Hnodes _ _ Hn);
    rewrite select_leaf_and_update_unfold;
    (destruct (terminal n) eqn:Ht;
     [ eexists _, _; apply bind_Ok; exists n, w; split; [by apply get_node_Ok|];
       rewrite Ht; apply bind_Ok; eexists tt, _; split;
       [apply record_shortest_path_Ok; exists sp; split; [exact Hsp|reflexivity]
       |by apply ret_Ok]
     | ]);
    pose proof Hnodes as [_ Hnode];
    destruct (Hnode Ht) as (a & p & Ha & Hp & Hlen & Hshape & Hch);
    (destruct (is_leaf_node a) eqn:Hl;
     [ eexists _, _; apply bind_Ok; exists n, w; split; [by apply get_node_Ok|];
       rewrite Ht; apply bind_Ok; exists a, w; split; [apply get_attrs_Ok; eauto|];
       rewrite Hl; apply bind_Ok; eexists tt, _; split;
       [apply put_attrs_Ok; eauto|by apply ret_Ok]
     | ]).
  - exists max_depth_value, w.
    apply bind_Ok. exists n, w. split; [by apply get_node_Ok|].
    rewrite Ht. apply bind_Ok. exists a, w. split; [apply get_attrs_Ok; eauto|].
    rewrite Hl. by apply ret_Ok.
  - destruct (select_action_progress _ _ _ _ Hn Ht Hnodes) as (action & Hsel & Hact).
    destruct Hshape as (Hlv & Hlt & Hlm & Hlc).
    destruct (lookup_lt_is_Some_2 (visit_counts a) action) as [vc Hvc]; [lia|].
    set (w1 := set_heap
           (<[self := set_attrs
                (set_visit_counts (<[action := vc + 1]> (visit_counts a))
                   (set_total_visit_counts (total_visit_counts a + 1) a)) n]>
              (heap w)) w).
    assert (Hcv : count_visit self action w = Ok (tt, w1)).
    { apply count_visit_Ok. exists n, a, vc. done. }
    pose proof (count_visit_ready _ _ _ _ _ Hcv Hr) as Hr1.
    pose proof (count_visit_keeps _ _ _ _ _ Hcv) as Hk1.
    assert (Hn1 : exists n1, heap w1 !! self = Some n1 /\ terminal n1 = false).
    { destruct Hk1 as (_ & Hh & _). destruct (Hh _ _ Hn) as (n1 & Hn1 & _ & Ht1 & _).
      exists n1. split; [done|congruence]. }
    destruct Hn1 as (n1 & Hn1 & Ht1).
    destruct (child_progress self action n1 w1 Hr1 Hn1 Ht1 Hact) as (c & w2 & Hc).
    destruct (child_ready _ _ _ _ _ Hc Hr1) as [Hr2 Hlt2].
    assert (Hsp2 : is_Some (shortest_path (agent w2))).
    { apply child_frame in Hc as (_&_&_&_&_&_&Hsp2&_). rewrite Hsp2. simpl. eauto. }
    destruct (IH c w2 Hr2 Hsp2 Hlt2) as (vc' & w3 & Hrec).
    destruct (select_leaf_and_update_ready _ _ _ _ _ Hrec Hr2 Hsp2) as [Hr3 _].
    assert (Hk3 : keeps w w3).
    { eapply keeps_trans; [exact Hk1|]. eapply keeps_trans; [by eapply child_keeps|].
      by eapply select_leaf_and_update_keeps. }
    destruct Hk3 as (_ & Hh3 & _).
    destruct (Hh3 _ _ Hn) as (n3 & Hn3 & _ & _ & Hat3).
    destruct (Hat3 _ Ha) as (a3 & Ha3 & _).
    pose proof Hr3 as (_ & _ & Hnodes3). specialize (Hnodes3 _ _ Hn3).
    destruct (node_ready_attrs _ _ _ Hnodes3 Ha3) as (_ & (Hlv3 & Hlt3 & _) & _).
    destruct (lookup_lt_is_Some_2 (total_action_values a3) action) as [t Ht3]; [lia|].
    destruct (lookup_lt_is_Some_2 (visit_counts a3) action) as [k Hk]; [lia|].
    eexists _, _.
    apply bind_Ok. exists n, w. split; [by apply get_node_Ok|].
    rewrite Ht. apply bind_Ok. exists a, w. split; [apply get_attrs_Ok; eauto|].
    rewrite Hl.
    apply bind_Ok. exists action, w. split; [exact Hsel|].
    apply bind_Ok. exists tt, w1. split; [exact Hcv|].
    apply bind_Ok. exists w1, w1. split; [by apply get_world_Ok|].
    apply bind_Ok. exists c, w2. split; [exact Hc|].
    apply bind_Ok. exists vc', w3. split; [exact Hrec|].
    apply bind_Ok. eexists tt, _. split.
    { apply update_edge_Ok. exists n3, a3, t, k. done. }
    by apply ret_Ok.
Qed.

Lemma search_progress (steps : nat) (w : world) :
  ready w -> exists w', search steps w = Ok (tt, w') /\ ready w'.
Proof.
  revert w. induction steps as [|steps IH]; intros w Hr.
  { exists w. done. }
  pose proof Hr as (Hs & (r & Hroot & Hlt) & Hsp).
  destruct (select_leaf_and_update_progress (max_depth (agent w)) r w Hs Hsp Hlt)
    as (v & w1 & Hsim).
  destruct (select_leaf_and_update_ready _ _ _ _ _ Hsim Hs Hsp) as [Hs1 Hsp1].
  pose proof (select_leaf_and_update_config _ _ _ _ _ _ _ _ _ Hsim)
    as (_ & _ & _ & _ & _ & Hroot1).
  pose proof (select_leaf_and_update_cost _ _ _ _ _ Hsim) as [_ Hlen].
  set (w2 := set_agent (set_total_steps (S (total_steps (agent w1))) (agent w1)) w1).
  assert (Hr2 : ready w2).
  { split; [by eapply store_ready_frame; [| | |exact Hs1]|].
    split; [|exact Hsp1]. exists r. simpl. split; [congruence|lia]. }
  destruct (IH w2 Hr2) as (w' & Hs' & Hr').
  exists w'. split; [|done]. simpl. apply bind_Ok. exists tt, w2. split; [|exact Hs'].
  unfold search_step.
  apply bind_Ok. exists r, w. split; [by apply get_initial_node_Ok|].
  apply bind_Ok. exists w, w. split; [by apply get_world_Ok|].
  apply bind_Ok. exists v, w1. split; [exact Hsim|]. by apply modify_Ok.
Qed.

Lemma search_ready (steps : nat) (w w' : world) :
  search steps w = Ok (tt, w') -> ready w -> ready w'.
Proof.
  intros Hs Hr. destruct (search_progress steps w Hr) as (w'' & Hs' & Hr').
  pose proof (eq_trans (eq_sym Hs') Hs) as E. by injection E as ->.
Qed.

Lemma assign_root_priors_progress (w : world) (r : ref) :
  dirichlet_shaped -> store_ready w -> initial_node (agent w) = Some r -> (r < length (heap w))%nat ->
  exists w', assign_root_priors w = Ok (tt, w') /\ store_ready w' /\
    agent w' = agent w /\ length (heap w') = length (heap w).
Proof.
  intros Hdirichlet (Hpol & Htab & Hnodes) Hroot Hlt.
  destruct (lookup_lt_is_Some_2 _ _ Hlt) as [n Hn].
  destruct (model_policy_value (agent w) (State_input_array (state n)) (ext w))
    as [pv e1] eqn:Hpv.
  destruct (dirichlet (replicate action_count f_05) e1) as [d e2] eqn:Hd.
  assert (Hlp : length (fst pv) = action_count).
  { specialize (Hpol (State_input_array (state n)) (ext w)). by rewrite Hpv in Hpol. }
  assert (Hld : length d = action_count).
  { specialize (Hdirichlet (replicate action_count f_05) e1).
    rewrite Hd, length_replicate in Hdirichlet. done. }
  set (q := zip_with fadd (map (fmul f_075) (fst pv)) (map (fmul f_025) d)).
  assert (Hlq : length q = action_count).
  { unfold q. rewrite length_zip_with, !length_map. lia. }
  eexists. split.
  { apply assign_root_priors_Ok. exists r, n, pv, e1, d, e2, q.
    split; [done|]. split; [done|]. split; [done|]. split; [done|].
    split; [|reflexivity].
    apply np_binop_same_length. rewrite !length_map. lia. }
  simpl. rewrite length_insert. split; [|done].
  split; [done|]. simpl. rewrite length_insert. split; [done|].
  intros r' m Hm. destruct (decide (r' = r)) as [->|Hne].
  - apply list_lookup_insert_Some in Hm as [(_ & <- & _)|[? _]]; [|done].
    destruct (Hnodes _ _ Hn) as [Hterm Hnode]. split; [done|].
    intros Ht. destruct (Hnode Ht) as (a & p & Ha & _ & _ & Hshape & Hch).
    by exists a, q.
  - rewrite list_lookup_insert_ne in Hm by done. by eapply Hnodes.
Qed.

Lemma advance_to_action_progress (action : nat) (w : world) (r : ref) (n : MCTSNode) :
  dirichlet_shaped -> ready w -> initial_node (agent w) = Some r -> heap w !! r = Some n ->
  terminal n = false -> (action < action_count)%nat ->
  exists w', advance_to_action action w = Ok (tt, w') /\ ready w'.
Proof.
  intros Hdirichlet (Hs & _ & Hsp) Hroot Hn Ht Hact.
  destruct (child_progress r action n w Hs Hn Ht Hact) as (c & w1 & Hc).
  destruct (child_ready _ _ _ _ _ Hc Hs) as [Hs1 Hlt1].
  set (w1' := set_agent (set_initial_node c (agent w1)) w1).
  assert (Hs1' : store_ready w1') by (by eapply store_ready_frame; [| | |exact Hs1]).
  destruct (assign_root_priors_progress w1' c Hdirichlet Hs1' eq_refl Hlt1)
    as (w2 & Ha & Hs2 & Hag2 & Hlen2).
  eexists. split.
  { apply advance_to_action_Ok. exists r, c, w1, w2. done. }
  split; [by eapply store_ready_frame; [| | |exact Hs2]|].
  simpl. rewrite Hag2, Hlen2. split; [by exists c|by eexists].
Qed.

Lemma advance_to_action_ready (action : nat) (w w' : world) :
  dirichlet_shaped ->
  advance_to_action action w = Ok (tt, w') -> ready w -> ready w'.
Proof.
  intros Hdirichlet Ha Hr.
  pose proof (proj1 (advance_to_action_Ok _ _ _ _ _ _ _ _ _) Ha)
    as (r & c & w1 & w2 & Hroot & Hc & _).
  apply child_Ok in Hc as (n & a & Hn & Hat & Hcases).
  pose proof Hr as ((_ & _ & Hnodes) & _). specialize (Hnodes _ _ Hn).
  destruct (node_ready_attrs _ _ _ Hnodes Hat) as (Ht & (_ & _ & _ & Hlc) & _).
  assert (Hact : (action < action_count)%nat).
  { rewrite <- Hlc.
    destruct Hcases as [[Hi _]|[(Hi & _)|(Hi & _)]]; by eapply lookup_lt_Some. }
  destruct (advance_to_action_progress action w r n Hdirichlet Hr Hroot Hn Ht Hact)
    as (w'' & Ha' & Hr').
  pose proof (eq_trans (eq_sym Ha') Ha) as E. by injection E as ->.
Qed.

Lemma MCTSAgent_init_body_progress (wrapped : @Oracle Input Ext) (s : State) (md : nat)
    (table : gmap Key ref) (cp g : float) (h : list MCTSNode) (e : Ext) :
  dirichlet_shaped ->
  store_ready (mkWorld h (mkAgent wrapped md 0 table cp g None None) e 0 []) ->
  exists w0, MCTSAgent_init_body wrapped s md table cp g h e = Ok w0 /\ ready w0.
Proof.
  intros Hdirichlet Hs.
  destruct (MCTSNode_init_progress s
              (mkWorld h (mkAgent wrapped md 0 table cp g None None) e 0 []))
    as (root & w1 & Hinit).
  destruct (MCTSNode_init_ready _ _ _ _ Hinit Hs) as [Hs1 Hlt1].
  set (w1' := set_agent (set_initial_node root (agent w1)) w1).
  assert (Hs1' : store_ready w1') by (by eapply store_ready_frame; [| | |exact Hs1]).
  destruct (assign_root_priors_progress w1' root Hdirichlet Hs1' eq_refl Hlt1)
    as (w2 & Ha & Hs2 & Hag2 & Hlen2).
  eexists. split.
  { apply MCTSAgent_init_body_Ok. exists root, w1, w2. done. }
  split; [by eapply store_ready_frame; [| | |exact Hs2]|].
  simpl. rewrite Hag2, Hlen2. split; [by exists root|by eexists].
Qed.

Lemma runs_from_ready (w0 w : world) :
  dirichlet_shaped -> ready w0 -> runs_from w0 w -> ready w.
Proof.
  intros Hdirichlet Hr. induction 1 as [|steps w w' _ IH Hs|action w w' _ IH Ha].
  - done.
  - by eapply search_ready.
  - by eapply advance_to_action_ready.
Qed.

Lemma new_store_ready (wrapped : @Oracle Input Ext) (md : nat) (cp g : float) (e : Ext) :
  policy_shaped wrapped ->
  store_ready (mkWorld [] (mkAgent wrapped md 0 ∅ cp g None None) e 0 [] : world).
Proof. intros Hpol. split; [done|]. split; [intros k c Hk|intros r n Hn]; done. Qed.


Lemma child_without_children (self : ref) (action : nat) (n : MCTSNode) (w : world) :
  heap w !! self = Some n -> attrs n = None ->
  child self action w = Raise (AttributeError "children").
Proof.
  intros Hn Ha. unfold child, bind at 1, get_attrs, bind at 1.
  rewrite (proj2 (get_node_Ok self n w w)) by done. by rewrite Ha.
Qed.

Lemma child_out_of_range (self : ref) (action : nat) (n : MCTSNode) (a : NodeAttrs)
    (w : world) :
  heap w !! self = Some n -> attrs n = Some a -> children a !! action = None ->
  child self action w = Raise IndexError.
Proof.
  intros Hn Ha Hi. unfold child, bind at 1.
  rewrite (proj2 (get_attrs_Ok "children" self a w w)) by eauto.
  unfold bind at 1, index. by rewrite Hi.
Qed.

Lemma advance_to_action_child_raises (action : nat) (r : ref) (x : exn) (w : world) :
  initial_node (agent w) = Some r -> child r action w = Raise x ->
  advance_to_action action w = Raise x.
Proof.
  intros Hroot Hc. unfold advance_to_action, bind at 1.
  rewrite (proj2 (get_initial_node_Ok r w w)) by done.
  unfold bind at 1. by rewrite Hc.
Qed.

(** X3: what [advance_to_action] does at each root, in every store an
    agent with a well-shaped policy reaches: on a terminal root it raises
    [AttributeError] (a terminal node has no [children]); on any other
    root an action of [action_count] or more raises [IndexError], and an
    action below [action_count] goes through. *)
Theorem advance_to_action_outcome (wrapped : @Oracle Input Ext) (s : State) (md : nat)
    (cp g : float) (e : Ext) (w0 w : world) (r : ref) (n : MCTSNode) (action : nat) :
  policy_shaped wrapped -> dirichlet_shaped ->
  MCTSAgent_init_body wrapped s md ∅ cp g [] e = Ok w0 ->
  runs_from w0 w ->
  initial_node (agent w) = Some r -> heap w !! r = Some n ->
  (terminal n = true ->
   advance_to_action action w = Raise (AttributeError "children")) /\
  (terminal n = false -> (action_count <= action)%nat ->
   advance_to_action action w = Raise IndexError) /\
  (terminal n = false -> (action < action_count)%nat ->
   exists w', advance_to_action action w = Ok (tt, w')).
Proof.
  intros Hpol Hdirichlet Hinit Hruns Hroot Hn.
  destruct (MCTSAgent_init_body_progress wrapped s md ∅ cp g [] e Hdirichlet
              (new_store_ready wrapped md cp g e Hpol)) as (w0' & Hinit' & Hr0).
  pose proof (eq_trans (eq_sym Hinit') Hinit) as E. injection E as ->.
  pose proof (runs_from_ready _ _ Hdirichlet Hr0 Hruns) as Hr.
  pose proof Hr as ((_ & _ & Hnodes) & _). specialize (Hnodes _ _ Hn).
  split; [|split].
  - intros Ht. eapply advance_to_action_child_raises; [done|].
    eapply child_without_children; [done|]. by apply Hnodes.
  - intros Ht Hact. destruct Hnodes as [_ Hnode].
    destruct (Hnode Ht) as (a & p & Ha & _ & _ & (_ & _ & _ & Hlc) & _).
    eapply advance_to_action_child_raises; [done|].
    eapply child_out_of_range; [done|done|].
    apply lookup_ge_None. lia.
  - intros Ht Hact.
    destruct (advance_to_action_progress action w r n Hdirichlet Hr Hroot Hn Ht Hact)
      as (w' & Ha & _).
    by exists w'.
Qed.


(** *** The most visited action *)

Lemma argmax_scan_int_spec (ip pre : list Z) (mp : Z) (max_ind : nat) :
  pre !! max_ind = Some mp ->
  (forall j y, pre !! j = Some y -> y <= mp) ->
  (forall j y, (j < max_ind)%nat -> pre !! j = Some y -> y < mp) ->
  exists x, (pre ++ ip) !! argmax_scan_int mp max_ind (length pre) ip = Some x /\
    (forall j y, (pre ++ ip) !! j = Some y -> y <= x) /\
    (forall j y, (j < argmax_scan_int mp max_ind (length pre) ip)%nat ->
       (pre ++ ip) !! j = Some y -> y < x).
Proof.
  revert pre mp max_ind.
  induction ip as [|x ip IH]; intros pre mp max_ind Hm Hall Hstrict.
  - rewrite app_nil_r. exists mp. done.
  - simpl.
    assert (Hlen : length (pre ++ [x]) = S (length pre))
      by (rewrite length_app; simpl; lia).
    destruct (Z.ltb_spec mp x) as [Hlt|Hge].
    + specialize (IH (pre ++ [x]) x (length pre)).
      rewrite Hlen, <- app_assoc in IH. simpl in IH. apply IH.
      * rewrite lookup_app_r by lia. by rewrite Nat.sub_diag.
      * intros j y Hy. apply lookup_app_Some in Hy as [Hy|[_ Hy]].
        -- specialize (Hall j y Hy). lia.
        -- apply list_lookup_singleton_Some in Hy as [_ <-]. lia.
      * intros j y Hj Hy. rewrite lookup_app_l in Hy by lia.
        specialize (Hall j y Hy). lia.
    + specialize (IH (pre ++ [x]) mp max_ind).
      rewrite Hlen, <- app_assoc in IH. simpl in IH. apply IH.
      * by apply lookup_app_l_Some.
      * intros j y Hy. apply lookup_app_Some in Hy as [Hy|[_ Hy]]; [eauto|].
        apply list_lookup_singleton_Some in Hy as [_ <-]. lia.
      * intros j y Hj Hy. apply (Hstrict j y Hj).
        rewrite lookup_app_l in Hy; [done|].
        apply lookup_lt_Some in Hm. lia.
Qed.

Lemma np_argmax_int_spec (xs : list Z) (m : nat) :
  np_argmax_int xs = Ok m ->
  exists x, xs !! m = Some x /\
    (forall j y, xs !! j = Some y -> y <= x) /\
    (forall j y, (j < m)%nat -> xs !! j = Some y -> y < x).
Proof.
  destruct xs as [|x xs]; [done|]. simpl. intros [= <-].
  apply (argmax_scan_int_spec xs [x] x 0%nat).
  - done.
  - intros [|j] y; [|done]. intros [= <-]. lia.
  - intros j y Hj. lia.
Qed.

(** X4: [advance_to_best_child] advances along the first action whose visit
    count is highest: no action has more visits, every earlier action has
    fewer.  On a root with no visits at all (terminal, or not yet searched)
    that is action 0. *)
Theorem advance_to_best_child_takes_first_most_visited
    (w w1 : world) (counts : list Z) :
  agent_action_visit_counts w = Ok (counts, w1) -> counts <> [] ->
  exists best m,
    counts !! best = Some m /\
    (forall j c, counts !! j = Some c -> c <= m) /\
    (forall j c, (j < best)%nat -> counts !! j = Some c -> c < m) /\
    (Forall (fun c => c = 0) counts -> best = 0%nat) /\
    advance_to_best_child w = advance_to_action best w.
Proof.
  intros Hc Hne.
  assert (w1 = w) as ->.
  { unfold agent_action_visit_counts, action_visit_counts in Hc.
    apply bind_Ok in Hc as (r & w0 & [_ ->]%get_initial_node_Ok & Hc).
    apply bind_Ok in Hc as (n & w0 & [_ ->]%get_node_Ok & Hc).
    destruct (terminal n); [by apply ret_Ok in Hc as [_ ->]|].
    apply bind_Ok in Hc as (a & w0 & [_ ->]%get_attrs_Ok & Hc).
    destruct (is_leaf_node a); by apply ret_Ok in Hc as [_ ->]. }
  destruct (np_argmax_int counts) as [best|] eqn:Hbest; [|by destruct counts].
  destruct (np_argmax_int_spec _ _ Hbest) as (m & Hm & Hall & Hstrict).
  exists best, m. split; [done|]. split; [done|]. split; [done|]. split.
  - intros Hzero. destruct best as [|best]; [done|]. exfalso.
    destruct counts as [|c0 counts]; [done|].
    specialize (Hstrict 0%nat c0 ltac:(lia) eq_refl).
    rewrite Forall_forall in Hzero.
    assert (c0 = 0) by (apply Hzero; left).
    assert (m = 0) by (apply Hzero; by eapply list_elem_of_lookup_2).
    lia.
  - unfold advance_to_best_child, bind at 1. rewrite Hc.
    unfold bind at 1, lift. by rewrite Hbest.
Qed.

(** *** Nothing is forgotten *)

(** X5: through any sequence of searches and advances the agent removes
    nothing: every entry of the transposition table stays bound to the
    same node, every node stays in the store with its state, its terminal
    flag, its value estimate and its child links, no visit count ever
    decreases, a node that stopped being a leaf stays so, and the agent's
    configuration is unchanged. *)
Theorem searches_and_advances_forget_nothing (w0 w : world) :
  runs_from w0 w ->
  (forall k c, transposition_table (agent w0) !! k = Some c ->
     transposition_table (agent w) !! k = Some c) /\
  (forall r n, heap w0 !! r = Some n ->
     exists n', heap w !! r = Some n' /\
       state n' = state n /\ terminal n' = terminal n /\
       forall a, attrs n = Some a ->
         exists a', attrs n' = Some a' /\
           node_value a' = node_value a /\
           total_visit_counts a <= total_visit_counts a' /\
           (forall i c, visit_counts a !! i = Some c ->
              exists c', visit_counts a' !! i = Some c' /\ c <= c') /\
           (is_leaf_node a = false -> is_leaf_node a' = false) /\
           (forall i c, children a !! i = Some (Some c) ->
              children a' !! i = Some (Some c))) /\
  model_policy_value (agent w) = model_policy_value (agent w0) /\
  max_depth (agent w) = max_depth (agent w0) /\
  agent_c_puct (agent w) = agent_c_puct (agent w0) /\
  gamma (agent w) = gamma (agent w0).
Proof.
  intros Hruns. apply runs_from_keeps in Hruns as (Htab & Hheap & Hm & Hd & Hc & Hg).
  split; [|split; [|done]].
  - intros k c Hk. by eapply lookup_weaken.
  - intros r n Hn. destruct (Hheap r n Hn) as (n' & Hn' & Hs & Ht & Hat).
    exists n'. split; [done|]. split; [done|]. split; [done|].
    intros a Ha. destruct (Hat a Ha) as (a' & Ha' & Hv & _ & Htot & Hvc & Hl & Hch).
    by exists a'.
Qed.

(** *** Reading statistics *)

(** X6: [stats] only reads.  It leaves every node and the agent as they
    are; the keys ['prior'] and ['value'] evaluate the policy/value callable
    once, the other keys never; a key outside the six known ones gives
    [None]. *)
Theorem stats_only_reads (key : string) (s : stat) (w w' : world) :
  stats key w = Ok (s, w') ->
  heap w' = heap w /\ agent w' = agent w /\ terminal_log w' = terminal_log w /\
  ((key = "prior" \/ key = "value") /\ oracle_calls w' = S (oracle_calls w) \/
   key <> "prior" /\ key <> "value" /\ w' = w) /\
  (In key ["shortest_path"; "prior"; "prior_dirichlet"; "value"; "visit_counts";
           "total_action_values"] \/ s = StatNone).
Proof.
  unfold stats. intros Hs.
  destruct (String.eqb key "shortest_path") eqn:E1.
  { apply String.eqb_eq in E1 as ->.
    apply bind_Ok in Hs as (w0 & w1 & [-> ->]%get_world_Ok & Hs).
    destruct (shortest_path (agent w)); [|done].
    apply ret_Ok in Hs as [-> ->].
    repeat split; [right; done|left; simpl; repeat (first [by left|right])]. }
  destruct (String.eqb key "prior") eqn:E2.
  { apply String.eqb_eq in E2 as ->.
    apply bind_Ok in Hs as (r & w0 & [_ ->]%get_initial_node_Ok & Hs).
    apply bind_Ok in Hs as (n & w0 & [_ ->]%get_node_Ok & Hs).
    apply bind_Ok in Hs as (pv & w0 & (e & _ & ->)%call_model_policy_value_Ok & Hs).
    apply ret_Ok in Hs as [-> ->].
    repeat split; [left; split; [by left|done]|left; simpl; repeat (first [by left|right])]. }
  destruct (String.eqb key "prior_dirichlet") eqn:E3.
  { apply String.eqb_eq in E3 as ->.
    apply bind_Ok in Hs as (r & w0 & [_ ->]%get_initial_node_Ok & Hs).
    apply bind_Ok in Hs as (p & w0 & [_ ->]%get_prior_probabilities_Ok & Hs).
    apply ret_Ok in Hs as [-> ->].
    repeat split; [right; done|left; simpl; repeat (first [by left|right])]. }
  destruct (String.eqb key "value") eqn:E4.
  { apply String.eqb_eq in E4 as ->.
    apply bind_Ok in Hs as (r & w0 & [_ ->]%get_initial_node_Ok & Hs).
    apply bind_Ok in Hs as (n & w0 & [_ ->]%get_node_Ok & Hs).
    apply bind_Ok in Hs as (pv & w0 & (e & _ & ->)%call_model_policy_value_Ok & Hs).
    apply ret_Ok in Hs as [-> ->].
    repeat split; [left; split; [by right|done]|left; simpl; repeat (first [by left|right])]. }
  destruct (String.eqb key "visit_counts") eqn:E5.
  { apply String.eqb_eq in E5 as ->.
    apply bind_Ok in Hs as (r & w0 & [_ ->]%get_initial_node_Ok & Hs).
    apply bind_Ok in Hs as (a & w0 & [_ ->]%get_attrs_Ok & Hs).
    apply ret_Ok in Hs as [-> ->].
    repeat split; [right; done|left; simpl; repeat (first [by left|right])]. }
  destruct (String.eqb key "total_action_values") eqn:E6.
  { apply String.eqb_eq in E6 as ->.
    apply bind_Ok in Hs as (r & w0 & [_ ->]%get_initial_node_Ok & Hs).
    apply bind_Ok in Hs as (a & w0 & [_ ->]%get_attrs_Ok & Hs).
    apply ret_Ok in Hs as [-> ->].
    repeat split; [right; done|left; simpl; repeat (first [by left|right])]. }
  apply ret_Ok in Hs as [-> ->].
  apply String.eqb_neq in E2, E4.
  repeat split; [right; done|by right].
Qed.

(** *** The range of the shortest-path statistic *)

Lemma select_leaf_and_update_depths (budget : nat) (self : ref) (v : float) (w w' : world) :
  select_leaf_and_update budget self w = Ok (v, w') ->
  (budget <= max_depth (agent w))%nat ->
  Forall (fun d => 0 <= d) (terminal_log w) ->
  Forall (fun d => 0 <= d) (terminal_log w').
Proof.
  revert self v w w'.
  induction budget as [|budget IH]; intros self v w w' Hs Hb Hlog;
    apply select_leaf_and_update_Ok in Hs as (n & Hn & Hcases);
    destruct Hcases as [(_ & _ & Hr)|(_ & a & Ha & [(_ & _ & ->)|[(_ & _ & _ & ->)|
      (_ & b' & action & w1 & c & w2 & vc & w3 & Hb' & _ & Hcv & Hc & Hrec & _ & Hup)]])];
    try done;
    try (apply record_shortest_path_Ok in Hr as (sp & _ & ->);
         cbv zeta; destruct (_ <? sp); (constructor; [lia|exact Hlog])).
  injection Hb' as <-.
  apply count_visit_frame in Hcv as (_&Hmd1&_&_&_&_&_&Hl1).
  apply child_frame in Hc as (_&Hmd2&_&_&_&_&_&Hl2).
  apply update_edge_frame in Hup as (_&_&_&_&_&_&_&Hl4).
  rewrite Hl4. eapply IH; [exact Hrec| |].
  - rewrite Hmd2, Hmd1. lia.
  - by rewrite Hl2, Hl1.
Qed.

Lemma search_depths (steps : nat) (w w' : world) :
  search steps w = Ok (tt, w') ->
  Forall (fun d => 0 <= d) (terminal_log w) ->
  Forall (fun d => 0 <= d) (terminal_log w').
Proof.
  revert w w'. induction steps as [|steps IH]; intros w w' Hs Hlog.
  - by apply ret_Ok in Hs as [_ ->].
  - simpl in Hs. apply bind_Ok in Hs as (u & w1 & Hstep & Hs).
    apply search_step_Ok in Hstep as (r & v & w2 & _ & Hsim & ->).
    eapply IH; [exact Hs|]. simpl.
    eapply select_leaf_and_update_depths; [exact Hsim|lia|done].
Qed.

Lemma reachable_depths (w : world) :
  reachable w -> Forall (fun d => 0 <= d) (terminal_log w).
Proof.
  induction 1 as [wrapped s md cp g e w Hinit
                 |w0 wrapped s md cp g w _ IH Hinit
                 |steps w w' _ IH Hsearch
                 |action w w' _ IH Hadv].
  - apply MCTSAgent_init_body_Ok in Hinit as (root & w1 & w2 & _ & _ & ->).
    constructor.
  - apply MCTSAgent_init_body_Ok in Hinit as (root & w1 & w2 & _ & _ & ->).
    constructor.
  - by eapply search_depths.
  - apply advance_to_action_Ok in Hadv as (r & c & w1 & w2 & _ & _ & _ & ->).
    constructor.
Qed.

Lemma min_depth_range (md : nat) (log : list Z) :
  Forall (fun d => 0 <= d) log ->
  Forall (fun d => d <= Z.of_nat md) log ->
  (log = [] /\ min_depth md log = Z.of_nat md + 1) \/
  (log <> [] /\ 0 <= min_depth md log <= Z.of_nat md).
Proof.
  induction log as [|d log IH]; intros Hlo Hhi; [by left|right].
  apply Forall_cons in Hlo as [Hd Hlo]. apply Forall_cons in Hhi as [Hd' Hhi].
  split; [done|]. unfold min_depth in *. simpl.
  destruct (IH Hlo Hhi) as [[-> E]|[_ E]]; simpl in *; lia.
Qed.

(** X7: in every store the program reaches, [stats('shortest_path')]
    returns either -1 or a depth between 0 and [max_depth]; it is -1
    exactly when no simulation since the last reset met a terminal node. *)
Theorem stats_shortest_path_range (w : world) :
  reachable w ->
  exists z, stats "shortest_path" w = Ok (StatInt z, w) /\
    (z = -1 /\ terminal_log w = [] \/
     0 <= z <= Z.of_nat (max_depth (agent w)) /\ terminal_log w <> []).
Proof.
  intros Hr.
  pose proof (reachable_depths w Hr) as Hlo.
  apply reachable_invariant in Hr as (_ & _ & [Hsp Hhi] & _).
  destruct (min_depth_range _ _ Hlo Hhi) as [[Hnil E]|[Hcons E]].
  - exists (-1). split; [|by left].
    unfold stats. simpl. unfold bind, get_world. rewrite Hsp. unfold ret.
    rewrite E. destruct (Z.leb_spec (Z.of_nat (max_depth (agent w)) + 1)
                           (Z.of_nat (max_depth (agent w)))); [lia|done].
  - exists (min_depth (max_depth (agent w)) (terminal_log w)). split; [|by right].
    unfold stats. simpl. unfold bind, get_world. rewrite Hsp. unfold ret.
    destruct (Z.leb_spec (min_depth (max_depth (agent w)) (terminal_log w))
                (Z.of_nat (max_depth (agent w)))); [done|lia].
Qed.

(** *** Searching from a solved root *)

(** X8: on a terminal root every simulation stops at once: [search(steps)]
    returns, leaves every node as it is, makes no call of the policy/value
    callable, and records depth 0 once per simulation. *)
Theorem search_on_terminal_root (steps : nat) (w : world) (r : ref) (n : MCTSNode) (sp : Z) :
  initial_node (agent w) = Some r -> heap w !! r = Some n -> terminal n = true ->
  shortest_path (agent w) = Some sp ->
  exists w', search steps w = Ok (tt, w') /\
    heap w' = heap w /\ oracle_calls w' = oracle_calls w /\ ext w' = ext w /\
    terminal_log w' = replicate steps 0 ++ terminal_log w /\
    shortest_path (agent w') = Some (match steps with O => sp | S _ => Z.min sp 0 end).
Proof.
  revert w sp. induction steps as [|steps IH]; intros w sp Hroot Hn Ht Hsp.
  { exists w. done. }
  set (sp1 := if 0 <? sp then 0 else sp).
  set (w1 := set_terminal_log (0 :: terminal_log w)
               (if 0 <? sp then set_agent (set_shortest_path 0 (agent w)) w else w)).
  set (w2 := set_agent (set_total_steps (S (total_steps (agent w1))) (agent w1)) w1).
  assert (Hsim : select_leaf_and_update (max_depth (agent w)) r w = Ok (fone, w1)).
  { rewrite select_leaf_and_update_unfold.
    apply bind_Ok. exists n, w. split; [by apply get_node_Ok|]. rewrite Ht.
    apply bind_Ok. exists tt, w1. split; [|done].
    apply record_shortest_path_Ok. exists sp. split; [done|].
    simpl. by rewrite Z.sub_diag. }
  assert (Hstep : search_step w = Ok (tt, w2)).
  { unfold search_step.
    apply bind_Ok. exists r, w. split; [by apply get_initial_node_Ok|].
    apply bind_Ok. exists w, w. split; [by apply get_world_Ok|].
    apply bind_Ok. exists fone, w1. split; [exact Hsim|]. by apply modify_Ok. }
  assert (Hsp2 : shortest_path (agent w2) = Some (Z.min sp 0)).
  { unfold w2, w1. simpl. destruct (Z.ltb_spec 0 sp); simpl.
    - by rewrite Z.min_r by lia.
    - rewrite Hsp. by rewrite Z.min_l by lia. }
  assert (Hroot2 : initial_node (agent w2) = Some r).
  { unfold w2, w1. simpl. by destruct (0 <? sp). }
  assert (Hh2 : heap w2 = heap w).
  { unfold w2, w1. simpl. by destruct (0 <? sp). }
  assert (Hn2 : heap w2 !! r = Some n) by (by rewrite Hh2).
  destruct (IH w2 (Z.min sp 0) Hroot2 Hn2 Ht Hsp2)
    as (w' & Hs & Hh & Hoc & Hext & Hlog & Hsp').
  exists w'. split.
  { simpl. apply bind_Ok. exists tt, w2. done. }
  split; [by rewrite Hh|].
  split; [rewrite Hoc; unfold w2, w1; simpl; by destruct (0 <? sp)|].
  split; [rewrite Hext; unfold w2, w1; simpl; by destruct (0 <? sp)|].
  split.
  - rewrite Hlog. unfold w2, w1. simpl.
    change (0 :: replicate steps 0 ++ terminal_log w)
      with (replicate (S steps) 0 ++ terminal_log w).
    rewrite replicate_S_end, <- app_assoc. done.
  - rewrite Hsp'. destruct steps; [done|]. f_equal. lia.
Qed.

(** *** Actions that were never taken *)

Lemma counts_sound_insert (h : list MCTSNode) (r : ref) (n' : MCTSNode) :
  counts_sound h ->
  (forall a', attrs n' = Some a' -> unvisited_zero a') ->
  counts_sound (<[r := n']> h).
Proof.
  intros Hinv Hn' r' m a Hm Ha. destruct (decide (r' = r)) as [->|Hne].
  - apply list_lookup_insert_Some in Hm as [(_ & <- & _)|[? _]]; [|done]. by apply Hn'.
  - rewrite list_lookup_insert_ne in Hm by done. by eapply Hinv.
Qed.

Lemma MCTSNode_init_counts (st : State) (r : ref) (w w' : world) :
  MCTSNode_init st w = Ok (r, w') -> counts_sound (heap w) -> counts_sound (heap w').
Proof.
  intros (_ & _ & _ & node & -> & _ & _ & Hnode)%MCTSNode_init_Ok Hinv r' m a Hm Ha.
  apply lookup_app_Some in Hm as [Hm|[_ Hm]]; [by eapply Hinv|].
  apply list_lookup_singleton_Some in Hm as [_ <-].
  destruct Hnode as [(_ & _ & Hno & _)|(_ & pv & e & _ & _ & Hat & _)].
  - by rewrite Hno in Ha.
  - rewrite Hat in Ha. injection Ha as <-. intros i c Hi.
    change (replicate action_count 0 !! i = Some c) in Hi.
    apply lookup_replicate in Hi as [-> Hlt]. split; [lia|]. intros _.
    split; change (replicate action_count fzero !! i = Some fzero);
      by apply lookup_replicate.
Qed.

Lemma child_counts (self : ref) (action : nat) (c : ref) (w w' : world) :
  child self action w = Ok (c, w') -> counts_sound (heap w) -> counts_sound (heap w').
Proof.
  intros (n & a & Hn & Ha & Hcases)%child_Ok Hinv. simpl in Hcases.
  destruct Hcases as [[_ ->]|[(_ & _ & ->)|(_ & _ & w1 & Hinit & ->)]]; [done| |].
  - simpl. apply counts_sound_insert; [done|].
    intros a' [= <-]. by apply (Hinv _ _ _ Hn Ha).
  - simpl. apply counts_sound_insert; [by eapply MCTSNode_init_counts|].
    intros a' [= <-]. by apply (Hinv _ _ _ Hn Ha).
Qed.

Lemma count_visit_counts (self : ref) (action : nat) (u : unit) (w w' : world) :
  count_visit self action w = Ok (u, w') -> counts_sound (heap w) -> counts_sound (heap w').
Proof.
  intros (n & a & vc & Hn & Ha & Hvc & ->)%count_visit_Ok Hinv.
  simpl. apply counts_sound_insert; [done|].
  intros a' [= <-] i c Hi. simpl in *.
  destruct (decide (i = action)) as [->|Hne].
  - rewrite list_lookup_insert_eq in Hi by (by eapply lookup_lt_Some).
    injection Hi as <-. destruct (Hinv _ _ _ Hn Ha _ _ Hvc) as [Hpos _].
    split; [lia|]. intros ?. lia.
  - rewrite list_lookup_insert_ne in Hi by done. by apply (Hinv _ _ _ Hn Ha).
Qed.

Lemma update_edge_counts (self : ref) (action : nat) (v : float) (u : unit) (w w' : world) :
  update_edge self action v w = Ok (u, w') ->
  (forall n a vc, heap w !! self = Some n -> attrs n = Some a ->
     visit_counts a !! action = Some vc -> 0 < vc) ->
  counts_sound (heap w) -> counts_sound (heap w').
Proof.
  intros (n & a & t & vc & Hn & Ha & _ & Hvc & ->)%update_edge_Ok Hpos Hinv.
  specialize (Hpos _ _ _ Hn Ha Hvc).
  simpl. apply counts_sound_insert; [done|].
  intros a' [= <-] i c Hi. simpl in *.
  destruct (decide (i = action)) as [->|Hne].
  - pose proof (eq_trans (eq_sym Hi) Hvc) as E. injection E as ->.
    split; [lia|]. intros ?. lia.
  - rewrite !list_lookup_insert_ne by done. by apply (Hinv _ _ _ Hn Ha).
Qed.

Lemma select_leaf_and_update_counts (budget : nat) (self : ref) (v : float) (w w' : world) :
  select_leaf_and_update budget self w = Ok (v, w') ->
  counts_sound (heap w) -> counts_sound (heap w').
Proof.
  revert self v w w'.
  induction budget as [|budget IH]; intros self v w w' Hs Hinv;
    apply select_leaf_and_update_Ok in Hs as (n & Hn & Hcases);
    destruct Hcases as [(_ & _ & Hr)|(_ & a & Ha & [(_ & _ & ->)|[(_ & _ & _ & ->)|
      (_ & b' & action & w1 & c & w2 & vc & w3 & Hb & _ & Hcv & Hc & Hrec & _ & Hup)]])];
    try done;
    try (apply record_shortest_path_Ok in Hr as (sp & _ & ->); simpl;
         by destruct (_ <? sp));
    try (simpl; apply counts_sound_insert; [done|];
         intros a' [= <-]; by apply (Hinv _ _ _ Hn Ha)).
  injection Hb as <-.
  pose proof (count_visit_counts _ _ _ _ _ Hcv Hinv) as Hinv1.
  pose proof (child_counts _ _ _ _ _ Hc Hinv1) as Hinv2.
  pose proof (IH _ _ _ _ Hrec Hinv2) as Hinv3.
  eapply update_edge_counts; [exact Hup| |exact Hinv3].
  intros n3 a3 vc3 Hn3 Ha3 Hvc3.
  assert (Hk : keeps w1 w3).
  { eapply keeps_trans; [by eapply child_keeps|by eapply select_leaf_and_update_keeps]. }
  apply count_visit_Ok in Hcv as (n0 & a0 & vc0 & Hn0 & Ha0 & Hvc0 & ->).
  destruct (Hinv _ _ _ Hn0 Ha0 _ _ Hvc0) as [Hpos _].
  destruct Hk as (_ & Hh & _).
  destruct (Hh self _ (list_lookup_insert_eq _ _ _ (lookup_lt_Some _ _ _ Hn0)))
    as (n3' & Hn3' & _ & _ & Hat).
  destruct (Hat _ eq_refl) as (a3' & Ha3' & _ & _ & _ & Hgrow & _).
  destruct (Hgrow action (vc0 + 1)) as (c' & Hc' & Hle).
  { simpl. apply list_lookup_insert_eq. by eapply lookup_lt_Some. }
  pose proof (eq_trans (eq_sym Hn3') Hn3) as E. injection E as ->.
  pose proof (eq_trans (eq_sym Ha3') Ha3) as E. injection E as ->.
  pose proof (eq_trans (eq_sym Hc') Hvc3) as E. injection E as ->. lia.
Qed.

Lemma assign_root_priors_counts (u : unit) (w w' : world) :
  assign_root_priors w = Ok (u, w') -> counts_sound (heap w) -> counts_sound (heap w').
Proof.
  intros (r & n & pv & e1 & d & e2 & q & _ & Hn & _ & _ & _ & ->)%assign_root_priors_Ok Hinv.
  simpl. apply counts_sound_insert; [done|].
  intros a' Ha'. by apply (Hinv _ _ _ Hn Ha').
Qed.

Lemma reachable_counts (w : world) : reachable w -> counts_sound (heap w).
Proof.
  induction 1 as [wrapped s md cp g e w Hinit
                 |w0 wrapped s md cp g w _ IH Hinit
                 |steps w w' _ IH Hsearch
                 |action w w' _ IH Hadv].
  - apply MCTSAgent_init_body_Ok in Hinit as (root & w1 & w2 & Hroot & Ha & ->).
    simpl. eapply assign_root_priors_counts; [exact Ha|]. simpl.
    eapply MCTSNode_init_counts; [exact Hroot|]. by intros r n a Hn.
  - apply MCTSAgent_init_body_Ok in Hinit as (root & w1 & w2 & Hroot & Ha & ->).
    simpl. eapply assign_root_priors_counts; [exact Ha|]. simpl.
    eapply MCTSNode_init_counts; [exact Hroot|]. done.
  - eapply (search_preserves _ _ _ _ (fun w => counts_sound (heap w)));
      [| |exact Hsearch|exact IH].
    + intros budget self v w1 w2 Hsim. by eapply select_leaf_and_update_counts.
    + intros w1 k Hk. exact Hk.
  - apply advance_to_action_Ok in Hadv as (r & c & w1 & w2 & _ & Hc & Ha & ->).
    simpl. eapply assign_root_priors_counts; [exact Ha|]. simpl.
    by eapply child_counts.
Qed.

(** X9: in every store the program reaches no visit count is negative, and
    an action whose visit count is 0 has [total_action_values] and
    [mean_action_values] exactly [0.0]: the edge statistics change only
    after the visit was counted. *)
Theorem unvisited_actions_hold_zero (w : world) (r : ref) (n : MCTSNode)
    (a : NodeAttrs) (i : nat) (c : Z) :
  reachable w -> heap w !! r = Some n -> attrs n = Some a ->
  visit_counts a !! i = Some c ->
  0 <= c /\
  (c = 0 -> total_action_values a !! i = Some fzero /\
            mean_action_values a !! i = Some fzero).
Proof.
  intros Hr Hn Ha Hi. by apply (reachable_counts w Hr r n a Hn Ha i c).
Qed.

(** *** The value a simulation returns *)


End Coverage.

(** ** The further properties on the small transition system *)

Lemma toy_policy_shaped : policy_shaped Toy.constant_policy_value.
Proof. intros x e. reflexivity. Defined.

Lemma toy_dirichlet_shaped : dirichlet_shaped Toy.dirichlet.
Proof. intros alpha e. apply length_replicate. Defined.

Lemma runs_w_three :
  runs_from Toy.next Toy.key Toy.done Toy.input_array Toy.dirichlet Toy.w_new Toy.w_three.
Proof.
  apply (runs_search Toy.next Toy.key Toy.done Toy.input_array Toy.dirichlet
           Toy.w_new 3 Toy.w_new); [apply runs_here|].
  vm_compute. reflexivity.
Defined.


(** After three simulations action 12 is out of range and action 0 goes
    through; on the solved state no advance is possible. *)
Lemma advance_to_action_outcome_witness :
  Toy.advance_to_action 12 Toy.w_three = Raise IndexError /\
  (exists w', Toy.advance_to_action 0 Toy.w_three = Ok (tt, w')) /\
  Toy.advance_to_action 0 Toy.w_solved = Raise (AttributeError "children").
Proof.
  split; [|split].
  - refine (proj1 (proj2 (advance_to_action_outcome
               Toy.next Toy.key Toy.done Toy.input_array Toy.dirichlet
               Toy.constant_policy_value 2 5%nat fone f_095 0%nat
               Toy.w_new Toy.w_three 0%nat _ 12%nat
               toy_policy_shaped toy_dirichlet_shaped eq_refl runs_w_three
               eq_refl eq_refl)) eq_refl _).
    unfold action_count. lia.
  - refine (proj2 (proj2 (advance_to_action_outcome
               Toy.next Toy.key Toy.done Toy.input_array Toy.dirichlet
               Toy.constant_policy_value 2 5%nat fone f_095 0%nat
               Toy.w_new Toy.w_three 0%nat _ 0%nat
               toy_policy_shaped toy_dirichlet_shaped eq_refl runs_w_three
               eq_refl eq_refl)) eq_refl _).
    unfold action_count. lia.
  - refine (proj1 (advance_to_action_outcome
               Toy.next Toy.key Toy.done Toy.input_array Toy.dirichlet
               Toy.constant_policy_value 0 5%nat fone f_095 0%nat
               Toy.w_solved Toy.w_solved 0%nat _ 0%nat
               toy_policy_shaped toy_dirichlet_shaped eq_refl _
               eq_refl eq_refl) eq_refl).
    apply runs_here.
Defined.

(** Three simulations: three steps counted, at most three evaluations and
    three new nodes. *)
Lemma search_costs_one_evaluation_per_step_witness :
  total_steps (agent Toy.w_three) = 3%nat /\
  (oracle_calls Toy.w_three <= oracle_calls Toy.w_new + 3)%nat /\
  (length (heap Toy.w_three) <= length (heap Toy.w_new) + 3)%nat.
Proof.
  destruct (search_costs_one_evaluation_per_step
              Toy.next Toy.key Toy.done Toy.input_array
              3 Toy.w_new Toy.w_three ltac:(vm_compute; reflexivity))
    as (Hsteps & _ & [_ Hcalls] & [_ Hlen]).
  split; [exact Hsteps|]. split; [exact Hcalls|exact Hlen].
Defined.

(** What the store after three simulations keeps of the new agent's. *)
Lemma searches_and_advances_forget_nothing_witness :
  (forall k c, transposition_table (agent Toy.w_new) !! k = Some c ->
     transposition_table (agent Toy.w_three) !! k = Some c) /\
  (forall r n, heap Toy.w_new !! r = Some n ->
     exists n', heap Toy.w_three !! r = Some n' /\
       state n' = state n /\ terminal n' = terminal n) /\
  max_depth (agent Toy.w_three) = max_depth (agent Toy.w_new).
Proof.
  destruct (searches_and_advances_forget_nothing
              Toy.next Toy.key Toy.done Toy.input_array Toy.dirichlet
              Toy.w_new Toy.w_three runs_w_three) as (Ht & Hh & _ & Hmd & _).
  split; [exact Ht|]. split; [|exact Hmd].
  intros r n Hn. destruct (Hh r n Hn) as (n' & Hn' & Hs & Hterm & _).
  exists n'. split; [exact Hn'|]. split; [exact Hs|exact Hterm].
Defined.


(** Action 1 of the root was never taken in three simulations. *)
Lemma unvisited_actions_hold_zero_witness :
  exists n a, heap Toy.w_three !! 0%nat = Some n /\ attrs n = Some a /\
    visit_counts a !! 1%nat = Some 0 /\
    total_action_values a !! 1%nat = Some fzero /\
    mean_action_values a !! 1%nat = Some fzero.
Proof.
  eexists _, _. split; [reflexivity|]. split; [reflexivity|]. split; [reflexivity|].
  refine (proj2 (unvisited_actions_hold_zero
                   Toy.next Toy.key Toy.done Toy.input_array Toy.dirichlet
                   Toy.w_three 0%nat _ _ 1%nat 0
                   reachable_w_three eq_refl eq_refl eq_refl) eq_refl).
Defined.

(** After three simulations the most visited action of the root is 0. *)
Lemma advance_to_best_child_takes_first_most_visited_witness :
  exists best m,
    [2; 0; 0; 0; 0; 0; 0; 0; 0; 0; 0; 0] !! best = Some m /\
    (forall j c, [2; 0; 0; 0; 0; 0; 0; 0; 0; 0; 0; 0] !! j = Some c -> c <= m) /\
    advance_to_best_child Toy.next Toy.key Toy.done Toy.input_array Toy.dirichlet
      Toy.w_three
    = Toy.advance_to_action best Toy.w_three.
Proof.
  destruct (advance_to_best_child_takes_first_most_visited
              Toy.next Toy.key Toy.done Toy.input_array Toy.dirichlet
              Toy.w_three Toy.w_three [2; 0; 0; 0; 0; 0; 0; 0; 0; 0; 0; 0]
              ltac:(vm_compute; reflexivity) ltac:(discriminate))
    as (best & m & Hm & Hall & _ & _ & Hadv).
  exists best, m. split; [exact Hm|]. split; [exact Hall|exact Hadv].
Defined.

(** Reading the value statistic after three simulations. *)
Lemma stats_only_reads_witness :
  exists s w', Toy.stats "value" Toy.w_three = Ok (s, w') /\
    heap w' = heap Toy.w_three /\ agent w' = agent Toy.w_three /\
    oracle_calls w' = S (oracle_calls Toy.w_three).
Proof.
  destruct (Toy.stats "value" Toy.w_three) as [[s w']|x] eqn:Hs.
  - destruct (stats_only_reads Toy.input_array "value" s Toy.w_three w' Hs)
      as (Hh & Ha & _ & [[_ Hc]|[_ [Hne _]]] & _).
    + exists s, w'. split; [reflexivity|]. split; [exact Hh|]. split; [exact Ha|exact Hc].
    + exfalso. apply Hne. reflexivity.
  - vm_compute in Hs. discriminate Hs.
Defined.

(** The statistic after three simulations, none of which met the solved
    state. *)
Lemma stats_shortest_path_range_witness :
  exists z, Toy.stats "shortest_path" Toy.w_three = Ok (StatInt z, Toy.w_three) /\
    (z = -1 /\ terminal_log Toy.w_three = [] \/
     0 <= z <= Z.of_nat (max_depth (agent Toy.w_three)) /\ terminal_log Toy.w_three <> []).
Proof.
  exact (stats_shortest_path_range
           Toy.next Toy.key Toy.done Toy.input_array Toy.dirichlet
           Toy.w_three reachable_w_three).
Defined.

(** Two simulations from the solved state. *)
Lemma search_on_terminal_root_witness :
  exists w', Toy.search 2 Toy.w_solved = Ok (tt, w') /\
    heap w' = heap Toy.w_solved /\ oracle_calls w' = oracle_calls Toy.w_solved /\
    terminal_log w' = [0; 0] /\ shortest_path (agent w') = Some 0.
Proof.
  destruct (search_on_terminal_root Toy.next Toy.key Toy.done Toy.input_array
              2 Toy.w_solved 0%nat _ 6 eq_refl eq_refl eq_refl eq_refl)
    as (w' & Hs & Hh & Hc & _ & Hlog & Hsp).
  exists w'. split; [exact Hs|]. split; [exact Hh|]. split; [exact Hc|].
  split; [exact Hlog|exact Hsp].
Defined.
